(** * gogarin: the fleet command loop, its ship actions and the request throttle

    A shallow embedding of [main.go], [api/api.go], [lib/lib.go] and the
    [model] package.  Go's [int] and [time.Time]/[time.Duration] readings are
    integers ([Z], nanoseconds for time), [float64] is Rocq's primitive
    binary64 float, strings are [string], slices are lists and a nilable
    pointer is an [option].  Code that calls the remote API, sleeps, logs or
    sends on the dispatcher channel runs in the monad [M] over a [World]. *)

From Stdlib Require Import ZArith String List Bool Lia Permutation.
From Stdlib Require Import Floats.
Import ListNotations.

Local Open Scope string_scope.
Local Open Scope list_scope.
Local Open Scope Z_scope.

(** ** The [model] package *)

Module Agent.
Record t := mk { Symbol : string; Credits : Z }.
End Agent.

Module ContractDeliverGood.
Record t := mk { TradeSymbol : string; UnitsRequired : Z }.
End ContractDeliverGood.

Module Contract.
(** [Deliver] is the source's [Terms.Deliver]. *)
Record t := mk { ID : string; Accepted : bool;
                 Deliver : list ContractDeliverGood.t }.
End Contract.

Module Cooldown.
Record t := mk { Expiration : Z }.
End Cooldown.

Module ShipCargoItem.
Record t := mk { Symbol : string; Units : Z }.
End ShipCargoItem.

Module ShipCargo.
Record t := mk { Capacity : Z; Units : Z; Inventory : list ShipCargoItem.t }.
End ShipCargo.

Module ShipFuel.
Record t := mk { Current : Z; Capacity : Z }.
End ShipFuel.

Module ShipNavRoute.
(** [Destination] is the source's [Destination.Symbol]. *)
Record t := mk { Destination : string; Arrival : Z }.
End ShipNavRoute.

Module ShipNav.
Record t := mk { SystemSymbol : string; WaypointSymbol : string;
                 Route : ShipNavRoute.t; Status : string }.
End ShipNav.

Module Ship.
(** [Role] is the source's [Registration.Role]. *)
Record t := mk { Symbol : string; Role : string; Nav : ShipNav.t;
                 Cargo : ShipCargo.t; Fuel : ShipFuel.t }.

Definition setNav (s : t) (nav : ShipNav.t) : t :=
  mk (Symbol s) (Role s) nav (Cargo s) (Fuel s).
Definition setCargo (s : t) (c : ShipCargo.t) : t :=
  mk (Symbol s) (Role s) (Nav s) c (Fuel s).
Definition setFuel (s : t) (f : ShipFuel.t) : t :=
  mk (Symbol s) (Role s) (Nav s) (Cargo s) f.
End Ship.

Module WaypointTrait.
Record t := mk { Symbol : string }.
End WaypointTrait.

Module Waypoint.
Record t := mk { Symbol : string; Type_ : string; X : Z; Y : Z;
                 Traits : list WaypointTrait.t }.
End Waypoint.

(** ** [lib/lib.go] *)

(** Go's [int] on the 64-bit targets: two's complement wrap-around. *)
Definition wrap64 (z : Z) : Z := (z + 2 ^ 63) mod 2 ^ 64 - 2 ^ 63.

(** The conversion [float64(i)] of an [int]: the nearest binary64 value. *)
Definition float64_of_int (z : Z) : float :=
  if z =? - 2 ^ 63 then (- (of_uint63 (Uint63.of_Z (2 ^ 62)) * 2))%float
  else if z <? 0 then (- of_uint63 (Uint63.of_Z (- z)))%float
  else of_uint63 (Uint63.of_Z z).

Definition Filter {T : Type} (slice : list T) (f : T -> bool) : list T :=
  List.filter f slice.

Fixpoint Contains (elems : list string) (v : string) : bool :=
  match elems with
  | [] => false
  | s :: rest => if String.eqb v s then true else Contains rest v
  end.

Module Coordinate.
Record t := mk { x : Z; y : Z }.
End Coordinate.

(** [math.Pow(v, 2)] is the correctly rounded square of [v], here [v * v]. *)
Definition Distance (c1 c2 : Coordinate.t) : float :=
  let dx := float64_of_int (wrap64 (Coordinate.x c1 - Coordinate.x c2)) in
  let dy := float64_of_int (wrap64 (Coordinate.y c1 - Coordinate.y c2)) in
  PrimFloat.sqrt (dx * dx + dy * dy)%float.

(** What [for _, waypoint := range ...] declares: one variable for the whole
    loop, assigned at every iteration (each Go release before 1.22, and later
    toolchains for a module whose go.mod asks for an older language version),
    or a fresh variable per iteration (Go 1.22 on).  [main] still hands its
    range variable to the goroutine as an argument, the idiom of the
    per-loop variable. *)
Inductive LoopVar := PerLoop | PerIteration.

Module Frame.
(** The locals of [NearestWaypoint]: [cells] are the range variables
    allocated so far, by address; [nearestWaypoint] is nil or the address
    of one of them. *)
Record t := mk { cells : list Waypoint.t;
                 nearestWaypoint : option nat;
                 nearestDistance : float }.
End Frame.

(** The start of an iteration: the element is stored in the range variable;
    the result is the store and the address that [&waypoint] denotes. *)
Definition bind_waypoint (sem : LoopVar) (cells : list Waypoint.t)
    (v : Waypoint.t) : list Waypoint.t * nat :=
  match sem with
  | PerLoop => ([v], 0%nat)
  | PerIteration => (cells ++ [v], length cells)
  end.

Definition waypoint_coordinate (w : Waypoint.t) : Coordinate.t :=
  Coordinate.mk (Waypoint.X w) (Waypoint.Y w).

Fixpoint range_waypoints (sem : LoopVar) (currentWaypoint : Waypoint.t)
    (waypoints : list Waypoint.t) (fr : Frame.t) : Frame.t :=
  match waypoints with
  | [] => fr
  | v :: rest =>
      let '(cells, addr) := bind_waypoint sem (Frame.cells fr) v in
      let distance := Distance (waypoint_coordinate currentWaypoint)
                               (waypoint_coordinate v) in
      let fr' :=
        if match Frame.nearestWaypoint fr with None => true | Some _ => false end
           || (distance <? Frame.nearestDistance fr)%float
        then Frame.mk cells (Some addr) distance
        else Frame.mk cells (Frame.nearestWaypoint fr) (Frame.nearestDistance fr)
      in range_waypoints sem currentWaypoint rest fr'
  end.

(** The result pair of the source, (pointer, error); the pointer is given by
    the waypoint it refers to when the function returns. *)
Definition NearestWaypoint (sem : LoopVar) (currentWaypoint : Waypoint.t)
    (waypoints : list Waypoint.t) : option Waypoint.t * option string :=
  let fr := range_waypoints sem currentWaypoint waypoints
              (Frame.mk [] None 0%float) in
  match Frame.nearestWaypoint fr with
  | None => (None, Some "no nearest waypoint found")
  | Some addr => (nth_error (Frame.cells fr) addr, None)
  end.

(** ** The remote capability ([api/api.go]) and the world the program runs in *)

Module NavigateShipResponse.
Record t := mk { Fuel : ShipFuel.t; Nav : ShipNav.t }.
End NavigateShipResponse.

Module ExtractResourcesResponse.
Record t := mk { Cooldown : Cooldown.t; Cargo : ShipCargo.t }.
End ExtractResourcesResponse.

Module SellCargoResponse.
Record t := mk { Agent : Agent.t; Cargo : ShipCargo.t }.
End SellCargoResponse.

(** A request, by the client method that issues it and its arguments. *)
Inductive Call :=
| CGetShipCooldown (shipSymbol : string)
| CNavigateShip (shipSymbol waypointSymbol : string)
| CDockShip (shipSymbol : string)
| CExtractResources (shipSymbol : string)
| CSellCargo (shipSymbol cargoSymbol : string) (units : Z)
| CListWaypoints (systemSymbol : string)
| CGetWaypoint (systemSymbol waypointSymbol : string).

(** What the remote side answers: a rejection, or the decoded [data]. *)
Inductive Reply :=
| RError (message : string)
| RCooldown (c : Cooldown.t)
| RNavigate (r : NavigateShipResponse.t)
| RShipNav (nav : ShipNav.t)
| RExtract (r : ExtractResourcesResponse.t)
| RSell (r : SellCargoResponse.t)
| RWaypoints (ws : list Waypoint.t)
| RWaypoint (w : Waypoint.t).

Module Throttle.
Record t := mk { MaxRequestsPerSecond : Z; LastRequestTime : Z }.
End Throttle.

Inductive Level := INFO | ERROR.

Module ShipBot.
(** [agent] and [ship] are pointers in the source.  Both are held by
    value: an action works on the ShipBot it is given and sends it when it
    is done; where the command loop goes on reading a ShipBot that a
    goroutine it started works on, the loop is handed what the goroutine
    left (see [goroutine]).  The [client], [logger] and (never read)
    [contracts] fields are left out. *)
Record t := mk { agent : Agent.t; priorities : list string;
                 ship : Ship.t; cooldown : option Cooldown.t }.

Definition setShip (sb : t) (s : Ship.t) : t :=
  mk (agent sb) (priorities sb) s (cooldown sb).
Definition setAgent (sb : t) (a : Agent.t) : t :=
  mk a (priorities sb) (ship sb) (cooldown sb).
Definition setCooldown (sb : t) (c : option Cooldown.t) : t :=
  mk (agent sb) (priorities sb) (ship sb) c.
End ShipBot.

Module World.
(** [now] is the monotonic clock in nanoseconds.  [lag] tells how much
    longer than asked each coming suspension (a sleep, a lock, a request in
    flight, the way to a clock reading) takes; none left means no delay.
    [replies] are the answers of the remote side to the coming requests,
    none left means that no response is obtained any more.  [requests],
    [journal] and [sbCh] record what the program did: the requests issued
    with the clock at issue, the logger's lines, and the ShipBots sent on
    the dispatcher channel. *)
Record t := mk { now : Z; lag : list N; throttle : Throttle.t;
                 replies : list Reply; requests : list (Z * Call);
                 journal : list (Level * string); sbCh : list ShipBot.t }.
End World.

(** How a run ends: it returns, it panics (which ends the whole process), or
    the bound put on a loop of the model is used up. *)
Inductive Result (A : Type) :=
| Returned (a : A) (w : World.t)
| Panicked (msg : string) (w : World.t)
| Unfinished.

Arguments Returned {A} a w.
Arguments Panicked {A} msg w.
Arguments Unfinished {A}.

Definition M (A : Type) : Type := World.t -> Result A.

Definition ret {A} (a : A) : M A := fun w => Returned a w.

Definition bind {A B} (m : M A) (k : A -> M B) : M B :=
  fun w => match m w with
           | Returned a w' => k a w'
           | Panicked msg w' => Panicked msg w'
           | Unfinished => Unfinished
           end.

Declare Scope go_scope.
Delimit Scope go_scope with go.
Notation "x <- c1 ;; c2" := (bind c1 (fun x => c2))
  (at level 61, c1 at next level, right associativity) : go_scope.
Notation "' pat <- c1 ;; c2" := (bind c1 (fun x => match x with pat => c2 end))
  (at level 61, pat pattern, c1 at next level, right associativity) : go_scope.
Notation "c1 ;; c2" := (bind c1 (fun _ => c2))
  (at level 61, right associativity) : go_scope.
Local Open Scope go_scope.

Definition panic {A} (msg : string) : M A := fun w => Panicked msg w.

Definition nil_dereference : string :=
  "runtime error: invalid memory address or nil pointer dereference".

(** [*p], and [p.f] for a pointer [p]. *)
Definition deref {A} (p : option A) : M A :=
  match p with Some a => ret a | None => panic nil_dereference end.

(** [s[0]]. *)
Definition index0 {A} (s : list A) : M A :=
  match s with a :: _ => ret a | [] => panic "runtime error: index out of range [0] with length 0" end.

Definition when (b : bool) (m : M unit) : M unit := if b then m else ret tt.

Definition isErr (err : option string) : bool :=
  match err with Some _ => true | None => false end.

Definition errText (err : option string) : string :=
  match err with Some message => message | None => "" end.

(** [a && b] with [b] evaluated only when [a] holds. *)
Definition andM (a b : M bool) : M bool := x <- a ;; if x then b else ret false.

Fixpoint forM_ {A} (l : list A) (body : A -> M unit) : M unit :=
  match l with
  | [] => ret tt
  | a :: rest => body a ;; forM_ rest body
  end.

(** The next suspension lasts as long as [lag] says. *)
Definition tick : M unit := fun w =>
  match World.lag w with
  | [] => Returned tt w
  | d :: rest =>
      Returned tt (World.mk (World.now w + Z.of_N d) rest (World.throttle w)
                     (World.replies w) (World.requests w) (World.journal w)
                     (World.sbCh w))
  end.

Definition time_Now : M Z := tick ;; (fun w => Returned (World.now w) w).

(** [time.Sleep(d)] pauses for at least [d]; a negative [d] returns at once. *)
Definition time_Sleep (d : Z) : M unit := fun w =>
  tick (World.mk (World.now w + Z.max 0 d) (World.lag w) (World.throttle w)
          (World.replies w) (World.requests w) (World.journal w) (World.sbCh w)).

(** The logger: the level and the message (the key/value pairs are dropped). *)
Definition logf (l : Level) (msg : string) : M unit := fun w =>
  Returned tt (World.mk (World.now w) (World.lag w) (World.throttle w)
                 (World.replies w) (World.requests w)
                 (World.journal w ++ [(l, msg)]) (World.sbCh w)).

Definition Info := logf INFO.
Definition Error := logf ERROR.

(** [sbCh <- *sb]: the dispatcher receives a copy of the ShipBot. *)
Definition send (sb : ShipBot.t) : M unit := fun w =>
  Returned tt (World.mk (World.now w) (World.lag w) (World.throttle w)
                 (World.replies w) (World.requests w) (World.journal w)
                 (World.sbCh w ++ [sb])).

(** *** Throttle *)

Definition NewThrottle (maxRequestsPerSecond : Z) : M Throttle.t :=
  n <- time_Now ;; ret (Throttle.mk maxRequestsPerSecond n).

(** [time.Duration(float64(time.Second) / float64(R))]: for [R >= 1] the
    binary64 quotient converts to the whole nanoseconds below 10^9 / R.  What
    the conversion gives for the infinite quotient of [R = 0] depends on the
    target and is outside this model. *)
Definition timeToWait (maxRequestsPerSecond : Z) : Z :=
  Z.quot 1000000000 maxRequestsPerSecond.

(** The same expression evaluated in binary64, as the source writes it: the
    conversion to [time.Duration] drops the fraction of a finite value. *)
Definition duration_of_float64 (f : float) : Z :=
  match Prim2SF f with
  | S754_finite s m e =>
      let magnitude := if 0 <=? e then Z.pos m * 2 ^ e else Z.pos m / 2 ^ (- e) in
      if s then - magnitude else magnitude
  | _ => 0
  end.

Definition timeToWait_float64 (maxRequestsPerSecond : Z) : Z :=
  duration_of_float64
    (float64_of_int 1000000000 / float64_of_int maxRequestsPerSecond)%float.

Definition setLastRequestTime (n : Z) : M unit := fun w =>
  Returned tt
    (World.mk (World.now w) (World.lag w)
       (Throttle.mk (Throttle.MaxRequestsPerSecond (World.throttle w)) n)
       (World.replies w) (World.requests w) (World.journal w) (World.sbCh w)).

Definition getThrottle : M Throttle.t := fun w => Returned (World.throttle w) w.

(** [Throttle.Wait].  The body runs under the mutex, so the executions of all
    callers follow one another; the first [tick] is the time spent waiting
    for the lock. *)
Definition Wait : M unit :=
  tick ;;
  t <- getThrottle ;;
  n <- time_Now ;;
  let timeSinceLastRequest := n - Throttle.LastRequestTime t in
  let timeToWait := timeToWait (Throttle.MaxRequestsPerSecond t) in
  when (timeSinceLastRequest <? timeToWait)
       (time_Sleep (timeToWait - timeSinceLastRequest)) ;;
  n' <- time_Now ;;
  setLastRequestTime n'.

(** *** Client *)

(** One request: it is recorded with the clock at issue, the round trip
    takes its time, and the next reply (if any) is taken. *)
Definition issue (c : Call) : M unit := fun w =>
  Returned tt (World.mk (World.now w) (World.lag w) (World.throttle w)
                 (World.replies w) (World.requests w ++ [(World.now w, c)])
                 (World.journal w) (World.sbCh w)).

Definition receive : M (option Reply) := fun w =>
  match World.replies w with
  | [] => Returned None w
  | r :: rest =>
      Returned (Some r)
        (World.mk (World.now w) (World.lag w) (World.throttle w) rest
           (World.requests w) (World.journal w) (World.sbCh w))
  end.

Definition roundtrip (c : Call) : M (option Reply) :=
  issue c ;; tick ;; receive.

(** The (pointer, error) pair of a client method that got no HTTP error
    answer: a transport failure when no response came ([err != nil]), a
    decode failure when the response has another shape, the decoded data
    otherwise.  On a rejection a method returns this pair only if its type
    assertion holds, see [answer]. *)
Definition decode {T} (pick : Reply -> option T) (r : option Reply)
  : option T * option string :=
  match r with
  | None => (None, Some "transport")
  | Some (RError message) => (None, Some message)
  | Some r' => match pick r' with
               | Some v => (Some v, None)
               | None => (None, Some "decode")
               end
  end.

(** What [res.Error()] holds on an HTTP error answer: a [*ErrorResponse]
    when the request registered an error object with [SetError] (resty keeps
    a pointer, whether it was given [ErrorResponse{}] or [&ErrorResponse{}]),
    nil when it registered none. *)
Inductive ErrorObject := NoErrorObject | ErrorResponsePointer.

(** The type a method asserts on [res.Error()]: the pointer type
    [*ErrorResponse] or the value type [ErrorResponse]. *)
Inductive Asserted := AsPointer | AsValue.

(** [res.Error().(T)]: a failed type assertion panics. *)
Definition assert_ErrorResponse (registered : ErrorObject) (asserted : Asserted)
    (message : string) : M string :=
  match registered, asserted with
  | ErrorResponsePointer, AsPointer => ret message
  | NoErrorObject, AsPointer =>
      panic "interface conversion: interface {} is nil, not *api.ErrorResponse"
  | ErrorResponsePointer, AsValue =>
      panic "interface conversion: interface {} is *api.ErrorResponse, not api.ErrorResponse"
  | NoErrorObject, AsValue =>
      panic "interface conversion: interface {} is nil, not api.ErrorResponse"
  end.

(** The end of a client method: [if err != nil], [if res.IsError()], and the
    result. *)
Definition answer {T} (registered : ErrorObject) (asserted : Asserted)
    (pick : Reply -> option T) (r : option Reply)
  : M (option T * option string) :=
  match r with
  | Some (RError message) =>
      message <- assert_ErrorResponse registered asserted message ;;
      ret (None, Some message)
  | _ => ret (decode pick r)
  end.

(** A client method: [c.t.Wait()], then the request is built and sent, with
    the throttle's mutex released and after whatever time that takes. *)
Definition call {T} (c : Call) (registered : ErrorObject) (asserted : Asserted)
    (pick : Reply -> option T) : M (option T * option string) :=
  Wait ;; tick ;; r <- roundtrip c ;; answer registered asserted pick r.

(** No [SetError]. *)
Definition client_GetShipCooldown (shipSymbol : string) :=
  call (CGetShipCooldown shipSymbol) NoErrorObject AsPointer
       (fun r => match r with RCooldown c => Some c | _ => None end).

Definition client_NavigateShip (shipSymbol waypointSymbol : string) :=
  call (CNavigateShip shipSymbol waypointSymbol) ErrorResponsePointer AsPointer
       (fun r => match r with RNavigate v => Some v | _ => None end).

(** No [SetError]. *)
Definition client_DockShip (shipSymbol : string) :=
  call (CDockShip shipSymbol) NoErrorObject AsPointer
       (fun r => match r with RShipNav v => Some v | _ => None end).

Definition client_ExtractResources (shipSymbol : string) :=
  call (CExtractResources shipSymbol) ErrorResponsePointer AsPointer
       (fun r => match r with RExtract v => Some v | _ => None end).

Definition client_SellCargo (shipSymbol cargoSymbol : string) (units : Z) :=
  call (CSellCargo shipSymbol cargoSymbol units) ErrorResponsePointer AsPointer
       (fun r => match r with RSell v => Some v | _ => None end).

(** [res.Error().(ErrorResponse)]: the value type, asserted on a pointer. *)
Definition client_ListWaypoints (systemSymbol : string) :=
  call (CListWaypoints systemSymbol) ErrorResponsePointer AsValue
       (fun r => match r with RWaypoints v => Some v | _ => None end).

Definition client_GetWaypoint (systemSymbol waypointSymbol : string) :=
  call (CGetWaypoint systemSymbol waypointSymbol) ErrorResponsePointer AsPointer
       (fun r => match r with RWaypoint v => Some v | _ => None end).

(** ** [main.go]: the ShipBot *)

(** The goroutines the command loop starts. *)
Inductive Mission :=
| GoSellCargo
| GoDockShip
| GoNavigateToNearestWaypointWithTrait (trait : string)
| GoExtractResources
| GoNavigateToNearestWaypointOfType (waypointType : string).

Definition NewShipBot (ship : Ship.t) (agent : Agent.t) : ShipBot.t :=
  ShipBot.mk agent [] ship None.

Definition DeterminePriorities (contracts : list Contract.t) : list string :=
  fold_left
    (fun priorities contract =>
       fold_left
         (fun priorities good =>
            if negb (Contains priorities (ContractDeliverGood.TradeSymbol good))
            then priorities ++ [ContractDeliverGood.TradeSymbol good]
            else priorities)
         (Contract.Deliver contract) priorities)
    contracts [].

Definition shipNav (sb : ShipBot.t) : ShipNav.t := Ship.Nav (ShipBot.ship sb).
Definition shipCargo (sb : ShipBot.t) : ShipCargo.t := Ship.Cargo (ShipBot.ship sb).
Definition shipSymbol (sb : ShipBot.t) : string := Ship.Symbol (ShipBot.ship sb).
Definition arrival (sb : ShipBot.t) : Z :=
  ShipNavRoute.Arrival (ShipNav.Route (shipNav sb)).

Definition WaitUntilArrival (sb : ShipBot.t) : M unit :=
  n <- time_Now ;;
  if arrival sb <? n then Info "Not in transit. Skipping wait."
  else
    Info "In transit. Waiting until arrival..." ;;
    n' <- time_Now ;;
    time_Sleep (arrival sb - n').

Definition WaitUntilCooldown (sb : ShipBot.t) : M unit :=
  c <- deref (ShipBot.cooldown sb) ;;
  Info "Waiting until cooldown expires..." ;;
  n <- time_Now ;;
  if Cooldown.Expiration c <? n then Info "⚛ Reactor ready. Skipping wait."
  else
    Info "⚛ Reactor cooldown active. Waiting..." ;;
    n' <- time_Now ;;
    time_Sleep (Cooldown.Expiration c - n').

Definition IsFullOfCargo (sb : ShipBot.t) : bool :=
  ShipCargo.Units (shipCargo sb) >=? ShipCargo.Capacity (shipCargo sb).

Definition IsAtWaypointOfType (sb : ShipBot.t) (waypointType : string) : M bool :=
  '(waypoint, err) <- client_GetWaypoint (ShipNav.SystemSymbol (shipNav sb))
                                         (ShipNav.WaypointSymbol (shipNav sb)) ;;
  when (isErr err) (Error "Error getting waypoint.") ;;
  w <- deref waypoint ;;
  ret (String.eqb (Waypoint.Type_ w) waypointType).

Definition IsAtWaypointWithTrait (sb : ShipBot.t) (traitSymbol : string) : M bool :=
  '(waypoint, err) <- client_GetWaypoint (ShipNav.SystemSymbol (shipNav sb))
                                         (ShipNav.WaypointSymbol (shipNav sb)) ;;
  when (isErr err) (Error "Error getting waypoint.") ;;
  w <- deref waypoint ;;
  let matchingTraits :=
    Filter (Waypoint.Traits w)
           (fun t => String.eqb (WaypointTrait.Symbol t) traitSymbol) in
  ret (0 <? Z.of_nat (length matchingTraits)).

Definition hasTrait (trait : string) (waypoint : Waypoint.t) : bool :=
  existsb (fun waypointTrait => String.eqb (WaypointTrait.Symbol waypointTrait) trait)
          (Waypoint.Traits waypoint).

Definition NavigateToNearestWaypointOfType (sem : LoopVar) (sb : ShipBot.t)
    (waypointType : string) : M unit :=
  Info "Navigating to nearest waypoint of type..." ;;
  '(waypoints, err) <- client_ListWaypoints (ShipNav.SystemSymbol (shipNav sb)) ;;
  if isErr err then
    Error "🚀 Error getting system." ;; send sb
  else
    waypoints <- deref waypoints ;;
    let filteredWaypoints :=
      Filter waypoints (fun waypoint => String.eqb (Waypoint.Type_ waypoint) waypointType) in
    currentWaypoint <-
      index0 (Filter waypoints
                (fun waypoint => String.eqb (Waypoint.Symbol waypoint)
                                            (ShipNav.WaypointSymbol (shipNav sb)))) ;;
    let '(nearestWaypoint, err) :=
      NearestWaypoint sem currentWaypoint filteredWaypoints in
    if isErr err then
      Error "🚀 Error getting nearest waypoint." ;; send sb
    else
      Info ("🚀 Navigating to nearest " ++ waypointType ++ "...") ;;
      nearestWaypoint <- deref nearestWaypoint ;;
      '(res, err) <- client_NavigateShip (shipSymbol sb)
                                         (Waypoint.Symbol nearestWaypoint) ;;
      if isErr err then
        Error "🚀 Error navigating to waypoint." ;; send sb
      else
        res <- deref res ;;
        Info "🚀 Navigation successful! Waiting until arrival..." ;;
        let sb := ShipBot.setShip sb
                    (Ship.setNav (Ship.setFuel (ShipBot.ship sb)
                                               (NavigateShipResponse.Fuel res))
                                 (NavigateShipResponse.Nav res)) in
        WaitUntilArrival sb ;;
        send sb.

Definition NavigateToNearestWaypointWithTrait (sem : LoopVar) (sb : ShipBot.t)
    (trait : string) : M unit :=
  Info "Navigating to nearest waypoint with trait..." ;;
  '(waypoints, err) <- client_ListWaypoints (ShipNav.SystemSymbol (shipNav sb)) ;;
  when (isErr err) (Error "🚀 Error getting waypoints.") ;;
  waypoints <- deref waypoints ;;
  let filteredWaypoints := Filter waypoints (hasTrait trait) in
  currentWaypoint <-
    index0 (Filter waypoints
              (fun waypoint => String.eqb (Waypoint.Symbol waypoint)
                                          (ShipNav.WaypointSymbol (shipNav sb)))) ;;
  let '(nearestWaypoint, err) :=
    NearestWaypoint sem currentWaypoint filteredWaypoints in
  if isErr err then
    Error "🚀 Error getting nearest waypoint." ;; send sb
  else
    Info ("🚀 Navigating to nearest waypoint with " ++ trait ++ "...") ;;
    nearestWaypoint <- deref nearestWaypoint ;;
    '(res, err) <- client_NavigateShip (shipSymbol sb)
                                       (Waypoint.Symbol nearestWaypoint) ;;
    if isErr err then
      Error "🚀 Error navigating to waypoint." ;; send sb
    else
      res <- deref res ;;
      Info "🚀 Navigation successful! Waiting until arrival..." ;;
      let sb := ShipBot.setShip sb
                  (Ship.setNav (Ship.setFuel (ShipBot.ship sb)
                                             (NavigateShipResponse.Fuel res))
                               (NavigateShipResponse.Nav res)) in
      WaitUntilArrival sb ;;
      send sb.

Definition DockShip (sb : ShipBot.t) : M unit :=
  Info "Docking ship..." ;;
  '(nav, err) <- client_DockShip (shipSymbol sb) ;;
  when (isErr err) (Error "🚀 Error docking ship.") ;;
  nav <- deref nav ;;
  send (ShipBot.setShip sb (Ship.setNav (ShipBot.ship sb) nav)).

(** What a successful sell call does to the ShipBot, in either branch. *)
Definition sold (sb : ShipBot.t) (res : SellCargoResponse.t) : ShipBot.t :=
  ShipBot.setAgent
    (ShipBot.setShip sb (Ship.setCargo (ShipBot.ship sb) (SellCargoResponse.Cargo res)))
    (Agent.mk (Agent.Symbol (ShipBot.agent sb))
              (Agent.Credits (SellCargoResponse.Agent res))).

(** The inner [for _, good := range sb.ship.Cargo.Inventory]: the slice is
    read once, when the loop is entered; [break] leaves this loop only. *)
Fixpoint sell_inventory (sb : ShipBot.t) (inventory : list ShipCargoItem.t)
  : M ShipBot.t :=
  match inventory with
  | [] => ret sb
  | good :: rest =>
      if Contains (ShipBot.priorities sb) (ShipCargoItem.Symbol good) then
        Info "💲 Selling priority cargo..." ;;
        '(res, err) <- client_SellCargo (shipSymbol sb) (ShipCargoItem.Symbol good)
                                        (ShipCargoItem.Units good) ;;
        if isErr err then
          Error "💲 Error selling cargo." ;; ret sb
        else
          res <- deref res ;;
          Info "💲 Cargo sold." ;;
          Info "📦 Cargo status updated." ;;
          Info "💰 Agent credits updated." ;;
          sell_inventory (sold sb res) rest
      else
        Info "💲 Selling non-priority cargo..." ;;
        '(res, err) <- client_SellCargo (shipSymbol sb) (ShipCargoItem.Symbol good)
                                        (ShipCargoItem.Units good) ;;
        if isErr err then
          Error "💲 Error selling cargo. Returning to agent..." ;; ret sb
        else
          res <- deref res ;;
          Info "💲 Cargo sold." ;;
          Info "📦 Cargo status updated." ;;
          Info "💰 Agent credits updated." ;;
          sell_inventory (sold sb res) rest
  end.

(** The outer [for] of [SellCargo], at most [fuel] rounds of it. *)
Fixpoint sell_loop (fuel : nat) (sb : ShipBot.t) : M ShipBot.t :=
  match fuel with
  | O => fun _ => Unfinished
  | S fuel =>
      if ShipCargo.Units (shipCargo sb) >? 0 then
        sb <- sell_inventory sb (ShipCargo.Inventory (shipCargo sb)) ;;
        sell_loop fuel sb
      else
        Info "📦 Cargo empty. Reporting to agent..." ;; ret sb
  end.

Definition SellCargo (fuel : nat) (sb : ShipBot.t) : M unit :=
  sb <- sell_loop fuel sb ;; send sb.

(** What a successful extract call does to the ShipBot. *)
Definition extracted (sb : ShipBot.t) (res : ExtractResourcesResponse.t) : ShipBot.t :=
  ShipBot.setCooldown
    (ShipBot.setShip sb
       (Ship.setCargo (ShipBot.ship sb) (ExtractResourcesResponse.Cargo res)))
    (Some (ExtractResourcesResponse.Cooldown res)).

(** The [for] of [ExtractResources], at most [fuel] rounds of it. *)
Fixpoint extract_loop (fuel : nat) (sb : ShipBot.t) : M ShipBot.t :=
  match fuel with
  | O => fun _ => Unfinished
  | S fuel =>
      if negb (IsFullOfCargo sb) then
        WaitUntilCooldown sb ;;
        '(res, err) <- client_ExtractResources (shipSymbol sb) ;;
        if isErr err then
          Error (errText err) ;;
          Info "Mission failed. Reporting to agent..." ;;
          ret sb
        else
          res <- deref res ;;
          Info "⛏ Resources extracted." ;;
          Info "📦 Cargo status updated." ;;
          extract_loop fuel (extracted sb res)
      else
        Info "📦 Cargo full. Reporting to agent..." ;; ret sb
  end.

Definition ExtractResources (fuel : nat) (sb : ShipBot.t) : M unit :=
  sb <- extract_loop fuel sb ;; send sb.

Definition GetShipCooldown (sb : ShipBot.t) : M (option Cooldown.t * option string) :=
  '(cooldown, err) <- client_GetShipCooldown (shipSymbol sb) ;;
  if isErr err then ret (None, err) else ret (cooldown, None).

Definition FindWaypointsByTrait (systemSymbol trait : string)
  : M (option (list Waypoint.t) * option string) :=
  '(waypoints, err) <- client_ListWaypoints systemSymbol ;;
  if isErr err then ret (None, err)
  else
    waypoints <- deref waypoints ;;
    ret (Some (Filter waypoints (hasTrait trait)), None).

(** [NavigateShip] of the ShipBot; the response of the navigate call is
    dropped ([_, err := ...]) and the ShipBot is left as it was. *)
Definition NavigateShip (sb : ShipBot.t) (waypointSymbol : string) : M unit :=
  here <- andM (ret (String.eqb (ShipNav.WaypointSymbol (shipNav sb)) waypointSymbol))
               (n <- time_Now ;; ret (arrival sb <? n)) ;;
  if here then Info "🚀 Already at waypoint. Navigation skipped."
  else
    n <- time_Now ;;
    if (n <? arrival sb)
       && String.eqb (ShipNavRoute.Destination (ShipNav.Route (shipNav sb)))
                     waypointSymbol
    then
      Info "🚀 Already traveling to waypoint. Navigation skipped." ;;
      WaitUntilArrival sb
    else
      when (n <? arrival sb) (WaitUntilArrival sb) ;;
      '(_, err) <- client_NavigateShip (shipSymbol sb) waypointSymbol ;;
      when (isErr err) (Error "🚀 Error traveling to shipyard.").

(** The deferred [wg.Done()], which only releases [main], is left out. *)
Definition InitiateRequisitionProtocol (sb : ShipBot.t) : M unit :=
  Info "Initiating requisition protocol..." ;;
  Info "🔎 Finding shipyards in current system..." ;;
  '(waypoints, err) <-
     FindWaypointsByTrait (ShipNav.SystemSymbol (shipNav sb)) "SHIPYARD" ;;
  when (isErr err) (Error "🔎 Error finding shipyards in current system.") ;;
  waypoints <- deref waypoints ;;
  if Z.of_nat (length waypoints) =? 0 then
    panic "no shipyards found. Not yet handled."
  else
    Info "🔎 Shipyards found." ;;
    forM_ waypoints
      (fun waypoint =>
         Info "🚀 Traveling to shipyard..." ;;
         NavigateShip sb (Waypoint.Symbol waypoint)).

(** ** [main.go]: the command loop and the start of the fleet *)

Definition spawn (b : bool) (m : Mission) : list Mission := if b then [m] else [].

(** The body of a goroutine the command loop starts. *)
Definition run (sem : LoopVar) (fuel : nat) (m : Mission) (sb : ShipBot.t) : M unit :=
  match m with
  | GoSellCargo => SellCargo fuel sb
  | GoDockShip => DockShip sb
  | GoNavigateToNearestWaypointWithTrait trait =>
      NavigateToNearestWaypointWithTrait sem sb trait
  | GoExtractResources => ExtractResources fuel sb
  | GoNavigateToNearestWaypointOfType waypointType =>
      NavigateToNearestWaypointOfType sem sb waypointType
  end.

(** A goroutine of the command loop, run up to its report.  Its receiver is
    the loop's own [sb], and [sb.ship] is a pointer: it works on the ShipBot
    the loop goes on reading, so the loop reads from then on what the
    goroutine left, which is the ShipBot the goroutine sends. *)
Definition goroutine (sem : LoopVar) (fuel : nat) (m : Mission) (sb : ShipBot.t)
  : M ShipBot.t :=
  run sem fuel m sb ;; fun w => Returned (last (World.sbCh w) sb) w.

Fixpoint goroutines (sem : LoopVar) (fuel : nat) (pending : list Mission)
    (sb : ShipBot.t) : M ShipBot.t :=
  match pending with
  | [] => ret sb
  | m :: rest => sb <- goroutine sem fuel m sb ;; goroutines sem fuel rest sb
  end.

(** How the runtime lets the goroutines of a cycle run: [schedule i] tells
    whether those started before the [i]-th condition of the EXCAVATOR case
    and not run so far get to run, each up to its report and in the order
    they were started, before that condition is evaluated.  What is left
    runs after the cycle.  Runs that stop in between are not modelled. *)
Definition Schedule := nat -> bool.

Definition catch_up (sem : LoopVar) (fuel : nat) (turn : bool)
    (pending : list Mission) (sb : ShipBot.t) : M (list Mission * ShipBot.t) :=
  if turn then sb <- goroutines sem fuel pending sb ;; ret ([], sb)
  else ret (pending, sb).

(** One [case sb := <-sbCh] of the command loop: the goroutines it starts,
    in order.  Each condition reads the ShipBot as it is when the condition
    is evaluated. *)
Definition command (sem : LoopVar) (fuel : nat) (schedule : Schedule)
    (sb : ShipBot.t) : M (list Mission) :=
  Info "Reporting in." ;;
  let role := Ship.Role (ShipBot.ship sb) in
  if String.eqb role "COMMAND" then ret []
  else if String.eqb role "EXCAVATOR" then
    c1 <- andM (andM (ret (IsFullOfCargo sb)) (IsAtWaypointWithTrait sb "MARKETPLACE"))
               (ret (String.eqb (ShipNav.Status (shipNav sb)) "DOCKED")) ;;
    when c1 (Info (role ++ " " ++ shipSymbol sb)) ;;
    let go1 := spawn c1 GoSellCargo in
    '(pending, sb) <- catch_up sem fuel (schedule 2%nat) go1 sb ;;
    c2 <- andM (andM (ret (IsFullOfCargo sb)) (IsAtWaypointWithTrait sb "MARKETPLACE"))
               (ret (negb (String.eqb (ShipNav.Status (shipNav sb)) "DOCKED"))) ;;
    when c2 (Info (role ++ " " ++ shipSymbol sb)) ;;
    let go2 := spawn c2 GoDockShip in
    '(pending, sb) <- catch_up sem fuel (schedule 3%nat) (pending ++ go2) sb ;;
    c3 <- andM (ret (IsFullOfCargo sb))
               (b <- IsAtWaypointWithTrait sb "MARKETPLACE" ;; ret (negb b)) ;;
    when c3 (Info (role ++ " " ++ shipSymbol sb)) ;;
    let go3 := spawn c3 (GoNavigateToNearestWaypointWithTrait "MARKETPLACE") in
    '(pending, sb) <- catch_up sem fuel (schedule 4%nat) (pending ++ go3) sb ;;
    c4 <- andM (ret (negb (IsFullOfCargo sb)))
               (IsAtWaypointOfType sb "ASTEROID_FIELD") ;;
    when c4 (Info (role ++ " " ++ shipSymbol sb)) ;;
    let go4 := spawn c4 GoExtractResources in
    '(pending, sb) <- catch_up sem fuel (schedule 5%nat) (pending ++ go4) sb ;;
    c5 <- andM (ret (negb (IsFullOfCargo sb)))
               (b <- IsAtWaypointOfType sb "ASTEROID_FIELD" ;; ret (negb b)) ;;
    when c5 (Info (role ++ " " ++ shipSymbol sb)) ;;
    let go5 := spawn c5 (GoNavigateToNearestWaypointOfType "ASTEROID_FIELD") in
    ret (go1 ++ go2 ++ go3 ++ go4 ++ go5)
  else ret [].

(** The goroutine [main] starts for each ship of the fleet. *)
Definition wake (ship : Ship.t) (agent : Agent.t) : M unit :=
  let sb := NewShipBot ship agent in
  Info "⚛ Checking reactor..." ;;
  '(cooldown, err) <- GetShipCooldown sb ;;
  when (isErr err) (Error "⚛ Error getting ship cooldown.") ;;
  send (ShipBot.setCooldown sb cooldown).

(** How [main] ends when nothing panics: it returns, or it stays in its
    last [wg.Wait()] for ever. *)
Inductive MainEnd := MainReturns | MainWaitsForEver.

(** [wg.Wait()] with the counter at [counter] and no [wg.Done()] to come:
    the loop over the fleet defers each [wg.Done()] to the return of [main]
    itself. *)
Definition wg_Wait (counter : nat) : M MainEnd :=
  ret (match counter with O => MainReturns | S _ => MainWaitsForEver end).

(** [main] from "Determining priorities..." on, with the contracts, the
    agent and the fleet already fetched.  [main] waits for the requisition
    goroutine, whose panic ends the process, so that nothing after it runs.
    The goroutines of the fleet run concurrently: [turns] lists the ships in
    the order in which the runtime lets their goroutines run, each taken as
    a whole; it is a permutation of [ships].  A panic in one of them ends
    the process as well. *)
Definition launch (contracts : list Contract.t) (agent : Agent.t)
    (ships turns : list Ship.t) : M MainEnd :=
  Info "Determining priorities..." ;;
  let priorities := DeterminePriorities contracts in
  Info "Priorities determined." ;;
  Info "Waking fleet..." ;;
  match ships with
  | ship :: _ =>
      Info "Found only one ship. Sending command ship on requisition mission..." ;;
      InitiateRequisitionProtocol (NewShipBot ship agent)
  | [] => ret tt
  end ;;
  forM_ turns (fun ship => wake ship agent) ;;
  wg_Wait (length ships).

(** * Vocabulary of the statements *)

(** The distance the search computes for a candidate. *)
Definition distanceFrom (currentWaypoint w : Waypoint.t) : float :=
  Distance (waypoint_coordinate currentWaypoint) (waypoint_coordinate w).

(** [nearest_so_far c pre fr]: the elements [pre] being gone through, the
    frame points at one of them, none of them is strictly nearer, and none
    before it is as near. *)
Definition nearest_so_far (currentWaypoint : Waypoint.t)
    (pre : list Waypoint.t) (fr : Frame.t) : Prop :=
  Frame.cells fr = pre /\
  match Frame.nearestWaypoint fr with
  | None => pre = []
  | Some k =>
      exists r, nth_error pre k = Some r
                /\ Frame.nearestDistance fr = distanceFrom currentWaypoint r
                /\ (forall e, In e pre ->
                      (distanceFrom currentWaypoint e
                       <? distanceFrom currentWaypoint r)%float = false)
                /\ (forall j e, (j < k)%nat -> nth_error pre j = Some e ->
                      (distanceFrom currentWaypoint e
                       <=? distanceFrom currentWaypoint r)%float = false)
  end.

(** [returns m w Q]: run from [w], [m] returns, with a value and in a world
    that satisfy [Q]. *)
Definition returns {A} (m : M A) (w : World.t) (Q : A -> World.t -> Prop) : Prop :=
  exists a w', m w = Returned a w' /\ Q a w'.

(** Between [w] and [w'] nothing but time has passed. *)
Definition elapsed (w w' : World.t) : Prop :=
  World.now w <= World.now w'
  /\ World.throttle w' = World.throttle w
  /\ World.replies w' = World.replies w
  /\ World.requests w' = World.requests w
  /\ World.journal w' = World.journal w
  /\ World.sbCh w' = World.sbCh w.

(** The calls of [Throttle.Wait] by any callers, in the order the mutex lets
    them in: who was admitted, and the [LastRequestTime] stamped for them. *)
Fixpoint admissions (callers : list string) : M (list (string * Z)) :=
  match callers with
  | [] => ret []
  | caller :: rest =>
      Wait ;;
      t <- getThrottle ;;
      l <- admissions rest ;;
      ret ((caller, Throttle.LastRequestTime t) :: l)
  end.

(** Each stamp lies at least [gap] after the one before, [last] being the
    stamp before the first. *)
Fixpoint paced (gap last : Z) (stamps : list Z) : Prop :=
  match stamps with
  | [] => True
  | t :: rest => last + gap <= t /\ paced gap t rest
  end.

(** The ordered predicate table of the EXCAVATOR role, on the four facts
    cargo full, at a marketplace, docked, at an asteroid field. *)
Definition Facts : Type := (bool * bool * bool * bool)%type.

Definition behaviour_table : list ((Facts -> bool) * Mission) :=
  [ (fun '(cargoFull, atMarketplace, docked, _) =>
       cargoFull && atMarketplace && docked, GoSellCargo);
    (fun '(cargoFull, atMarketplace, docked, _) =>
       cargoFull && atMarketplace && negb docked, GoDockShip);
    (fun '(cargoFull, atMarketplace, _, _) =>
       cargoFull && negb atMarketplace,
     GoNavigateToNearestWaypointWithTrait "MARKETPLACE");
    (fun '(cargoFull, _, _, atAsteroidField) =>
       negb cargoFull && atAsteroidField, GoExtractResources);
    (fun '(cargoFull, _, _, atAsteroidField) =>
       negb cargoFull && negb atAsteroidField,
     GoNavigateToNearestWaypointOfType "ASTEROID_FIELD") ].

(** The rows whose predicate holds, in the order of the table. *)
Definition matching_rows (facts : Facts) : list Mission :=
  map snd (filter (fun row => fst row facts) behaviour_table).

(** First match wins. *)
Definition decision (facts : Facts) : option Mission := hd_error (matching_rows facts).

(** The four facts of a ShipBot at the waypoint [waypoint]. *)
Definition facts_of (sb : ShipBot.t) (waypoint : Waypoint.t) : Facts :=
  (IsFullOfCargo sb, hasTrait "MARKETPLACE" waypoint,
   String.eqb (ShipNav.Status (shipNav sb)) "DOCKED",
   String.eqb (Waypoint.Type_ waypoint) "ASTEROID_FIELD").

(** The ships and waypoints of the scenarios. *)
Definition excavator (units capacity : Z) (status : string) : ShipBot.t :=
  NewShipBot
    (Ship.mk "GOGARIN-2" "EXCAVATOR"
       (ShipNav.mk "X1-DF55" "X1-DF55-17335A" (ShipNavRoute.mk "X1-DF55-17335A" 0) status)
       (ShipCargo.mk capacity units []) (ShipFuel.mk 100 100))
    (Agent.mk "GOGARIN" 0).

Definition waypoint_of (type_ : string) (traits : list string) : Waypoint.t :=
  Waypoint.mk "X1-DF55-17335A" type_ 0 0 (map WaypointTrait.mk traits).

(** A world in which every waypoint lookup is answered with [waypoint]. *)
Definition world_at (waypoint : Waypoint.t) : World.t :=
  World.mk 0 [] (Throttle.mk 2 0)
    [RWaypoint waypoint; RWaypoint waypoint; RWaypoint waypoint] [] [] [].

(** The missions a run of [command] started, if it returned. *)
Definition started (r : Result (list Mission)) : option (list Mission) :=
  match r with Returned l _ => Some l | _ => None end.

(** Three waypoints on a line: the reference point, one next to it, one far. *)
Definition origin : Waypoint.t := Waypoint.mk "X1-DF55-20250Z" "PLANET" 0 0 [].
Definition near : Waypoint.t := Waypoint.mk "X1-DF55-69207D" "MOON" 1 0 [].
Definition far : Waypoint.t := Waypoint.mk "X1-DF55-17335A" "ASTEROID_FIELD" 50 0 [].

(** What the next [n] requests are answered with: the coming replies, and no
    response once they have run out. *)
Fixpoint served_from (replies : list Reply) (n : nat) : list (option Reply) :=
  match n with
  | O => []
  | S n => hd_error replies :: served_from (tl replies) n
  end.

(** A run of the extract loop from a ShipBot: what its requests were answered
    with, the clock at each request, and the ShipBot at the end.  The loop
    ends at a full cargo hold without a request; otherwise it waits, so that
    the request is issued at or after the cooldown's expiration, and ends if
    the call failed or goes on from the response. *)
Inductive extract_run : ShipBot.t -> list (option Reply) -> list Z -> ShipBot.t -> Prop :=
| extract_full sb :
    IsFullOfCargo sb = true ->
    extract_run sb [] [] sb
| extract_failed sb c r t :
    IsFullOfCargo sb = false ->
    ShipBot.cooldown sb = Some c -> Cooldown.Expiration c <= t ->
    (forall res, r <> Some (RExtract res)) ->
    extract_run sb [r] [t] sb
| extract_more sb c res t served times sb' :
    IsFullOfCargo sb = false ->
    ShipBot.cooldown sb = Some c -> Cooldown.Expiration c <= t ->
    extract_run (extracted sb res) served times sb' ->
    extract_run sb (Some (RExtract res) :: served) (t :: times) sb'.

Definition within_capacity (c : ShipCargo.t) : Prop :=
  ShipCargo.Units c <= ShipCargo.Capacity c.

(** A mining drone with an empty hold of 40 units, its cooldown run out. *)
Definition drone : ShipBot.t :=
  ShipBot.setCooldown (excavator 0 40 "IN_ORBIT") (Some (Cooldown.mk 0)).

Definition ore (units : Z) : list ShipCargoItem.t :=
  [ShipCargoItem.mk "IRON_ORE" units].

(** A world that starts at clock 0 with the client's throttle of two
    requests per second and the given replies to come. *)
Definition world_with (replies : list Reply) : World.t :=
  World.mk 0 [] (Throttle.mk 2 0) replies [] [] [].

(** A successful extraction that leaves [units] of [capacity] in the hold
    and a cooldown that runs out at [expiration]. *)
Definition yield (units capacity expiration : Z) : Reply :=
  RExtract (ExtractResourcesResponse.mk (Cooldown.mk expiration)
              (ShipCargo.mk capacity units (ore units))).

(** [panics m w Q]: run from [w], [m] panics, with a message and in a world
    that satisfy [Q]. *)
Definition panics {A} (m : M A) (w : World.t) (Q : string -> World.t -> Prop) : Prop :=
  exists msg w', m w = Panicked msg w' /\ Q msg w'.

(** The requests of a run so far, without the clock readings. *)
Definition issued (w : World.t) : list Call := map snd (World.requests w).

(** A docked ship with 10 units of iron ore in a hold of 40. *)
Definition seller : ShipBot.t :=
  NewShipBot
    (Ship.mk "GOGARIN-2" "EXCAVATOR"
       (ShipNav.mk "X1-DF55" "X1-DF55-17335A" (ShipNavRoute.mk "X1-DF55-17335A" 0) "DOCKED")
       (ShipCargo.mk 40 10 (ore 10)) (ShipFuel.mk 100 100))
    (Agent.mk "GOGARIN" 0).

(** A docked ship with a full hold, 40 units of iron ore. *)
Definition hauler : ShipBot.t :=
  NewShipBot
    (Ship.mk "GOGARIN-2" "EXCAVATOR"
       (ShipNav.mk "X1-DF55" "X1-DF55-17335A" (ShipNavRoute.mk "X1-DF55-17335A" 0) "DOCKED")
       (ShipCargo.mk 40 40 (ore 40)) (ShipFuel.mk 100 100))
    (Agent.mk "GOGARIN" 0).

(** A successful sale that leaves an empty hold of 40 and [credits]. *)
Definition sale (credits : Z) : Reply :=
  RSell (SellCargoResponse.mk (Agent.mk "GOGARIN" credits) (ShipCargo.mk 40 0 [])).

(** The command ship of the requisition scenarios: at [at_], its last route
    to [destination] with the given arrival time. *)
Definition scout (at_ destination : string) (arrival_ : Z) : ShipBot.t :=
  NewShipBot
    (Ship.mk "GOGARIN-1" "COMMAND"
       (ShipNav.mk "X1-DF55" at_ (ShipNavRoute.mk destination arrival_) "IN_ORBIT")
       (ShipCargo.mk 60 0 []) (ShipFuel.mk 1200 1200))
    (Agent.mk "GOGARIN" 0).

Definition shipyard (symbol : string) (x y : Z) : Waypoint.t :=
  Waypoint.mk symbol "ORBITAL_STATION" x y [WaypointTrait.mk "SHIPYARD"].

(** The answer to a navigate call: under way to [destination], to arrive at
    [arrival_]. *)
Definition under_way (destination : string) (arrival_ : Z) : Reply :=
  RNavigate (NavigateShipResponse.mk (ShipFuel.mk 1100 1200)
               (ShipNav.mk "X1-DF55" destination
                  (ShipNavRoute.mk destination arrival_) "IN_TRANSIT")).

(** A world whose clock reads [now_], with the given replies to come. *)
Definition world_from (now_ : Z) (replies : list Reply) : World.t :=
  World.mk now_ [] (Throttle.mk 2 0) replies [] [] [].

(** The state of a ShipBot: everything but its priority list. *)
Definition state_of (sb : ShipBot.t) : Agent.t * Ship.t * option Cooldown.t :=
  (ShipBot.agent sb, ShipBot.ship sb, ShipBot.cooldown sb).

(** The state of the world: everything but the logger's lines, the ShipBots
    on the channel taken by their state. *)
Definition trace_of (w : World.t) :=
  (World.now w, World.lag w, World.throttle w, World.replies w,
   World.requests w, map state_of (World.sbCh w)).

(** Two runs end alike: in the same way, with values related by [RA] and
    in worlds of the same state. *)
Definition alike {A} (RA : A -> A -> Prop) (r1 r2 : Result A) : Prop :=
  match r1, r2 with
  | Returned a1 w1, Returned a2 w2 => RA a1 a2 /\ trace_of w1 = trace_of w2
  | Panicked m1 w1, Panicked m2 w2 => m1 = m2 /\ trace_of w1 = trace_of w2
  | Unfinished, Unfinished => True
  | _, _ => False
  end.

(** Two programs run alike from worlds of the same state. *)
Definition similar {A} (RA : A -> A -> Prop) (m1 m2 : M A) : Prop :=
  forall w1 w2, trace_of w1 = trace_of w2 -> alike RA (m1 w1) (m2 w2).

Definition same_state (sb1 sb2 : ShipBot.t) : Prop := state_of sb1 = state_of sb2.

Definition setPriorities (sb : ShipBot.t) (priorities : list string) : ShipBot.t :=
  ShipBot.mk (ShipBot.agent sb) priorities (ShipBot.ship sb) (ShipBot.cooldown sb).

(** No ShipBot on the dispatcher channel has a priority. *)
Definition unprioritised (w : World.t) : Prop :=
  Forall (fun sb => ShipBot.priorities sb = []) (World.sbCh w).

(** [keeps m Q]: a run of [m] from a world without priorities ends in such
    a world, however it ends, and a value it returns satisfies [Q]. *)
Definition keeps {A} (m : M A) (Q : A -> Prop) : Prop :=
  forall w, unprioritised w ->
            match m w with
            | Returned a w' => unprioritised w' /\ Q a
            | Panicked _ w' => unprioritised w'
            | Unfinished => True
            end.

Definition anything {A} (a : A) : Prop := True.

(** The sell loop without its priority branch. *)
Fixpoint sell_inventory_plain (sb : ShipBot.t) (inventory : list ShipCargoItem.t)
  : M ShipBot.t :=
  match inventory with
  | [] => ret sb
  | good :: rest =>
      Info "💲 Selling non-priority cargo..." ;;
      '(res, err) <- client_SellCargo (shipSymbol sb) (ShipCargoItem.Symbol good)
                                      (ShipCargoItem.Units good) ;;
      if isErr err then
        Error "💲 Error selling cargo. Returning to agent..." ;; ret sb
      else
        res <- deref res ;;
        Info "💲 Cargo sold." ;;
        Info "📦 Cargo status updated." ;;
        Info "💰 Agent credits updated." ;;
        sell_inventory_plain (sold sb res) rest
  end.

Fixpoint sell_loop_plain (fuel : nat) (sb : ShipBot.t) : M ShipBot.t :=
  match fuel with
  | O => fun _ => Unfinished
  | S fuel =>
      if ShipCargo.Units (shipCargo sb) >? 0 then
        sb <- sell_inventory_plain sb (ShipCargo.Inventory (shipCargo sb)) ;;
        sell_loop_plain fuel sb
      else
        Info "📦 Cargo empty. Reporting to agent..." ;; ret sb
  end.

Definition SellCargo_plain (fuel : nat) (sb : ShipBot.t) : M unit :=
  sb <- sell_loop_plain fuel sb ;; send sb.

(** However the run ended, no ShipBot on the channel has a priority. *)
Definition ends_unprioritised {A} (r : Result A) : Prop :=
  match r with
  | Returned _ w' => unprioritised w'
  | Panicked _ w' => unprioritised w'
  | Unfinished => True
  end.

(** [paced_requests w w']: from [w] to [w'] the request log grew by
    requests that each followed an admission of its own by the throttle.
    With [gap] the throttle's interval and [stamp] its [LastRequestTime] in
    [w], the [k]-th of them (from 0) was issued no earlier than
    [stamp + (k + 1) * gap], and the [n] of them moved the stamp on by at
    least [n * gap]. *)
Definition paced_requests (w w' : World.t) : Prop :=
  let gap := timeToWait (Throttle.MaxRequestsPerSecond (World.throttle w)) in
  let stamp := Throttle.LastRequestTime (World.throttle w) in
  Throttle.MaxRequestsPerSecond (World.throttle w')
  = Throttle.MaxRequestsPerSecond (World.throttle w)
  /\ exists added,
       World.requests w' = World.requests w ++ added
       /\ (forall k t c, nth_error added k = Some (t, c) ->
                         stamp + Z.of_nat (S k) * gap <= t)
       /\ stamp + Z.of_nat (length added) * gap
          <= Throttle.LastRequestTime (World.throttle w').

(** However the run from [w] ended, its requests were paced. *)
Definition ends_throttled {A} (w : World.t) (r : Result A) : Prop :=
  match r with
  | Returned _ w' => paced_requests w w'
  | Panicked _ w' => paced_requests w w'
  | Unfinished => True
  end.

(** [throttled m]: the requests of every run of [m] are paced. *)
Definition throttled {A} (m : M A) : Prop :=
  forall w, ends_throttled w (m w).

(** All the delay still to come in a world. *)
Definition delay (w : World.t) : Z :=
  fold_right (fun d total => Z.of_N d + total) 0 (World.lag w).

(** * Properties *)

(** ** The order of binary64 values *)

Ltac sf_cases :=
  repeat match goal with s : bool |- _ => destruct s end;
  try discriminate; try reflexivity;
  rewrite ?Pos.compare_cont_spec; cbn [Pos.switch_Eq];
  repeat match goal with
         | |- context [(?a ?= ?b)%Z] => destruct (Z.compare_spec a b)
         | |- context [(?a ?= ?b)%positive] => destruct (Pos.compare_spec a b)
         end;
  cbn [CompOpp]; try discriminate; try reflexivity; intros; exfalso; lia.

Lemma SFltb_irrefl e : SFltb e e = false.
Proof.
  unfold SFltb. destruct e as [se|se| |se me ee]; cbn [SFcompare];
    try reflexivity; sf_cases.
Qed.

Lemma SFltb_false_trans e b d :
  SFltb e b = false -> SFltb d b = true -> SFltb e d = false.
Proof.
  unfold SFltb.
  destruct e as [se|se| |se me ee], b as [sb|sb| |sb mb eb], d as [sd|sd| |sd md ed];
    cbn [SFcompare]; try discriminate; try reflexivity; sf_cases.
Qed.

Lemma SFleb_false_trans e b d :
  SFltb e b = false -> SFltb d b = true -> SFleb e d = false.
Proof.
  unfold SFltb, SFleb.
  destruct e as [se|se| |se me ee], b as [sb|sb| |sb mb eb], d as [sd|sd| |sd md ed];
    cbn [SFcompare]; try discriminate; try reflexivity; sf_cases.
Qed.

Lemma SFleb_false_ltb e b : SFleb e b = false -> SFltb e b = false.
Proof.
  unfold SFltb, SFleb.
  destruct e as [se|se| |se me ee], b as [sb|sb| |sb mb eb];
    cbn [SFcompare]; try discriminate; try reflexivity; sf_cases.
Qed.

Lemma ltb_irrefl (x : float) : (x <? x)%float = false.
Proof. rewrite ltb_spec. apply SFltb_irrefl. Qed.

Lemma ltb_false_trans (e b d : float) :
  (e <? b)%float = false -> (d <? b)%float = true -> (e <? d)%float = false.
Proof. rewrite !ltb_spec. apply SFltb_false_trans. Qed.

Lemma leb_false_trans (e b d : float) :
  (e <? b)%float = false -> (d <? b)%float = true -> (e <=? d)%float = false.
Proof. rewrite !ltb_spec, leb_spec. apply SFleb_false_trans. Qed.

Lemma leb_false_ltb (e b : float) :
  (e <=? b)%float = false -> (e <? b)%float = false.
Proof. rewrite ltb_spec, leb_spec. apply SFleb_false_ltb. Qed.


(** ** Nearest-waypoint search *)

Section NearestWaypointFacts.

Variable currentWaypoint : Waypoint.t.

Local Abbreviation dist := (distanceFrom currentWaypoint).

(** With the per-loop variable every [&waypoint] is the same address, and
    the variable holds the last element when the loop is over. *)
Lemma range_waypoints_PerLoop (waypoints : list Waypoint.t) (fr : Frame.t) :
  waypoints <> [] ->
  Frame.nearestWaypoint fr = None \/ Frame.nearestWaypoint fr = Some 0%nat ->
  let fr' := range_waypoints PerLoop currentWaypoint waypoints fr in
  Frame.cells fr' = [last waypoints currentWaypoint]
  /\ Frame.nearestWaypoint fr' = Some 0%nat.
Proof.
  revert fr.
  induction waypoints as [|v rest IH]; intros fr Hne Hptr; [congruence|].
  cbn [range_waypoints bind_waypoint].
  match goal with
  | |- context [range_waypoints _ _ _ ?f] => set (fr1 := f)
  end.
  assert (Hcells : Frame.cells fr1 = [v]) by (subst fr1; destruct (_ || _); reflexivity).
  assert (Hnear : Frame.nearestWaypoint fr1 = Some 0%nat).
  { subst fr1. destruct Hptr as [-> | ->]; cbn; [reflexivity|].
    destruct (_ <? _)%float; reflexivity. }
  destruct rest as [|v' rest'].
  - cbn. auto.
  - specialize (IH fr1 ltac:(discriminate) (or_intror Hnear)).
    exact IH.
Qed.

Lemma NearestWaypoint_PerLoop (waypoints : list Waypoint.t) :
  waypoints <> [] ->
  NearestWaypoint PerLoop currentWaypoint waypoints
  = (Some (last waypoints currentWaypoint), None).
Proof.
  intros Hne. unfold NearestWaypoint.
  destruct (range_waypoints_PerLoop waypoints (Frame.mk [] None 0%float) Hne
              (or_introl eq_refl)) as [Hcells Hnear].
  cbv zeta in Hcells, Hnear. rewrite Hnear, Hcells. reflexivity.
Qed.

Lemma NearestWaypoint_empty (sem : LoopVar) :
  NearestWaypoint sem currentWaypoint []
  = (None, Some "no nearest waypoint found").
Proof. reflexivity. Qed.

Lemma range_waypoints_PerIteration (waypoints pre : list Waypoint.t) (fr : Frame.t) :
  nearest_so_far currentWaypoint pre fr ->
  nearest_so_far currentWaypoint (pre ++ waypoints)
                 (range_waypoints PerIteration currentWaypoint waypoints fr).
Proof.
  revert pre fr.
  induction waypoints as [|v rest IH]; intros pre fr Hinv.
  - rewrite app_nil_r. exact Hinv.
  - cbn [range_waypoints bind_waypoint].
    replace (pre ++ v :: rest) with ((pre ++ [v]) ++ rest)
      by (rewrite <- app_assoc; reflexivity).
    apply IH. clear IH.
    destruct Hinv as [Hcells Hnear].
    change (Distance (waypoint_coordinate currentWaypoint) (waypoint_coordinate v))
      with (dist v).
    destruct (Frame.nearestWaypoint fr) as [k|] eqn:Hk; cbn [orb].
    + destruct Hnear as (r & Hr & Hd & Hmin & Htie).
      rewrite Hcells, Hd.
      destruct (dist v <? dist r)%float eqn:Hlt.
      * split; [reflexivity|]; cbn [Frame.nearestWaypoint Frame.nearestDistance Frame.cells]. exists v. repeat split.
        -- rewrite nth_error_app2, Nat.sub_diag by lia. reflexivity.
        -- intros e He. apply in_app_or in He as [He | [<- | []]].
           ++ apply (ltb_false_trans _ (dist r)); [apply Hmin; exact He | exact Hlt].
           ++ apply ltb_irrefl.
        -- intros j e Hj He. rewrite nth_error_app1 in He by exact Hj.
           apply nth_error_In in He.
           apply (leb_false_trans _ (dist r)); [apply Hmin; exact He | exact Hlt].
      * split; [reflexivity|]; cbn [Frame.nearestWaypoint Frame.nearestDistance Frame.cells]. exists r.
        assert (Hklt : (k < length pre)%nat)
          by (apply nth_error_Some; congruence).
        repeat split.
        -- rewrite nth_error_app1 by exact Hklt. exact Hr.
        -- intros e He. apply in_app_or in He as [He | [<- | []]]; auto.
        -- intros j e Hj He. rewrite nth_error_app1 in He by lia. eauto.
    + rewrite Hcells, Hnear. split; [reflexivity|]; cbn [Frame.nearestWaypoint Frame.nearestDistance Frame.cells]. exists v.
      split; [reflexivity|split; [reflexivity|split]].
      * intros e [<- | []]. apply ltb_irrefl.
      * intros j e Hj. cbn in Hj. lia.
Qed.

(** With a variable per iteration (Go 1.22 on) the search gives a nearest
    candidate, the earliest of the nearest ones. *)
Lemma NearestWaypoint_PerIteration (waypoints : list Waypoint.t) :
  waypoints <> [] ->
  exists k r,
    NearestWaypoint PerIteration currentWaypoint waypoints = (Some r, None)
    /\ nth_error waypoints k = Some r
    /\ (forall e, In e waypoints -> (dist e <? dist r)%float = false)
    /\ (forall j e, (j < k)%nat -> nth_error waypoints j = Some e ->
                    (dist e <=? dist r)%float = false).
Proof.
  intros Hne.
  destruct (range_waypoints_PerIteration waypoints [] (Frame.mk [] None 0%float))
    as [Hcells Hnear]; [split; reflexivity|].
  unfold NearestWaypoint.
  destruct (Frame.nearestWaypoint _) as [k|].
  - destruct Hnear as (r & Hr & _ & Hmin & Htie).
    exists k, r. rewrite Hcells. cbn [app] in *. rewrite Hr. auto.
  - cbn [app] in Hnear. congruence.
Qed.

End NearestWaypointFacts.


(** C1, on the code as it runs with the per-loop range variable: of a near
    and a far candidate, in this order, NearestWaypoint returns the far one,
    the last of the list, though the near one is strictly nearer. *)
Theorem NearestWaypoint_returns_last_candidate :
  NearestWaypoint PerLoop origin [near; far] = (Some far, None)
  /\ (distanceFrom origin near <? distanceFrom origin far)%float = true
  /\ NearestWaypoint PerLoop origin [] = (None, Some "no nearest waypoint found").
Proof. repeat split; vm_compute; reflexivity. Qed.

(** ** Reasoning about runs *)

Lemma returns_ret {A} (a : A) (w : World.t) (Q : A -> World.t -> Prop) :
  Q a w -> returns (ret a) w Q.
Proof. intros H. exists a, w. split; [reflexivity | exact H]. Qed.

Lemma returns_bind {A B} (m : M A) (k : A -> M B) (w : World.t)
    (Q : B -> World.t -> Prop) :
  returns m w (fun a w' => returns (k a) w' Q) -> returns (bind m k) w Q.
Proof.
  intros (a & w' & Hm & b & w'' & Hk & HQ).
  exists b, w''. unfold bind. rewrite Hm. split; assumption.
Qed.

Lemma returns_weaken {A} (m : M A) (w : World.t) (P Q : A -> World.t -> Prop) :
  returns m w P -> (forall a w', P a w' -> Q a w') -> returns m w Q.
Proof. intros (a & w' & Hm & HP) H. exists a, w'. auto. Qed.

Lemma elapsed_refl (w : World.t) : elapsed w w.
Proof. unfold elapsed. repeat split; lia. Qed.

Lemma elapsed_trans (w1 w2 w3 : World.t) :
  elapsed w1 w2 -> elapsed w2 w3 -> elapsed w1 w3.
Proof. unfold elapsed. intuition (try congruence; lia). Qed.

Lemma tick_returns (w : World.t) (Q : unit -> World.t -> Prop) :
  (forall w', elapsed w w' -> Q tt w') -> returns tick w Q.
Proof.
  intros H. unfold returns, tick. destruct (World.lag w) as [|d rest] eqn:Hlag.
  - exists tt, w. split; [reflexivity|]. apply H, elapsed_refl.
  - eexists tt, _. split; [reflexivity|]. apply H.
    unfold elapsed; cbn. repeat split; lia.
Qed.

Lemma time_Now_returns (w : World.t) (Q : Z -> World.t -> Prop) :
  (forall w', elapsed w w' -> Q (World.now w') w') -> returns time_Now w Q.
Proof.
  intros H. unfold time_Now. apply returns_bind, tick_returns.
  intros w' E. exists (World.now w'), w'. auto.
Qed.

Lemma time_Sleep_returns (d : Z) (w : World.t) (Q : unit -> World.t -> Prop) :
  (forall w', elapsed w w' -> World.now w + d <= World.now w' -> Q tt w') ->
  returns (time_Sleep d) w Q.
Proof.
  intros H. unfold time_Sleep. apply tick_returns. intros w' E.
  unfold elapsed in E; cbn in E. destruct E as (Hn & Ht & Hr & Hq & Hj & Hs).
  apply H; [unfold elapsed; repeat split; try assumption|]; lia.
Qed.

Lemma logf_returns (l : Level) (msg : string) (w : World.t)
    (Q : unit -> World.t -> Prop) :
  (forall w', World.now w' = World.now w -> World.throttle w' = World.throttle w ->
              World.replies w' = World.replies w ->
              World.requests w' = World.requests w ->
              World.journal w' = World.journal w ++ [(l, msg)] ->
              World.sbCh w' = World.sbCh w -> Q tt w') ->
  returns (logf l msg) w Q.
Proof. intros H. eexists tt, _. split; [reflexivity|]. apply H; reflexivity. Qed.

Lemma send_returns (sb : ShipBot.t) (w : World.t) (Q : unit -> World.t -> Prop) :
  (forall w', World.now w' = World.now w -> World.throttle w' = World.throttle w ->
              World.replies w' = World.replies w ->
              World.requests w' = World.requests w ->
              World.journal w' = World.journal w ->
              World.sbCh w' = World.sbCh w ++ [sb] -> Q tt w') ->
  returns (send sb) w Q.
Proof. intros H. eexists tt, _. split; [reflexivity|]. apply H; reflexivity. Qed.

Lemma panics_panic {A} (msg : string) (w : World.t)
    (Q : string -> World.t -> Prop) :
  Q msg w -> panics (@panic A msg) w Q.
Proof. intros H. exists msg, w. split; [reflexivity | exact H]. Qed.

Lemma panics_bind {A B} (m : M A) (k : A -> M B) (w : World.t)
    (Q : string -> World.t -> Prop) :
  returns m w (fun a w' => panics (k a) w' Q) -> panics (bind m k) w Q.
Proof.
  intros (a & w' & Hm & msg & w'' & Hk & HQ).
  exists msg, w''. unfold bind. rewrite Hm. split; assumption.
Qed.

Lemma panics_bind_left {A B} (m : M A) (k : A -> M B) (w : World.t)
    (Q : string -> World.t -> Prop) :
  panics m w Q -> panics (bind m k) w Q.
Proof.
  intros (msg & w' & Hm & HQ).
  exists msg, w'. unfold bind. rewrite Hm. split; [reflexivity | exact HQ].
Qed.

(** ** Throttle *)

Lemma timeToWait_floor (R : Z) : 0 < R -> timeToWait R = 1000000000 / R.
Proof. intros H. unfold timeToWait. apply Z.quot_div_nonneg; lia. Qed.

(** The integer quotient is what the binary64 expression of the source
    gives, here on a range of rates. *)
Lemma timeToWait_as_computed :
  Forall (fun R => timeToWait_float64 R = timeToWait R)
         [1; 2; 3; 4; 6; 7; 9; 10; 11; 13; 60; 64; 100; 333; 1000; 4096;
          65537; 999999; 999999937; 1000000000; 1000000001; 2 ^ 31; 2 ^ 53;
          2 ^ 62; -1; -2; -3; -1000].
Proof. repeat constructor; vm_compute; reflexivity. Qed.

(** One admission: the stamp is the clock at the end, and it lies at least
    [timeToWait] after the stamp found. *)
Lemma Wait_returns (w : World.t) (Q : unit -> World.t -> Prop) :
  (forall w',
      Throttle.MaxRequestsPerSecond (World.throttle w')
      = Throttle.MaxRequestsPerSecond (World.throttle w) ->
      Throttle.LastRequestTime (World.throttle w') = World.now w' ->
      Throttle.LastRequestTime (World.throttle w)
      + timeToWait (Throttle.MaxRequestsPerSecond (World.throttle w))
      <= World.now w' ->
      World.now w <= World.now w' ->
      World.replies w' = World.replies w ->
      World.requests w' = World.requests w ->
      World.journal w' = World.journal w ->
      World.sbCh w' = World.sbCh w -> Q tt w') ->
  returns Wait w Q.
Proof.
  intros H. unfold Wait.
  apply returns_bind, tick_returns. intros w1 E1.
  apply returns_bind. exists (World.throttle w1), w1. split; [reflexivity|].
  apply returns_bind, time_Now_returns. intros w2 E2.
  pose proof (elapsed_trans _ _ _ E1 E2) as E12.
  set (last := Throttle.LastRequestTime (World.throttle w1)).
  set (ttw := timeToWait (Throttle.MaxRequestsPerSecond (World.throttle w1))).
  assert (Hstamp : forall w3, elapsed w2 w3 -> last + ttw <= World.now w3 ->
            returns (n' <- time_Now ;; setLastRequestTime n') w3 Q).
  { intros w3 E3 Hw3.
    apply returns_bind, time_Now_returns. intros w4 E4.
    pose proof (elapsed_trans _ _ _ E12 (elapsed_trans _ _ _ E3 E4)) as E.
    eexists tt, _. split; [reflexivity|].
    destruct E as (Hn & Ht & Hr & Hq & Hj & Hs).
    destruct E4 as (Hn4 & _). destruct E1 as (_ & Ht1 & _).
    subst last ttw. rewrite Ht1 in *.
    apply H; cbn; try congruence; lia. }
  apply returns_bind. unfold when.
  destruct (World.now w2 - last <? ttw) eqn:Hlt.
  - apply time_Sleep_returns. intros w3 E3 Hw3.
    apply Hstamp; [exact E3 | lia].
  - exists tt, w2. split; [reflexivity|].
    apply Hstamp; [apply elapsed_refl|]. apply Z.ltb_ge in Hlt. lia.
Qed.

Lemma admissions_paced (callers : list string) (w : World.t) :
  returns (admissions callers) w
    (fun l w' =>
       map fst l = callers
       /\ paced (timeToWait (Throttle.MaxRequestsPerSecond (World.throttle w)))
                (Throttle.LastRequestTime (World.throttle w)) (map snd l)).
Proof.
  revert w. induction callers as [|caller rest IH]; intros w.
  - apply returns_ret. cbn. auto.
  - cbn [admissions].
    apply returns_bind, Wait_returns. intros w1 HR Hlast Hgap _ _ _ _ _.
    apply returns_bind. exists (World.throttle w1), w1. split; [reflexivity|].
    apply returns_bind. eapply returns_weaken; [apply IH|].
    intros l w2 [Hfst Hpaced]. apply returns_ret. cbn.
    rewrite HR in Hpaced. split; [congruence|]. split; [lia | exact Hpaced].
Qed.

Lemma paced_after (gap last : Z) (stamps : list Z) (j : nat) (b : Z) :
  0 <= gap -> paced gap last stamps -> nth_error stamps j = Some b ->
  last + gap <= b.
Proof.
  intros Hgap. revert last j.
  induction stamps as [|t rest IH]; intros last j Hp Hj.
  - destruct j; discriminate.
  - destruct Hp as [Ht Hp]. destruct j as [|j]; cbn in Hj.
    + injection Hj as <-. exact Ht.
    + specialize (IH t j Hp Hj). lia.
Qed.

Lemma paced_pairwise (gap last : Z) (stamps : list Z) (i j : nat) (a b : Z) :
  0 <= gap -> paced gap last stamps -> (i < j)%nat ->
  nth_error stamps i = Some a -> nth_error stamps j = Some b -> gap <= b - a.
Proof.
  intros Hgap. revert last i j.
  induction stamps as [|t rest IH]; intros last i j Hp Hij Hi Hj.
  - destruct i; discriminate.
  - destruct Hp as [Ht Hp]. destruct j as [|j]; [lia|]. cbn in Hj.
    destruct i as [|i]; cbn in Hi.
    + injection Hi as <-. pose proof (paced_after _ _ _ _ _ Hgap Hp Hj). lia.
    + apply (IH t i j); auto. lia.
Qed.

(** C5, as the code has it: for a Throttle of R >= 1 requests per second,
    whatever the callers and the order in which the mutex lets them in,
    every call of Wait returns, and the stamps of any two admitted calls lie
    at least 10^9 / R whole nanoseconds apart (1/R s rounded down to the
    nanosecond, the value of [timeToWait]). *)
Theorem Wait_paces_admissions (R : Z) (callers : list string) (w : World.t) :
  0 < R ->
  Throttle.MaxRequestsPerSecond (World.throttle w) = R ->
  exists l w',
    admissions callers w = Returned l w'
    /\ map fst l = callers
    /\ forall i j a b, (i < j)%nat ->
         nth_error l i = Some a -> nth_error l j = Some b ->
         1000000000 / R <= snd b - snd a.
Proof.
  intros HR Hmax.
  destruct (admissions_paced callers w) as (l & w' & Hrun & Hfst & Hpaced).
  exists l, w'. split; [exact Hrun|]. split; [exact Hfst|].
  intros i j a b Hij Hi Hj.
  rewrite Hmax, timeToWait_floor in Hpaced by exact HR.
  apply (paced_pairwise _ (Throttle.LastRequestTime (World.throttle w))
           (map snd l) i j); auto.
  - apply Z.div_pos; lia.
  - rewrite nth_error_map, Hi. reflexivity.
  - rewrite nth_error_map, Hj. reflexivity.
Qed.

(** Two callers of the client's throttle, two requests per second. *)
Lemma Wait_paces_admissions_witness :
  exists l w',
    admissions ["sell"; "extract"]
      (World.mk 0 [] (Throttle.mk 2 0) [] [] [] []) = Returned l w'
    /\ map fst l = ["sell"; "extract"]
    /\ forall i j a b, (i < j)%nat ->
         nth_error l i = Some a -> nth_error l j = Some b ->
         1000000000 / 2 <= snd b - snd a.
Proof.
  apply (Wait_paces_admissions 2 ["sell"; "extract"]
           (World.mk 0 [] (Throttle.mk 2 0) [] [] [] [])); [lia | reflexivity].
Defined.

(** C5, as stated, fails for R = 3: two callers are admitted 333333333 ns
    apart, which is less than a third of a second. *)
Lemma Wait_admits_within_a_third_of_a_second :
  exists t1 t2 w',
    admissions ["sell"; "extract"]
      (World.mk 0 [] (Throttle.mk 3 0) [] [] [] [])
    = Returned [("sell", t1); ("extract", t2)] w'
    /\ 3 * (t2 - t1) < 1000000000.
Proof.
  eexists _, _, _. split; [vm_compute; reflexivity|]. vm_compute. reflexivity.
Qed.

(** ** Remote calls *)

(** Up to its answer a client method runs alike whatever the method: the
    throttle admits it, the request is issued no earlier than that, and the
    next reply is taken. *)
Lemma call_roundtrip {T} (c : Call) (registered : ErrorObject)
    (asserted : Asserted) (pick : Reply -> option T) (w : World.t) :
  exists w',
    call c registered asserted pick w
    = answer registered asserted pick (hd_error (World.replies w)) w'
    /\ World.replies w' = tl (World.replies w)
    /\ (exists t, World.requests w' = World.requests w ++ [(t, c)]
                  /\ World.now w <= t <= World.now w'
                  /\ Throttle.LastRequestTime (World.throttle w') <= t)
    /\ Throttle.MaxRequestsPerSecond (World.throttle w')
       = Throttle.MaxRequestsPerSecond (World.throttle w)
    /\ Throttle.LastRequestTime (World.throttle w)
       + timeToWait (Throttle.MaxRequestsPerSecond (World.throttle w))
       <= Throttle.LastRequestTime (World.throttle w')
    /\ World.journal w' = World.journal w
    /\ World.sbCh w' = World.sbCh w.
Proof.
  assert (H : returns (Wait ;; tick ;; roundtrip c) w
                (fun r w' =>
                   r = hd_error (World.replies w)
                   /\ World.replies w' = tl (World.replies w)
                   /\ (exists t, World.requests w' = World.requests w ++ [(t, c)]
                                 /\ World.now w <= t <= World.now w'
                                 /\ Throttle.LastRequestTime (World.throttle w') <= t)
                   /\ Throttle.MaxRequestsPerSecond (World.throttle w')
                      = Throttle.MaxRequestsPerSecond (World.throttle w)
                   /\ Throttle.LastRequestTime (World.throttle w)
                      + timeToWait (Throttle.MaxRequestsPerSecond (World.throttle w))
                      <= Throttle.LastRequestTime (World.throttle w')
                   /\ World.journal w' = World.journal w
                   /\ World.sbCh w' = World.sbCh w)).
  { apply returns_bind, Wait_returns. intros w1 HR1 Hlast1 Hgap1 Hn1 Hr1 Hq1 Hj1 Hs1.
    apply returns_bind, tick_returns. intros w2 E2.
    destruct E2 as (Hn2 & Ht2 & Hr2 & Hq2 & Hj2 & Hs2).
    unfold roundtrip.
    apply returns_bind. eexists tt, _. split; [reflexivity|].
    apply returns_bind, tick_returns. intros w3 E3.
    destruct E3 as (Hn3 & Ht3 & Hr3 & Hq3 & Hj3 & Hs3). cbn in *.
    assert (Hrep : World.replies w3 = World.replies w) by congruence.
    unfold returns, receive. rewrite Hrep.
    destruct (World.replies w) as [|r rest] eqn:Hreplies.
    - exists None, w3. split; [reflexivity|]. cbn [hd_error tl].
      split; [reflexivity|]. split; [exact Hrep|].
      split; [exists (World.now w2); rewrite Hq3, Hq2, Hq1, Ht3, Ht2;
              split; [reflexivity|]; lia|].
      rewrite Ht3, Ht2. repeat split; try congruence; lia.
    - eexists (Some r), _. split; [reflexivity|]. cbn.
      split; [reflexivity|]. split; [reflexivity|].
      split; [exists (World.now w2); rewrite Hq3, Hq2, Hq1, Ht3, Ht2;
              split; [reflexivity|]; lia|].
      rewrite Ht3, Ht2. repeat split; try congruence; lia. }
  destruct H as (r & w' & Hrun & -> & H).
  exists w'. split; [|exact H].
  unfold call. unfold bind in *.
  destruct (Wait w) as [[] w1| |]; try discriminate Hrun.
  destruct (tick w1) as [[] w2| |]; try discriminate Hrun.
  rewrite Hrun. reflexivity.
Qed.

Lemma answer_checked {T} (pick : Reply -> option T) (r : option Reply) :
  answer ErrorResponsePointer AsPointer pick r = ret (decode pick r).
Proof. destruct r as [[]|]; reflexivity. Qed.

Lemma answer_not_rejected {T} (registered : ErrorObject) (asserted : Asserted)
    (pick : Reply -> option T) (r : option Reply) :
  (forall message, r <> Some (RError message)) ->
  answer registered asserted pick r = ret (decode pick r).
Proof.
  intros Hr. destruct r as [[]|]; try reflexivity.
  exfalso. eapply Hr. reflexivity.
Qed.

(** A method that registers an error object and asserts a pointer to it
    returns its (pointer, error) pair whatever the answer. *)
Lemma call_returns {T} (c : Call) (pick : Reply -> option T) (w : World.t)
    (Q : option T * option string -> World.t -> Prop) :
  (forall w',
      World.replies w' = tl (World.replies w) ->
      (exists t, World.requests w' = World.requests w ++ [(t, c)]
                 /\ World.now w <= t <= World.now w') ->
      World.journal w' = World.journal w ->
      World.sbCh w' = World.sbCh w ->
      Q (decode pick (hd_error (World.replies w))) w') ->
  returns (call c ErrorResponsePointer AsPointer pick) w Q.
Proof.
  intros H.
  destruct (call_roundtrip c ErrorResponsePointer AsPointer pick w)
    as (w' & Hrun & Hr & (t & Hq & Ht & _) & _ & _ & Hj & Hs).
  rewrite answer_checked in Hrun.
  eexists _, w'. split; [exact Hrun|]. apply H; eauto.
Qed.

(** Any method returns its pair when the answer is not a rejection. *)
Lemma call_answered {T} (c : Call) (registered : ErrorObject)
    (asserted : Asserted) (pick : Reply -> option T) (w : World.t)
    (Q : option T * option string -> World.t -> Prop) :
  (forall message, hd_error (World.replies w) <> Some (RError message)) ->
  (forall w',
      World.replies w' = tl (World.replies w) ->
      (exists t, World.requests w' = World.requests w ++ [(t, c)]
                 /\ World.now w <= t <= World.now w') ->
      World.journal w' = World.journal w ->
      World.sbCh w' = World.sbCh w ->
      Q (decode pick (hd_error (World.replies w))) w') ->
  returns (call c registered asserted pick) w Q.
Proof.
  intros Hanswer H.
  destruct (call_roundtrip c registered asserted pick w)
    as (w' & Hrun & Hr & (t & Hq & Ht & _) & _ & _ & Hj & Hs).
  rewrite answer_not_rejected in Hrun by exact Hanswer.
  eexists _, w'. split; [exact Hrun|]. apply H; eauto.
Qed.

(** The type assertion of a method that registered no error object, or that
    asserts the value type, fails on a rejection: the method panics, after
    its request and before anything is returned. *)
Lemma call_rejected {T} (c : Call) (registered : ErrorObject)
    (asserted : Asserted) (pick : Reply -> option T) (message : string)
    (w : World.t) (Q : string -> World.t -> Prop) :
  registered = NoErrorObject \/ asserted = AsValue ->
  hd_error (World.replies w) = Some (RError message) ->
  (forall msg w',
      assert_ErrorResponse registered asserted message w' = Panicked msg w' ->
      World.replies w' = tl (World.replies w) ->
      (exists t, World.requests w' = World.requests w ++ [(t, c)]
                 /\ World.now w <= t <= World.now w') ->
      World.journal w' = World.journal w ->
      World.sbCh w' = World.sbCh w ->
      Q msg w') ->
  panics (call c registered asserted pick) w Q.
Proof.
  intros Hunchecked Hhd H.
  destruct (call_roundtrip c registered asserted pick w)
    as (w' & Hrun & Hr & (t & Hq & Ht & _) & _ & _ & Hj & Hs).
  rewrite Hhd in Hrun. cbn [answer] in Hrun. unfold bind in Hrun.
  destruct registered, asserted;
    try (destruct Hunchecked; discriminate);
    cbn [assert_ErrorResponse] in *;
    (eexists _, w'; split; [exact Hrun|]; apply H; eauto).
Qed.

(** ** The command loop *)

Lemma filter_nonempty_existsb {A} (f : A -> bool) (l : list A) :
  (0 <? Z.of_nat (length (Filter l f))) = existsb f l.
Proof.
  unfold Filter. induction l as [|a l IH]; [reflexivity|].
  cbn [filter existsb]. destruct (f a); cbn [orb]; [|exact IH].
  cbn [length]. apply Z.ltb_lt. lia.
Qed.

Lemma IsAtWaypointWithTrait_returns (sb : ShipBot.t) (trait : string)
    (waypoint : Waypoint.t) (w : World.t) (Q : bool -> World.t -> Prop) :
  hd_error (World.replies w) = Some (RWaypoint waypoint) ->
  (forall w', World.replies w' = tl (World.replies w) ->
              World.sbCh w' = World.sbCh w -> Q (hasTrait trait waypoint) w') ->
  returns (IsAtWaypointWithTrait sb trait) w Q.
Proof.
  intros Hhd H. unfold IsAtWaypointWithTrait, client_GetWaypoint.
  apply returns_bind, call_returns. intros w1 Hr1 _ _ Hs1.
  rewrite Hhd. cbn [decode isErr when].
  apply returns_bind, returns_ret, returns_bind, returns_ret, returns_ret.
  rewrite filter_nonempty_existsb. apply H; assumption.
Qed.

Lemma IsAtWaypointOfType_returns (sb : ShipBot.t) (waypointType : string)
    (waypoint : Waypoint.t) (w : World.t) (Q : bool -> World.t -> Prop) :
  hd_error (World.replies w) = Some (RWaypoint waypoint) ->
  (forall w', World.replies w' = tl (World.replies w) ->
              World.sbCh w' = World.sbCh w ->
              Q (String.eqb (Waypoint.Type_ waypoint) waypointType) w') ->
  returns (IsAtWaypointOfType sb waypointType) w Q.
Proof.
  intros Hhd H. unfold IsAtWaypointOfType, client_GetWaypoint.
  apply returns_bind, call_returns. intros w1 Hr1 _ _ Hs1.
  rewrite Hhd. cbn [decode isErr when].
  apply returns_bind, returns_ret, returns_bind, returns_ret, returns_ret.
  apply H; assumption.
Qed.

Lemma returns_if_ret {A} (b : bool) (x y : A) (w : World.t)
    (Q : A -> World.t -> Prop) :
  Q (if b then x else y) w -> returns (if b then ret x else ret y) w Q.
Proof. destruct b; apply returns_ret. Qed.

Lemma when_Info_returns (b : bool) (msg : string) (w : World.t)
    (Q : unit -> World.t -> Prop) :
  (forall w', World.replies w' = World.replies w ->
              World.sbCh w' = World.sbCh w -> Q tt w') ->
  returns (when b (Info msg)) w Q.
Proof.
  intros H. destruct b; cbn [when].
  - apply logf_returns. intros w' _ _ Hr _ _ Hs. auto.
  - apply returns_ret. auto.
Qed.

(** One step of a run whose replies are known: [H : World.replies w = ...]
    for the world [w] of the goal is kept up to date. *)
Ltac keep_replies Hr :=
  lazymatch type of Hr with
  | World.replies _ = ?rhs =>
      match goal with
      | H : World.replies ?w = _ |- _ =>
          lazymatch rhs with
          | context [World.replies w] => rewrite H in Hr; cbn [tl] in Hr; clear H
          end
      end
  end.

Ltac run_step :=
  lazymatch goal with
  | |- returns (ret _) _ _ => apply returns_ret
  | |- returns (bind _ _) _ _ => apply returns_bind
  | |- returns (andM _ _) _ _ => unfold andM at 1
  | |- returns (if true then _ else _) _ _ => cbv iota
  | |- returns (if false then _ else _) _ _ => cbv iota
  | |- returns (if _ then ret _ else ret _) _ _ => apply returns_if_ret
  | |- returns (when _ (Info _)) _ _ =>
      let w' := fresh "w" in let Hr := fresh "Hr" in let Hs := fresh "Hs" in
      apply when_Info_returns; intros w' Hr Hs; keep_replies Hr
  | |- returns (Info _) _ _ =>
      let w' := fresh "w" in let Hr := fresh "Hr" in let Hs := fresh "Hs" in
      apply logf_returns; intros w' _ _ Hr _ _ Hs; keep_replies Hr
  | |- returns (IsAtWaypointWithTrait _ _) ?w _ =>
      let w' := fresh "w" in let Hr := fresh "Hr" in let Hs := fresh "Hs" in
      match goal with
      | H : World.replies w = RWaypoint ?wp :: _ |- _ =>
          apply (IsAtWaypointWithTrait_returns _ _ wp);
          [rewrite H; reflexivity | intros w' Hr Hs]; keep_replies Hr
      end
  | |- returns (IsAtWaypointOfType _ _) ?w _ =>
      let w' := fresh "w" in let Hr := fresh "Hr" in let Hs := fresh "Hs" in
      match goal with
      | H : World.replies w = RWaypoint ?wp :: _ |- _ =>
          apply (IsAtWaypointOfType_returns _ _ wp);
          [rewrite H; reflexivity | intros w' Hr Hs]; keep_replies Hr
      end
  end.

Lemma catch_up_nil (sem : LoopVar) (fuel : nat) (turn : bool) (sb : ShipBot.t) :
  catch_up sem fuel turn [] sb = ret ([], sb).
Proof. destruct turn; reflexivity. Qed.

(** When no goroutine of the cycle runs before the cycle is over, the
    conditions all read the ShipBot as it was received. *)
Lemma command_excavator (sem : LoopVar) (fuel : nat) (sb : ShipBot.t)
    (waypoint : Waypoint.t) (w : World.t) (rest : list Reply) :
  Ship.Role (ShipBot.ship sb) = "EXCAVATOR" ->
  World.replies w = RWaypoint waypoint :: RWaypoint waypoint :: RWaypoint waypoint :: rest ->
  returns (command sem fuel (fun _ => false) sb) w
          (fun l w' => l = matching_rows (facts_of sb waypoint)
                       /\ World.sbCh w' = World.sbCh w).
Proof.
  intros Hrole Hrep. unfold command, catch_up. rewrite Hrole.
  change (String.eqb "EXCAVATOR" "COMMAND") with false.
  change (String.eqb "EXCAVATOR" "EXCAVATOR") with true.
  cbv iota. unfold facts_of.
  destruct (IsFullOfCargo sb) eqn:Hfull; cbn [negb];
    repeat first [run_step | progress cbv beta iota zeta
                  | progress (rewrite ?Hfull; cbn [negb])];
    (split; [|congruence]);
    destruct (hasTrait "MARKETPLACE" waypoint);
    destruct (String.eqb (ShipNav.Status (shipNav sb)) "DOCKED");
    destruct (String.eqb (Waypoint.Type_ waypoint) "ASTEROID_FIELD");
    reflexivity.
Qed.

Lemma exactly_one_row (facts : Facts) :
  exists m, matching_rows facts = [m] /\ decision facts = Some m.
Proof.
  destruct facts as [[[[] []] []] []]; eexists; split; reflexivity.
Qed.

(** C4, on the code: every combination of the four facts has exactly one
    row of the ordered table, and a cycle in which no goroutine runs before
    its end starts exactly the mission of that row.  But the goroutine of an
    earlier condition works on the ShipBot that the later conditions read.
    For a full ship docked at a marketplace that is no asteroid field, the
    table gives SELL alone, and so does the cycle when the goroutine has not
    run by its end; when the sale empties the hold before the fourth
    condition is evaluated (or already before the second), the fifth
    condition holds as well and the cycle starts SELL and then
    NAVIGATE_TO_NEAREST(ASTEROID_FIELD). *)
Theorem command_starts_a_second_mission :
  (forall facts : Facts, exists m, matching_rows facts = [m])
  /\ (forall (sem : LoopVar) (fuel : nat) (sb : ShipBot.t) (waypoint : Waypoint.t)
             (w : World.t) (rest : list Reply),
        Ship.Role (ShipBot.ship sb) = "EXCAVATOR" ->
        World.replies w
        = RWaypoint waypoint :: RWaypoint waypoint :: RWaypoint waypoint :: rest ->
        exists m w',
          command sem fuel (fun _ => false) sb w = Returned [m] w'
          /\ matching_rows (facts_of sb waypoint) = [m])
  /\ matching_rows (facts_of hauler (waypoint_of "PLANET" ["MARKETPLACE"]))
     = [GoSellCargo]
  /\ started (command PerLoop 3 (fun _ => false) hauler
                (world_with [RWaypoint (waypoint_of "PLANET" ["MARKETPLACE"]);
                             RWaypoint (waypoint_of "PLANET" ["MARKETPLACE"]);
                             RWaypoint (waypoint_of "PLANET" ["MARKETPLACE"])]))
     = Some [GoSellCargo]
  /\ started (command PerLoop 3 (fun i => Nat.eqb i 4) hauler
                (world_with [RWaypoint (waypoint_of "PLANET" ["MARKETPLACE"]);
                             RWaypoint (waypoint_of "PLANET" ["MARKETPLACE"]);
                             RWaypoint (waypoint_of "PLANET" ["MARKETPLACE"]);
                             sale 1500;
                             RWaypoint (waypoint_of "PLANET" ["MARKETPLACE"]);
                             RWaypoint (waypoint_of "PLANET" ["MARKETPLACE"])]))
     = Some [GoSellCargo; GoNavigateToNearestWaypointOfType "ASTEROID_FIELD"]
  /\ started (command PerLoop 3 (fun i => Nat.eqb i 2) hauler
                (world_with [RWaypoint (waypoint_of "PLANET" ["MARKETPLACE"]);
                             sale 1500;
                             RWaypoint (waypoint_of "PLANET" ["MARKETPLACE"]);
                             RWaypoint (waypoint_of "PLANET" ["MARKETPLACE"])]))
     = Some [GoSellCargo; GoNavigateToNearestWaypointOfType "ASTEROID_FIELD"].
Proof.
  split; [|split; [|repeat split; vm_compute; reflexivity]].
  - intros facts. destruct (exactly_one_row facts) as (m & Hm & _). eauto.
  - intros sem fuel sb waypoint w rest Hrole Hrep.
    destruct (command_excavator sem fuel sb waypoint w rest Hrole Hrep)
      as (l & w' & Hrun & Hl & _).
    destruct (exactly_one_row (facts_of sb waypoint)) as (m & Hm & Hd).
    exists m, w'. rewrite Hrun, Hl, Hm. auto.
Qed.

(** ** The extract loop *)

Lemma WaitUntilCooldown_returns (sb : ShipBot.t) (c : Cooldown.t) (w : World.t)
    (Q : unit -> World.t -> Prop) :
  ShipBot.cooldown sb = Some c ->
  (forall w', Cooldown.Expiration c <= World.now w' ->
              World.replies w' = World.replies w ->
              World.requests w' = World.requests w ->
              World.sbCh w' = World.sbCh w -> Q tt w') ->
  returns (WaitUntilCooldown sb) w Q.
Proof.
  intros Hc H. unfold WaitUntilCooldown. rewrite Hc. cbn [deref].
  apply returns_bind, returns_ret.
  apply returns_bind, logf_returns. intros w1 Hn1 _ Hr1 Hq1 _ Hs1.
  apply returns_bind, time_Now_returns. intros w2 E2.
  destruct E2 as (Hn2 & _ & Hr2 & Hq2 & _ & Hs2).
  destruct (Cooldown.Expiration c <? World.now w2) eqn:Hlt.
  - apply logf_returns. intros w3 Hn3 _ Hr3 Hq3 _ Hs3.
    apply Z.ltb_lt in Hlt. apply H; try congruence; lia.
  - apply returns_bind, logf_returns. intros w3 Hn3 _ Hr3 Hq3 _ Hs3.
    apply returns_bind, time_Now_returns. intros w4 E4.
    destruct E4 as (Hn4 & _ & Hr4 & Hq4 & _ & Hs4).
    apply time_Sleep_returns. intros w5 E5 Hn5.
    destruct E5 as (_ & _ & Hr5 & Hq5 & _ & Hs5).
    apply H; try congruence; lia.
Qed.

Lemma extract_loop_run (fuel : nat) :
  forall (sb : ShipBot.t) (c : Cooldown.t) (w : World.t),
  ShipBot.cooldown sb = Some c ->
  (length (World.replies w) < fuel)%nat ->
  returns (extract_loop fuel sb) w
    (fun sb' w' =>
       exists served times,
         extract_run sb served times sb'
         /\ served = served_from (World.replies w) (length served)
         /\ World.replies w' = skipn (length served) (World.replies w)
         /\ World.requests w'
            = World.requests w
              ++ map (fun t => (t, CExtractResources (shipSymbol sb))) times
         /\ World.sbCh w' = World.sbCh w).
Proof.
  induction fuel as [|fuel IH]; intros sb c w Hc Hfuel; [lia|].
  cbn [extract_loop].
  destruct (IsFullOfCargo sb) eqn:Hfull; cbn [negb].
  - apply returns_bind, logf_returns. intros w1 _ _ Hr1 Hq1 _ Hs1.
    apply returns_ret. exists [], []. cbn. rewrite app_nil_r.
    repeat split; auto. constructor. exact Hfull.
  - apply returns_bind, (WaitUntilCooldown_returns sb c); [exact Hc|].
    intros w1 Hn1 Hr1 Hq1 Hs1.
    unfold client_ExtractResources.
    apply returns_bind, call_returns. intros w2 Hr2 (t & Hq2 & Ht) _ Hs2.
    rewrite Hr1 in *. rewrite Hq1 in Hq2.
    destruct (World.replies w) as [|r rest] eqn:Hreplies; cbn [hd_error tl] in *.
    + cbn [decode isErr errText].
      apply returns_bind, logf_returns. intros w3 _ _ Hr3 Hq3 _ Hs3.
      apply returns_bind, logf_returns. intros w4 _ _ Hr4 Hq4 _ Hs4.
      apply returns_ret. exists [None], [t]. cbn.
      repeat split; try congruence.
      apply (extract_failed sb c); auto; [lia | discriminate].
    + destruct r as [message|? |? |? |res|? |? |?];
        cbn [decode isErr errText];
        try (apply returns_bind, logf_returns; intros w3 _ _ Hr3 Hq3 _ Hs3;
             apply returns_bind, logf_returns; intros w4 _ _ Hr4 Hq4 _ Hs4;
             apply returns_ret; eexists [_], [t]; cbn;
             repeat split; try congruence;
             apply (extract_failed sb c); auto; [lia | congruence]).
      apply returns_bind, returns_ret.
      apply returns_bind, logf_returns. intros w3 _ _ Hr3 Hq3 _ Hs3.
      apply returns_bind, logf_returns. intros w4 _ _ Hr4 Hq4 _ Hs4.
      eapply returns_weaken.
      * apply (IH (extracted sb res) (ExtractResourcesResponse.Cooldown res) w4);
          [reflexivity|]. cbn [length] in Hfuel.
        replace (World.replies w4) with rest by congruence. lia.
      * cbv beta. intros sb' w' (served & times & Hrun & Hserved & Hrep & Hreq & Hsb).
        exists (Some (RExtract res) :: served), (t :: times).
        assert (Hrest : World.replies w4 = rest) by congruence.
        rewrite Hrest in *.
        split; [apply (extract_more sb c); auto; lia|].
        cbn [length served_from hd_error tl skipn map].
        split; [congruence|]. split; [exact Hrep|].
        split; [|congruence].
        rewrite Hreq, Hq4, Hq3, Hq2, <- app_assoc. reflexivity.
Qed.

Lemma extract_run_end (sb sb' : ShipBot.t) (served : list (option Reply))
    (times : list Z) :
  extract_run sb served times sb' ->
  IsFullOfCargo sb' = true
  \/ exists pre r, served = pre ++ [r] /\ forall res, r <> Some (RExtract res).
Proof.
  induction 1 as [sb Hfull | sb c r t Hfull Hc Ht Hr
                  | sb c res t served times sb' Hfull Hc Ht Hrun IH].
  - left. exact Hfull.
  - right. exists [], r. auto.
  - destruct IH as [IH | (pre & r & -> & Hr)]; [left; exact IH|].
    right. exists (Some (RExtract res) :: pre), r. auto.
Qed.

Lemma extract_run_capacity (sb sb' : ShipBot.t) (served : list (option Reply))
    (times : list Z) :
  extract_run sb served times sb' ->
  within_capacity (shipCargo sb) ->
  (forall res, In (Some (RExtract res)) served ->
               within_capacity (ExtractResourcesResponse.Cargo res)) ->
  within_capacity (shipCargo sb')
  /\ (IsFullOfCargo sb' = true ->
      ShipCargo.Units (shipCargo sb') = ShipCargo.Capacity (shipCargo sb')).
Proof.
  induction 1 as [sb Hfull | sb c r t Hfull Hc Ht Hr
                  | sb c res t served times sb' Hfull Hc Ht Hrun IH];
    intros Hsb Hres.
  - split; [exact Hsb|]. intros _. unfold IsFullOfCargo in Hfull.
    unfold within_capacity in Hsb. apply Z.geb_le in Hfull. lia.
  - split; [exact Hsb|]. congruence.
  - apply IH.
    + apply (Hres res). left. reflexivity.
    + intros res' Hin. apply Hres. right. exact Hin.
Qed.

(** C6, as the code has it: for a ShipBot whose cooldown is known, the
    extract loop returns (enough rounds granted) and reports the ShipBot;
    it ends exactly when the cargo units have reached or passed the capacity
    or on the first failed extract call; every extract call is issued at or
    after the expiration of the cooldown then in force; and the units stay
    within capacity, the loop then ending at units = capacity, as long as
    the cargo at entry and the cargo of every response are within capacity. *)
Theorem ExtractResources_run (fuel : nat) (sb : ShipBot.t) (c : Cooldown.t)
    (w : World.t) :
  ShipBot.cooldown sb = Some c ->
  (length (World.replies w) < fuel)%nat ->
  exists sb' w' served times,
    ExtractResources fuel sb w = Returned tt w'
    /\ World.sbCh w' = World.sbCh w ++ [sb']
    /\ extract_run sb served times sb'
    /\ served = served_from (World.replies w) (length served)
    /\ World.requests w'
       = World.requests w
         ++ map (fun t => (t, CExtractResources (shipSymbol sb))) times
    /\ (IsFullOfCargo sb' = true
        \/ exists pre r, served = pre ++ [r]
                         /\ forall res, r <> Some (RExtract res))
    /\ (within_capacity (shipCargo sb) ->
        (forall res, In (Some (RExtract res)) served ->
                     within_capacity (ExtractResourcesResponse.Cargo res)) ->
        within_capacity (shipCargo sb')
        /\ (IsFullOfCargo sb' = true ->
            ShipCargo.Units (shipCargo sb') = ShipCargo.Capacity (shipCargo sb'))).
Proof.
  intros Hc Hfuel.
  destruct (extract_loop_run fuel sb c w Hc Hfuel)
    as (sb' & w1 & Hloop & served & times & Hrun & Hserved & _ & Hreq & Hs).
  unfold ExtractResources, bind. rewrite Hloop.
  eexists sb', _, served, times. split; [reflexivity|]. cbn.
  repeat split; try assumption.
  - congruence.
  - eapply extract_run_end; eassumption.
  - eapply extract_run_capacity; eassumption.
  - eapply extract_run_capacity; eassumption.
Qed.

(** A drone that fills its hold in two extractions. *)
Lemma ExtractResources_run_witness :
  exists sb' w' served times,
    ExtractResources 3 drone (world_with [yield 20 40 70; yield 40 40 140])
    = Returned tt w'
    /\ World.sbCh w'
       = World.sbCh (world_with [yield 20 40 70; yield 40 40 140]) ++ [sb']
    /\ extract_run drone served times sb'
    /\ served
       = served_from (World.replies (world_with [yield 20 40 70; yield 40 40 140]))
                     (length served)
    /\ World.requests w'
       = World.requests (world_with [yield 20 40 70; yield 40 40 140])
         ++ map (fun t => (t, CExtractResources (shipSymbol drone))) times
    /\ (IsFullOfCargo sb' = true
        \/ exists pre r, served = pre ++ [r]
                         /\ forall res, r <> Some (RExtract res))
    /\ (within_capacity (shipCargo drone) ->
        (forall res, In (Some (RExtract res)) served ->
                     within_capacity (ExtractResourcesResponse.Cargo res)) ->
        within_capacity (shipCargo sb')
        /\ (IsFullOfCargo sb' = true ->
            ShipCargo.Units (shipCargo sb') = ShipCargo.Capacity (shipCargo sb'))).
Proof.
  apply (ExtractResources_run 3 drone (Cooldown.mk 0)
           (world_with [yield 20 40 70; yield 40 40 140]));
    [reflexivity | cbn; lia].
Defined.

(** C6, as stated, fails when a response reports more units than the
    capacity: the loop ends without a failed call at 45 units of 40, neither
    at units = capacity nor within capacity. *)
Lemma ExtractResources_ends_above_capacity :
  exists sb' w',
    ExtractResources 2 drone (world_with [yield 45 40 70]) = Returned tt w'
    /\ World.sbCh w' = [sb']
    /\ map snd (World.requests w') = [CExtractResources "GOGARIN-2"]
    /\ World.replies w' = []
    /\ ShipCargo.Units (shipCargo sb') = 45
    /\ ShipCargo.Capacity (shipCargo sb') = 40.
Proof.
  eexists _, _. split; [vm_compute; reflexivity|].
  split; [vm_compute; reflexivity|].
  vm_compute. auto.
Qed.

(** ** The requisition protocol *)

Lemma FindWaypointsByTrait_returns (systemSymbol trait : string)
    (waypoints : list Waypoint.t) (w : World.t)
    (Q : option (list Waypoint.t) * option string -> World.t -> Prop) :
  hd_error (World.replies w) = Some (RWaypoints waypoints) ->
  (forall w', World.replies w' = tl (World.replies w) ->
              issued w' = issued w ++ [CListWaypoints systemSymbol] ->
              World.sbCh w' = World.sbCh w ->
              Q (Some (Filter waypoints (hasTrait trait)), None) w') ->
  returns (FindWaypointsByTrait systemSymbol trait) w Q.
Proof.
  intros Hhd H. unfold FindWaypointsByTrait, client_ListWaypoints.
  apply returns_bind, call_answered; [intros message Hrejected; congruence|].
  intros w1 Hr1 (t & Hq1 & _) _ Hs1.
  rewrite Hhd. cbn [decode isErr].
  apply returns_bind, returns_ret, returns_ret.
  apply H; try assumption.
  unfold issued. rewrite Hq1, map_app. reflexivity.
Qed.

Lemma InitiateRequisitionProtocol_no_shipyard (sb : ShipBot.t)
    (waypoints : list Waypoint.t) (w : World.t) :
  hd_error (World.replies w) = Some (RWaypoints waypoints) ->
  Filter waypoints (hasTrait "SHIPYARD") = [] ->
  panics (InitiateRequisitionProtocol sb) w
    (fun msg w' =>
       msg = "no shipyards found. Not yet handled."
       /\ issued w'
          = issued w ++ [CListWaypoints (ShipNav.SystemSymbol (shipNav sb))]
       /\ World.sbCh w' = World.sbCh w).
Proof.
  intros Hhd Hnone. unfold InitiateRequisitionProtocol.
  apply panics_bind, logf_returns. intros w1 _ _ Hr1 Hq1 _ Hs1.
  apply panics_bind, logf_returns. intros w2 _ _ Hr2 Hq2 _ Hs2.
  apply panics_bind, (FindWaypointsByTrait_returns _ _ waypoints);
    [congruence|].
  intros w3 Hr3 Hq3 Hs3. cbn [isErr when].
  apply panics_bind, returns_ret, panics_bind, returns_ret.
  rewrite Hnone. cbn [length Z.of_nat Z.eqb].
  apply panics_panic. split; [reflexivity|]. split; [|congruence].
  rewrite Hq3. unfold issued. congruence.
Qed.

(** C8: when the waypoint listing of the ship's system holds no waypoint
    with the SHIPYARD trait, the requisition protocol panics with "no
    shipyards found. Not yet handled." after that one request, and so does
    the start of the fleet, whatever the fleet: no navigate call is issued,
    nothing is retried, and no ShipBot ever reaches the command loop. *)
Theorem no_shipyard_is_fatal (contracts : list Contract.t) (agent : Agent.t)
    (ship : Ship.t) (ships turns : list Ship.t) (waypoints : list Waypoint.t)
    (w : World.t) :
  hd_error (World.replies w) = Some (RWaypoints waypoints) ->
  Filter waypoints (hasTrait "SHIPYARD") = [] ->
  (exists w',
      InitiateRequisitionProtocol (NewShipBot ship agent) w
      = Panicked "no shipyards found. Not yet handled." w'
      /\ issued w' = issued w ++ [CListWaypoints (ShipNav.SystemSymbol (Ship.Nav ship))]
      /\ World.sbCh w' = World.sbCh w)
  /\ (exists w',
        launch contracts agent (ship :: ships) turns w
        = Panicked "no shipyards found. Not yet handled." w'
        /\ issued w' = issued w ++ [CListWaypoints (ShipNav.SystemSymbol (Ship.Nav ship))]
        /\ World.sbCh w' = World.sbCh w).
Proof.
  intros Hhd Hnone. split.
  - destruct (InitiateRequisitionProtocol_no_shipyard (NewShipBot ship agent)
                waypoints w Hhd Hnone) as (msg & w' & Hrun & -> & Hq & Hs).
    exists w'. auto.
  - assert (H : panics (launch contracts agent (ship :: ships) turns) w
                  (fun msg w' =>
                     msg = "no shipyards found. Not yet handled."
                     /\ issued w'
                        = issued w ++ [CListWaypoints (ShipNav.SystemSymbol (Ship.Nav ship))]
                     /\ World.sbCh w' = World.sbCh w)).
    { unfold launch.
      apply panics_bind, logf_returns. intros w1 _ _ Hr1 Hq1 _ Hs1.
      apply panics_bind, logf_returns. intros w2 _ _ Hr2 Hq2 _ Hs2.
      apply panics_bind, logf_returns. intros w3 _ _ Hr3 Hq3 _ Hs3.
      apply panics_bind_left.
      apply panics_bind, logf_returns. intros w4 _ _ Hr4 Hq4 _ Hs4.
      destruct (InitiateRequisitionProtocol_no_shipyard (NewShipBot ship agent)
                  waypoints w4) as (msg & w' & Hrun & -> & Hq & Hs);
        [congruence | exact Hnone |].
      exists "no shipyards found. Not yet handled.", w'.
      split; [exact Hrun|]. split; [reflexivity|].
      split; [|congruence].
      rewrite Hq. unfold issued.
      change (shipNav (NewShipBot ship agent)) with (Ship.Nav ship). congruence. }
    destruct H as (msg & w' & Hrun & -> & Hq & Hs). exists w'. auto.
Qed.

(** A system of three waypoints without a shipyard. *)
Lemma no_shipyard_is_fatal_witness :
  (exists w',
      InitiateRequisitionProtocol
        (NewShipBot (ShipBot.ship (excavator 0 40 "IN_ORBIT")) (Agent.mk "GOGARIN" 0))
        (world_with [RWaypoints [origin; near; far]])
      = Panicked "no shipyards found. Not yet handled." w'
      /\ issued w'
         = issued (world_with [RWaypoints [origin; near; far]])
           ++ [CListWaypoints
                 (ShipNav.SystemSymbol (Ship.Nav (ShipBot.ship (excavator 0 40 "IN_ORBIT"))))]
      /\ World.sbCh w' = World.sbCh (world_with [RWaypoints [origin; near; far]]))
  /\ (exists w',
        launch [] (Agent.mk "GOGARIN" 0)
               [ShipBot.ship (excavator 0 40 "IN_ORBIT")]
               [ShipBot.ship (excavator 0 40 "IN_ORBIT")]
               (world_with [RWaypoints [origin; near; far]])
        = Panicked "no shipyards found. Not yet handled." w'
        /\ issued w'
           = issued (world_with [RWaypoints [origin; near; far]])
             ++ [CListWaypoints
                   (ShipNav.SystemSymbol (Ship.Nav (ShipBot.ship (excavator 0 40 "IN_ORBIT"))))]
        /\ World.sbCh w' = World.sbCh (world_with [RWaypoints [origin; near; far]])).
Proof.
  apply (no_shipyard_is_fatal [] (Agent.mk "GOGARIN" 0)
           (ShipBot.ship (excavator 0 40 "IN_ORBIT")) []
           [ShipBot.ship (excavator 0 40 "IN_ORBIT")]
           [origin; near; far] (world_with [RWaypoints [origin; near; far]]));
    reflexivity.
Defined.

(** ** The sell loop *)

Lemma sell_inventory_unanswered (sb : ShipBot.t) (inventory : list ShipCargoItem.t)
    (w : World.t) :
  World.replies w = [] ->
  returns (sell_inventory sb inventory) w
          (fun sb' w' => sb' = sb /\ World.replies w' = []
                         /\ World.sbCh w' = World.sbCh w).
Proof.
  intros Hnone. destruct inventory as [|good rest]; cbn [sell_inventory].
  - apply returns_ret. auto.
  - destruct (Contains (ShipBot.priorities sb) (ShipCargoItem.Symbol good));
      apply returns_bind, logf_returns; intros w1 _ _ Hr1 _ _ Hs1;
      unfold client_SellCargo;
      apply returns_bind, call_returns; intros w2 Hr2 _ _ Hs2;
      rewrite Hr1, Hnone in *; cbn [hd_error tl decode isErr] in *;
      apply returns_bind, logf_returns; intros w3 _ _ Hr3 _ _ Hs3;
      apply returns_ret; repeat split; congruence.
Qed.

(** With no response to any sell call the outer loop never ends. *)
Lemma sell_loop_unanswered (sb : ShipBot.t) (fuel : nat) (w : World.t) :
  ShipCargo.Units (shipCargo sb) > 0 ->
  World.replies w = [] ->
  sell_loop fuel sb w = Unfinished.
Proof.
  intros Hunits. revert w.
  induction fuel as [|fuel IH]; intros w Hnone; [reflexivity|].
  cbn [sell_loop].
  replace (ShipCargo.Units (shipCargo sb) >? 0) with true
    by (symmetry; apply Z.gtb_lt; lia).
  destruct (sell_inventory_unanswered sb (ShipCargo.Inventory (shipCargo sb)) w Hnone)
    as (sb' & w' & Hrun & -> & Hnone' & _).
  unfold bind. rewrite Hrun. apply IH. exact Hnone'.
Qed.

(** C2, on the code: after a failed sell call the outer loop starts over.
    With one line of 10 IRON_ORE, a first call that fails and a second that
    succeeds, the same line is sold twice over (two requests); and with no
    response at all the loop never ends, whatever the number of rounds
    granted, so the ship never reports. *)
Theorem SellCargo_retries_failed_line :
  (exists w',
      SellCargo 3 seller (world_with [RError "market is closed"; sale 1500])
      = Returned tt w'
      /\ issued w' = [CSellCargo "GOGARIN-2" "IRON_ORE" 10;
                      CSellCargo "GOGARIN-2" "IRON_ORE" 10])
  /\ (forall fuel, SellCargo fuel seller (world_with []) = Unfinished).
Proof.
  split.
  - eexists. split; [vm_compute; reflexivity|]. vm_compute. reflexivity.
  - intros fuel. unfold SellCargo, bind.
    rewrite (sell_loop_unanswered seller fuel (world_with []));
      [reflexivity | reflexivity | reflexivity].
Qed.

(** ** Reporting back *)

(** Whatever fails in the dock call, DockShip panics and reports nothing:
    on a rejection inside the client, whose request registered no error
    object; on any other failure at its own dereference of the nil result,
    after the error line. *)
Lemma DockShip_failed_call (sb : ShipBot.t) (w : World.t) :
  (forall nav, hd_error (World.replies w) <> Some (RShipNav nav)) ->
  panics (DockShip sb) w
         (fun msg w' =>
            World.sbCh w' = World.sbCh w
            /\ match hd_error (World.replies w) with
               | Some (RError _) =>
                   msg = "interface conversion: interface {} is nil, not *api.ErrorResponse"
               | _ => msg = nil_dereference
               end).
Proof.
  intros Hfail. unfold DockShip, client_DockShip.
  apply panics_bind, logf_returns. intros w1 _ _ Hr1 _ _ Hs1.
  destruct (hd_error (World.replies w)) as [r|] eqn:Hhd;
    [destruct r as [message| | | | | | |]|];
    try (apply panics_bind, call_answered;
         [intros message' Hrejected; congruence|];
         intros w2 Hr2 _ _ Hs2; rewrite Hr1, Hhd; cbn [decode isErr when];
         apply panics_bind, logf_returns; intros w3 _ _ Hr3 _ _ Hs3;
         apply panics_bind_left, panics_panic; split; [congruence | reflexivity]).
  - apply panics_bind_left.
    apply (call_rejected _ _ _ _ message); [left; reflexivity | congruence|].
    intros msg w2 Hmsg _ _ _ Hs2.
    unfold assert_ErrorResponse, panic in Hmsg. injection Hmsg as <-.
    split; [congruence | reflexivity].
  - exfalso. eapply Hfail. reflexivity.
Qed.

(** C3, on the code: when the dock call, or the waypoint listing in
    NavigateToNearestWaypointWithTrait, gets no response, the error is
    logged and then the nil result is dereferenced: the action panics and no
    ShipBot is sent.  When the remote side rejects the call, the client
    method itself panics, in its type assertion on the error object, and
    again no ShipBot is sent.  The sibling NavigateToNearestWaypointOfType
    returns after the error line and reports back when its listing got no
    response. *)
Theorem failed_call_ends_without_report :
  (exists w',
      DockShip (excavator 40 40 "IN_ORBIT") (world_with [])
      = Panicked nil_dereference w'
      /\ World.journal w' = [(INFO, "Docking ship..."); (ERROR, "🚀 Error docking ship.")]
      /\ World.sbCh w' = [])
  /\ (exists w',
        DockShip (excavator 40 40 "IN_ORBIT") (world_with [RError "ship is in transit"])
        = Panicked "interface conversion: interface {} is nil, not *api.ErrorResponse" w'
        /\ World.sbCh w' = [])
  /\ (exists w',
        NavigateToNearestWaypointWithTrait PerLoop (excavator 40 40 "IN_ORBIT")
          "MARKETPLACE" (world_with [])
        = Panicked nil_dereference w'
        /\ World.journal w'
           = [(INFO, "Navigating to nearest waypoint with trait...");
              (ERROR, "🚀 Error getting waypoints.")]
        /\ World.sbCh w' = [])
  /\ (exists w',
        NavigateToNearestWaypointWithTrait PerLoop (excavator 40 40 "IN_ORBIT")
          "MARKETPLACE" (world_with [RError "system not found"])
        = Panicked
            "interface conversion: interface {} is *api.ErrorResponse, not api.ErrorResponse"
            w'
        /\ World.sbCh w' = [])
  /\ (exists w',
        NavigateToNearestWaypointOfType PerLoop (excavator 40 40 "IN_ORBIT")
          "ASTEROID_FIELD" (world_with [])
        = Returned tt w'
        /\ World.journal w'
           = [(INFO, "Navigating to nearest waypoint of type...");
              (ERROR, "🚀 Error getting system.")]
        /\ World.sbCh w' = [excavator 40 40 "IN_ORBIT"]).
Proof.
  repeat apply conj; eexists;
    (split; [vm_compute; reflexivity|]); vm_compute; auto.
Qed.

(** ** Travelling to the shipyards *)

(** Already there and arrived: no request and no wait.  Under way to that
    very waypoint: no request, and the clock has reached the arrival time
    when NavigateShip returns. *)
Lemma NavigateShip_skips_or_awaits :
  (exists w',
      NavigateShip (scout "X1-DF55-69207D" "X1-DF55-69207D" 500) "X1-DF55-69207D"
                   (world_from 1000 [])
      = Returned tt w'
      /\ issued w' = [] /\ World.now w' = 1000)
  /\ (exists w',
        NavigateShip (scout "X1-DF55-20250Z" "X1-DF55-69207D" 90000) "X1-DF55-69207D"
                     (world_from 1000 [])
        = Returned tt w'
        /\ issued w' = [] /\ World.now w' = 90000).
Proof.
  split; eexists; (split; [vm_compute; reflexivity|]); vm_compute; auto.
Qed.

(** C7, on the code: the navigate call's response is dropped and nothing
    waits for the new arrival.  A ship at rest sent to a shipyard that it
    will reach at clock 10^12 has NavigateShip return at the clock of the
    request, 5 * 10^8; and with two shipyards in the system the protocol asks
    to navigate to the second one at clock 1.5 * 10^9, long before the
    arrival at the first. *)
Theorem NavigateShip_does_not_await_arrival :
  (exists w',
      NavigateShip (scout "X1-DF55-20250Z" "X1-DF55-20250Z" 0) "X1-DF55-69207D"
                   (world_from 500000000 [under_way "X1-DF55-69207D" 1000000000000])
      = Returned tt w'
      /\ World.requests w' = [(500000000, CNavigateShip "GOGARIN-1" "X1-DF55-69207D")]
      /\ World.now w' = 500000000)
  /\ (exists w',
        InitiateRequisitionProtocol (scout "X1-DF55-20250Z" "X1-DF55-20250Z" 0)
          (world_from 1000
             [RWaypoints [origin; shipyard "X1-DF55-69207D" 30 40;
                          shipyard "X1-DF55-17335A" (-20) 5];
              under_way "X1-DF55-69207D" 1000000000000;
              RError "ship is currently in transit"])
        = Returned tt w'
        /\ World.requests w'
           = [(500000000, CListWaypoints "X1-DF55");
              (1000000000, CNavigateShip "GOGARIN-1" "X1-DF55-69207D");
              (1500000000, CNavigateShip "GOGARIN-1" "X1-DF55-17335A")]
        /\ World.now w' = 1500000000).
Proof.
  split; eexists; (split; [vm_compute; reflexivity|]); vm_compute; auto.
Qed.

(** ** Priority and non-priority goods *)

Lemma similar_ret {A} (RA : A -> A -> Prop) (a1 a2 : A) :
  RA a1 a2 -> similar RA (ret a1) (ret a2).
Proof. intros H w1 w2 Hw. cbn. auto. Qed.

Lemma similar_bind {A B} (RA : A -> A -> Prop) (RB : B -> B -> Prop)
    (m1 m2 : M A) (k1 k2 : A -> M B) :
  similar RA m1 m2 ->
  (forall a1 a2, RA a1 a2 -> similar RB (k1 a1) (k2 a2)) ->
  similar RB (bind m1 k1) (bind m2 k2).
Proof.
  intros Hm Hk w1 w2 Hw. specialize (Hm w1 w2 Hw). unfold bind.
  destruct (m1 w1) as [a1 w1'|msg1 w1'|], (m2 w2) as [a2 w2'|msg2 w2'|];
    cbn in Hm |- *; try contradiction; try exact Hm.
  destruct Hm as [Ha Hw']. apply Hk; assumption.
Qed.

Ltac same_trace :=
  let w1 := fresh "w" in let w2 := fresh "w" in let Hw := fresh "Hw" in
  intros w1 w2 Hw; destruct w1, w2; unfold trace_of in Hw; cbn in Hw;
  injection Hw as -> -> -> -> -> Hw.

Lemma similar_logf (l1 l2 : Level) (msg1 msg2 : string) :
  similar eq (logf l1 msg1) (logf l2 msg2).
Proof. same_trace. cbn. unfold trace_of; cbn. rewrite Hw. auto. Qed.

Lemma similar_tick : similar eq tick tick.
Proof.
  same_trace. unfold tick; cbn. destruct lag0; cbn; unfold trace_of; cbn;
    rewrite Hw; auto.
Qed.

Lemma similar_now : similar eq time_Now time_Now.
Proof.
  unfold time_Now. eapply similar_bind; [apply similar_tick|].
  intros _ _ _. same_trace. cbn. unfold trace_of; cbn. rewrite Hw. auto.
Qed.

Lemma similar_Sleep (d : Z) : similar eq (time_Sleep d) (time_Sleep d).
Proof.
  intros w1 w2 Hw. unfold time_Sleep. apply similar_tick.
  revert w1 w2 Hw. same_trace. unfold trace_of; cbn. rewrite Hw. reflexivity.
Qed.

Lemma similar_getThrottle : similar eq getThrottle getThrottle.
Proof. same_trace. cbn. unfold trace_of; cbn. rewrite Hw. auto. Qed.

Lemma similar_setLastRequestTime (n : Z) :
  similar eq (setLastRequestTime n) (setLastRequestTime n).
Proof. same_trace. cbn. unfold trace_of; cbn. rewrite Hw. auto. Qed.

Lemma similar_issue (c : Call) : similar eq (issue c) (issue c).
Proof. same_trace. cbn. unfold trace_of; cbn. rewrite Hw. auto. Qed.

Lemma similar_receive : similar eq receive receive.
Proof.
  same_trace. unfold receive; cbn. destruct replies0; cbn; unfold trace_of; cbn;
    rewrite Hw; auto.
Qed.

Lemma similar_send (sb1 sb2 : ShipBot.t) :
  same_state sb1 sb2 -> similar eq (send sb1) (send sb2).
Proof.
  intros Hsb. same_trace. cbn. unfold trace_of; cbn.
  rewrite !map_app, Hw. cbn. rewrite Hsb. auto.
Qed.

Lemma similar_Wait : similar eq Wait Wait.
Proof.
  unfold Wait.
  eapply similar_bind; [apply similar_tick|]. intros _ _ _.
  eapply similar_bind; [apply similar_getThrottle|]. intros t _ <-.
  eapply similar_bind; [apply similar_now|]. intros n _ <-.
  eapply similar_bind.
  - unfold when. destruct (_ <? _); [apply similar_Sleep | apply similar_ret].
    reflexivity.
  - intros _ _ _. eapply similar_bind; [apply similar_now|].
    intros n' _ <-. apply similar_setLastRequestTime.
Qed.

Lemma similar_panic {A} (RA : A -> A -> Prop) (msg : string) :
  similar RA (panic msg) (panic msg).
Proof. intros w1 w2 Hw. cbn. auto. Qed.

Lemma similar_call {T} (c : Call) (registered : ErrorObject)
    (asserted : Asserted) (pick : Reply -> option T) :
  similar eq (call c registered asserted pick) (call c registered asserted pick).
Proof.
  unfold call, roundtrip.
  eapply similar_bind; [apply similar_Wait|]. intros _ _ _.
  eapply similar_bind; [apply similar_tick|]. intros _ _ _.
  eapply similar_bind.
  - eapply similar_bind; [apply similar_issue|]. intros _ _ _.
    eapply similar_bind; [apply similar_tick|]. intros _ _ _.
    apply similar_receive.
  - intros r _ <-. unfold answer.
    destruct r as [[]|]; try (apply similar_ret; reflexivity).
    eapply similar_bind.
    + unfold assert_ErrorResponse.
      destruct registered, asserted;
        first [apply similar_panic | apply similar_ret; reflexivity].
    + intros message' _ <-. apply similar_ret. reflexivity.
Qed.

Lemma same_state_sold (sb1 sb2 : ShipBot.t) (res : SellCargoResponse.t) :
  same_state sb1 sb2 -> same_state (sold sb1 res) (sold sb2 res).
Proof.
  unfold same_state, state_of, sold. cbn. intros H.
  injection H as Ha Hs Hc. rewrite Ha, Hs, Hc. reflexivity.
Qed.

Lemma similar_sell_inventory (inventory : list ShipCargoItem.t) :
  forall sb1 sb2, same_state sb1 sb2 ->
  similar same_state (sell_inventory sb1 inventory) (sell_inventory sb2 inventory).
Proof.
  induction inventory as [|good rest IH]; intros sb1 sb2 Hsb.
  - apply similar_ret. exact Hsb.
  - assert (Hsym : shipSymbol sb1 = shipSymbol sb2).
    { unfold shipSymbol. injection Hsb as _ Hs _. rewrite Hs. reflexivity. }
    cbn [sell_inventory]. rewrite Hsym.
    assert (Hbranch : forall l1 l2 a1 a2 e1 e2,
      similar same_state
        (logf l1 a1 ;;
         '(res, err) <- client_SellCargo (shipSymbol sb2) (ShipCargoItem.Symbol good)
                                         (ShipCargoItem.Units good) ;;
         if isErr err then logf ERROR e1 ;; ret sb1
         else res <- deref res ;;
              Info "💲 Cargo sold." ;; Info "📦 Cargo status updated." ;;
              Info "💰 Agent credits updated." ;;
              sell_inventory (sold sb1 res) rest)
        (logf l2 a2 ;;
         '(res, err) <- client_SellCargo (shipSymbol sb2) (ShipCargoItem.Symbol good)
                                         (ShipCargoItem.Units good) ;;
         if isErr err then logf ERROR e2 ;; ret sb2
         else res <- deref res ;;
              Info "💲 Cargo sold." ;; Info "📦 Cargo status updated." ;;
              Info "💰 Agent credits updated." ;;
              sell_inventory (sold sb2 res) rest)).
    { intros l1 l2 a1 a2 e1 e2.
      eapply similar_bind; [apply similar_logf|]. intros _ _ _.
      eapply similar_bind; [apply similar_call|]. intros [res err] _ <-.
      destruct (isErr err).
      - eapply similar_bind; [apply similar_logf|]. intros _ _ _.
        apply similar_ret. exact Hsb.
      - eapply similar_bind with (RA := eq).
        + destruct res; [apply similar_ret; reflexivity|].
          intros w1 w2 Hw. cbn. auto.
        + intros res' _ <-.
          eapply similar_bind; [apply similar_logf|]. intros _ _ _.
          eapply similar_bind; [apply similar_logf|]. intros _ _ _.
          eapply similar_bind; [apply similar_logf|]. intros _ _ _.
          apply IH, same_state_sold, Hsb. }
    destruct (Contains (ShipBot.priorities sb1) (ShipCargoItem.Symbol good)),
             (Contains (ShipBot.priorities sb2) (ShipCargoItem.Symbol good));
      apply Hbranch.
Qed.

Lemma similar_sell_loop (fuel : nat) :
  forall sb1 sb2, same_state sb1 sb2 ->
  similar same_state (sell_loop fuel sb1) (sell_loop fuel sb2).
Proof.
  induction fuel as [|fuel IH]; intros sb1 sb2 Hsb.
  - intros w1 w2 _. exact I.
  - cbn [sell_loop].
    assert (Hcargo : shipCargo sb1 = shipCargo sb2).
    { unfold shipCargo. injection Hsb as _ Hs _. rewrite Hs. reflexivity. }
    rewrite Hcargo. destruct (_ >? 0).
    + eapply similar_bind; [apply similar_sell_inventory, Hsb|].
      intros sb1' sb2' Hsb'. apply IH, Hsb'.
    + eapply similar_bind; [apply similar_logf|]. intros _ _ _.
      apply similar_ret, Hsb.
Qed.

(** C9: whatever the two priority lists of a ShipBot, SellCargo runs alike
    from the same world: the same sell requests with the same arguments at
    the same clock, the same replies consumed, the same cargo, agent credits
    and cooldown in the ShipBot reported, the same way of ending; only the
    logger's lines (and the priority list itself) may differ. *)
Theorem SellCargo_ignores_priorities (fuel : nat) (sb : ShipBot.t)
    (priorities priorities' : list string) (w : World.t) :
  alike eq (SellCargo fuel (setPriorities sb priorities) w)
           (SellCargo fuel (setPriorities sb priorities') w).
Proof.
  revert w. 
  assert (H : similar eq (SellCargo fuel (setPriorities sb priorities))
                         (SellCargo fuel (setPriorities sb priorities'))).
  { unfold SellCargo. eapply similar_bind.
    - apply similar_sell_loop. reflexivity.
    - intros sb1 sb2 Hsb. apply similar_send, Hsb. }
  intros w. apply H. reflexivity.
Qed.

(** ** The priority list of a ShipBot *)

Lemma keeps_ret {A} (a : A) (Q : A -> Prop) : Q a -> keeps (ret a) Q.
Proof. intros H w Hw. cbn. auto. Qed.

Lemma keeps_panic {A} (msg : string) (Q : A -> Prop) : keeps (panic msg) Q.
Proof. intros w Hw. exact Hw. Qed.

Lemma keeps_bind {A B} (m : M A) (k : A -> M B) (P : A -> Prop) (Q : B -> Prop) :
  keeps m P -> (forall a, P a -> keeps (k a) Q) -> keeps (bind m k) Q.
Proof.
  intros Hm Hk w Hw. specialize (Hm w Hw). unfold bind.
  destruct (m w) as [a w'|msg w'|]; [|exact Hm|exact I].
  destruct Hm as [Hw' Ha]. apply Hk; assumption.
Qed.

Lemma keeps_weaken {A} (m : M A) (P Q : A -> Prop) :
  keeps m P -> (forall a, P a -> Q a) -> keeps m Q.
Proof.
  intros Hm H w Hw. specialize (Hm w Hw).
  destruct (m w); [destruct Hm; auto | exact Hm | exact I].
Qed.

(** A step that returns and leaves the channel as it is. *)
Lemma keeps_channel {A} (m : M A) :
  (forall w, exists a w', m w = Returned a w' /\ World.sbCh w' = World.sbCh w) ->
  keeps m anything.
Proof.
  intros H w Hw. destruct (H w) as (a & w' & -> & Hs).
  unfold unprioritised. rewrite Hs. split; [exact Hw | exact I].
Qed.

Lemma keeps_tick : keeps tick anything.
Proof.
  apply keeps_channel. intros w. unfold tick.
  destruct (World.lag w); eexists _, _; split; reflexivity.
Qed.

Lemma keeps_logf (l : Level) (msg : string) : keeps (logf l msg) anything.
Proof. apply keeps_channel. intros w. eexists _, _; split; reflexivity. Qed.

Lemma keeps_now : keeps time_Now anything.
Proof.
  unfold time_Now. eapply keeps_bind; [apply keeps_tick|]. intros _ _.
  apply keeps_channel. intros w. eexists _, _; split; reflexivity.
Qed.

Lemma keeps_Sleep (d : Z) : keeps (time_Sleep d) anything.
Proof.
  apply keeps_channel. intros w. unfold time_Sleep, tick. cbn.
  destruct (World.lag w); eexists _, _; split; reflexivity.
Qed.

Lemma keeps_Wait : keeps Wait anything.
Proof.
  unfold Wait.
  eapply keeps_bind; [apply keeps_tick|]. intros _ _.
  eapply keeps_bind;
    [apply keeps_channel; intros w; eexists _, _; split; reflexivity|].
  intros t _.
  eapply keeps_bind; [apply keeps_now|]. intros n _.
  eapply keeps_bind.
  - unfold when. destruct (_ <? _); [apply keeps_Sleep | apply keeps_ret; exact I].
  - intros _ _. eapply keeps_bind; [apply keeps_now|]. intros n' _.
    apply keeps_channel. intros w. eexists _, _; split; reflexivity.
Qed.

Lemma keeps_call {T} (c : Call) (registered : ErrorObject)
    (asserted : Asserted) (pick : Reply -> option T) :
  keeps (call c registered asserted pick) anything.
Proof.
  unfold call, roundtrip.
  eapply keeps_bind; [apply keeps_Wait|]. intros _ _.
  eapply keeps_bind; [apply keeps_tick|]. intros _ _.
  eapply keeps_bind.
  - eapply keeps_bind;
      [apply keeps_channel; intros w; eexists _, _; split; reflexivity|].
    intros _ _. eapply keeps_bind; [apply keeps_tick|]. intros _ _.
    apply keeps_channel. intros w. unfold receive.
    destruct (World.replies w); eexists _, _; split; reflexivity.
  - intros r _. unfold answer.
    destruct r as [[]|]; try (apply keeps_ret; exact I).
    eapply keeps_bind with (P := anything).
    + unfold assert_ErrorResponse.
      destruct registered, asserted;
        first [apply keeps_panic | apply keeps_ret; exact I].
    + intros message' _. apply keeps_ret. exact I.
Qed.

Lemma keeps_deref {A} (p : option A) : keeps (deref p) anything.
Proof. destruct p; [apply keeps_ret; exact I | apply keeps_panic]. Qed.

Lemma keeps_index0 {A} (l : list A) : keeps (index0 l) anything.
Proof. destruct l; [apply keeps_panic | apply keeps_ret; exact I]. Qed.

Lemma keeps_when_log (b : bool) (l : Level) (msg : string) :
  keeps (when b (logf l msg)) anything.
Proof. destruct b; [apply keeps_logf | apply keeps_ret; exact I]. Qed.

Lemma keeps_send (sb : ShipBot.t) :
  ShipBot.priorities sb = [] -> keeps (send sb) anything.
Proof.
  intros Hsb w Hw. cbn. split; [|exact I].
  unfold unprioritised. cbn. apply Forall_app. split; [exact Hw|].
  constructor; [exact Hsb | constructor].
Qed.

Lemma keeps_ret_anything {A} (a : A) : keeps (ret a) anything.
Proof. apply keeps_ret. exact I. Qed.

Create HintDb keeps.
#[local] Hint Resolve keeps_ret_anything keeps_tick keeps_logf keeps_now keeps_Sleep keeps_Wait
  keeps_call keeps_deref keeps_index0 keeps_when_log keeps_send : keeps.

(** Takes a run apart, step by step. *)
Ltac keeps_steps :=
  repeat first
    [ apply keeps_ret; try exact I
    | apply keeps_panic
    | solve [unfold Info, Error; auto with keeps]
    | eapply keeps_bind;
      [solve [unfold Info, Error, client_SellCargo, client_DockShip,
              client_ExtractResources, client_NavigateShip,
              client_ListWaypoints, client_GetShipCooldown;
              try match goal with
                  | |- keeps (if ?b then _ else _) _ => destruct b
                  end;
              auto with keeps]
      | intros ? _ ]
    | match goal with
      | |- keeps (match ?x with (_, _) => _ end) _ => destruct x
      | |- keeps (if ?b then _ else _) _ => destruct b
      end ].

Lemma keeps_WaitUntilArrival (sb : ShipBot.t) : keeps (WaitUntilArrival sb) anything.
Proof. unfold WaitUntilArrival. keeps_steps. Qed.

Lemma keeps_WaitUntilCooldown (sb : ShipBot.t) : keeps (WaitUntilCooldown sb) anything.
Proof. unfold WaitUntilCooldown. keeps_steps. Qed.

#[local] Hint Resolve keeps_WaitUntilArrival keeps_WaitUntilCooldown : keeps.

Lemma keeps_DockShip (sb : ShipBot.t) :
  ShipBot.priorities sb = [] -> keeps (DockShip sb) anything.
Proof.
  intros Hsb. unfold DockShip. keeps_steps.
Qed.

Lemma keeps_NavigateToNearestWaypointOfType (sem : LoopVar) (sb : ShipBot.t)
    (waypointType : string) :
  ShipBot.priorities sb = [] ->
  keeps (NavigateToNearestWaypointOfType sem sb waypointType) anything.
Proof.
  intros Hsb. unfold NavigateToNearestWaypointOfType. keeps_steps.
Qed.

Lemma keeps_NavigateToNearestWaypointWithTrait (sem : LoopVar) (sb : ShipBot.t)
    (trait : string) :
  ShipBot.priorities sb = [] ->
  keeps (NavigateToNearestWaypointWithTrait sem sb trait) anything.
Proof.
  intros Hsb. unfold NavigateToNearestWaypointWithTrait. keeps_steps.
Qed.

Lemma keeps_sell_inventory (inventory : list ShipCargoItem.t) :
  forall sb, ShipBot.priorities sb = [] ->
  keeps (sell_inventory sb inventory) (fun sb' => ShipBot.priorities sb' = []).
Proof.
  induction inventory as [|good rest IH]; intros sb Hsb; cbn [sell_inventory].
  - apply keeps_ret. exact Hsb.
  - keeps_steps; try exact Hsb; apply IH; exact Hsb.
Qed.

Lemma keeps_sell_loop (fuel : nat) :
  forall sb, ShipBot.priorities sb = [] ->
  keeps (sell_loop fuel sb) (fun sb' => ShipBot.priorities sb' = []).
Proof.
  induction fuel as [|fuel IH]; intros sb Hsb; cbn [sell_loop].
  - intros w _. exact I.
  - destruct (_ >? 0).
    + eapply keeps_bind; [apply keeps_sell_inventory, Hsb|].
      intros sb' Hsb'. apply IH, Hsb'.
    + keeps_steps.
Qed.

Lemma keeps_extract_loop (fuel : nat) :
  forall sb, ShipBot.priorities sb = [] ->
  keeps (extract_loop fuel sb) (fun sb' => ShipBot.priorities sb' = []).
Proof.
  induction fuel as [|fuel IH]; intros sb Hsb; cbn [extract_loop].
  - intros w _. exact I.
  - keeps_steps.
Qed.

Lemma keeps_run (sem : LoopVar) (fuel : nat) (m : Mission) (sb : ShipBot.t) :
  ShipBot.priorities sb = [] -> keeps (run sem fuel m sb) anything.
Proof.
  intros Hsb. destruct m; cbn [run].
  - unfold SellCargo. eapply keeps_bind; [apply keeps_sell_loop, Hsb|].
    intros sb' Hsb'. apply keeps_send, Hsb'.
  - apply keeps_DockShip, Hsb.
  - apply keeps_NavigateToNearestWaypointWithTrait, Hsb.
  - unfold ExtractResources. eapply keeps_bind; [apply keeps_extract_loop, Hsb|].
    intros sb' Hsb'. apply keeps_send, Hsb'.
  - apply keeps_NavigateToNearestWaypointOfType, Hsb.
Qed.

Lemma keeps_forM_ {A} (l : list A) (body : A -> M unit) :
  (forall a, keeps (body a) anything) -> keeps (forM_ l body) anything.
Proof.
  intros H. induction l as [|a rest IH]; cbn [forM_].
  - apply keeps_ret. exact I.
  - eapply keeps_bind; [apply H|]. intros _ _. exact IH.
Qed.

Lemma keeps_NavigateShip (sb : ShipBot.t) (waypointSymbol : string) :
  keeps (NavigateShip sb waypointSymbol) anything.
Proof.
  unfold NavigateShip, andM, when.
  eapply keeps_bind with (P := anything); [keeps_steps|].
  intros here _. keeps_steps.
Qed.

Lemma keeps_InitiateRequisitionProtocol (sb : ShipBot.t) :
  keeps (InitiateRequisitionProtocol sb) anything.
Proof.
  unfold InitiateRequisitionProtocol.
  eapply keeps_bind; [apply keeps_logf|]. intros _ _.
  eapply keeps_bind; [apply keeps_logf|]. intros _ _.
  eapply keeps_bind with (P := anything).
  { unfold FindWaypointsByTrait. keeps_steps. }
  intros [waypoints err] _. keeps_steps.
  apply keeps_forM_. intros waypoint.
  eapply keeps_bind; [apply keeps_logf|]. intros _ _. apply keeps_NavigateShip.
Qed.

Lemma keeps_wake (ship : Ship.t) (agent : Agent.t) : keeps (wake ship agent) anything.
Proof.
  unfold wake.
  eapply keeps_bind; [apply keeps_logf|]. intros _ _.
  eapply keeps_bind with (P := anything).
  { unfold GetShipCooldown. keeps_steps. }
  intros [cooldown err] _. keeps_steps.
Qed.

Lemma keeps_launch (contracts : list Contract.t) (agent : Agent.t)
    (ships turns : list Ship.t) :
  keeps (launch contracts agent ships turns) anything.
Proof.
  unfold launch, wg_Wait.
  do 3 (eapply keeps_bind; [apply keeps_logf|]; intros _ _).
  eapply keeps_bind with (P := anything).
  - destruct ships as [|ship rest]; [apply keeps_ret; exact I|].
    eapply keeps_bind; [apply keeps_logf|]. intros _ _.
    apply keeps_InitiateRequisitionProtocol.
  - intros _ _. eapply keeps_bind with (P := anything).
    + apply keeps_forM_. intros ship. apply keeps_wake.
    + intros _ _. apply keeps_ret. exact I.
Qed.

(** With no priority the loop takes the other branch for every good. *)
Lemma sell_inventory_plain_eq (inventory : list ShipCargoItem.t) :
  forall sb w, ShipBot.priorities sb = [] ->
  sell_inventory sb inventory w = sell_inventory_plain sb inventory w.
Proof.
  induction inventory as [|good rest IH]; intros sb w Hsb;
    cbn [sell_inventory sell_inventory_plain]; [reflexivity|].
  rewrite Hsb. cbn [Contains]. unfold bind.
  destruct (Info _ w) as [? w1| |]; try reflexivity.
  destruct (client_SellCargo _ _ _ w1) as [[res err] w2| |]; try reflexivity.
  destruct (isErr err); [reflexivity|].
  destruct (deref res w2) as [res' w3| |]; try reflexivity.
  destruct (Info _ w3) as [? w4| |]; try reflexivity.
  destruct (Info _ w4) as [? w5| |]; try reflexivity.
  destruct (Info _ w5) as [? w6| |]; try reflexivity.
  apply IH. exact Hsb.
Qed.

Lemma sell_inventory_priorities (inventory : list ShipCargoItem.t) :
  forall sb w sb' w',
  sell_inventory sb inventory w = Returned sb' w' ->
  ShipBot.priorities sb' = ShipBot.priorities sb.
Proof.
  induction inventory as [|good rest IH]; intros sb w sb' w' Hrun.
  - cbn in Hrun. injection Hrun as <- _. reflexivity.
  - cbn [sell_inventory] in Hrun. unfold bind in Hrun.
    destruct (Contains _ _);
      destruct (Info _ w) as [? w1| |]; try discriminate;
      destruct (client_SellCargo _ _ _ w1) as [[res err] w2| |]; try discriminate;
      destruct (isErr err);
      try (destruct (Error _ w2) as [? w3| |]; try discriminate;
           cbn in Hrun; injection Hrun as <- _; reflexivity);
      destruct (deref res w2) as [res' w3| |]; try discriminate;
      destruct (Info _ w3) as [? w4| |]; try discriminate;
      destruct (Info _ w4) as [? w5| |]; try discriminate;
      destruct (Info _ w5) as [? w6| |]; try discriminate;
      apply (IH (sold sb res') w6 sb' w' Hrun).
Qed.

Lemma sell_loop_plain_eq (fuel : nat) :
  forall sb w, ShipBot.priorities sb = [] ->
  sell_loop fuel sb w = sell_loop_plain fuel sb w.
Proof.
  induction fuel as [|fuel IH]; intros sb w Hsb;
    cbn [sell_loop sell_loop_plain]; [reflexivity|].
  destruct (_ >? 0); [|reflexivity].
  unfold bind. rewrite <- sell_inventory_plain_eq by exact Hsb.
  destruct (sell_inventory sb (ShipCargo.Inventory (shipCargo sb)) w)
    as [sb' w'| |] eqn:Hrun; try reflexivity.
  apply IH. rewrite (sell_inventory_priorities _ _ _ _ _ Hrun). exact Hsb.
Qed.

Lemma keeps_ends {A} (m : M A) (Q : A -> Prop) (w : World.t) :
  keeps m Q -> unprioritised w -> ends_unprioritised (m w).
Proof.
  intros Hm Hw. specialize (Hm w Hw). unfold ends_unprioritised.
  destruct (m w); [destruct Hm; assumption | exact Hm | exact I].
Qed.

(** C10: NewShipBot leaves the priority list empty; the start of the fleet,
    whatever the contracts and so whatever DeterminePriorities computes, and
    every mission of a ShipBot without priorities send only ShipBots without
    priorities on the channel, so no ShipBot ever has one; for such a ShipBot
    the membership test is false for every good, and SellCargo runs exactly
    as the loop without the priority branch. *)
Theorem priorities_are_never_set :
  (forall ship agent, ShipBot.priorities (NewShipBot ship agent) = [])
  /\ (forall contracts agent ships turns w,
        unprioritised w ->
        ends_unprioritised (launch contracts agent ships turns w))
  /\ (forall sem fuel m sb w,
        ShipBot.priorities sb = [] -> unprioritised w ->
        ends_unprioritised (run sem fuel m sb w))
  /\ (forall sb good,
        ShipBot.priorities sb = [] ->
        Contains (ShipBot.priorities sb) (ShipCargoItem.Symbol good) = false)
  /\ (forall fuel sb w,
        ShipBot.priorities sb = [] ->
        SellCargo fuel sb w = SellCargo_plain fuel sb w).
Proof.
  split; [reflexivity|]. split; [|split; [|split]].
  - intros contracts agent ships turns w Hw.
    eapply keeps_ends; [apply keeps_launch | exact Hw].
  - intros sem fuel m sb w Hsb Hw.
    eapply keeps_ends; [apply keeps_run, Hsb | exact Hw].
  - intros sb good ->. reflexivity.
  - intros fuel sb w Hsb. unfold SellCargo, SellCargo_plain, bind.
    rewrite sell_loop_plain_eq by exact Hsb. reflexivity.
Qed.

(** The seller selling its one line. *)
Lemma priorities_are_never_set_witness :
  ends_unprioritised (run PerLoop 3 GoSellCargo seller (world_with [sale 1500]))
  /\ SellCargo 3 seller (world_with [sale 1500])
     = SellCargo_plain 3 seller (world_with [sale 1500]).
Proof.
  split.
  - apply (proj1 (proj2 (proj2 priorities_are_never_set))
             PerLoop 3%nat GoSellCargo seller (world_with [sale 1500]));
      [reflexivity | constructor].
  - apply (proj2 (proj2 (proj2 (proj2 priorities_are_never_set)))
             3%nat seller (world_with [sale 1500])).
    reflexivity.
Defined.

(** * Further properties of the code *)

(** ** [lib.Contains] and [DeterminePriorities] *)

Lemma Contains_true_In (elems : list string) (v : string) :
  Contains elems v = true <-> In v elems.
Proof.
  induction elems as [|s rest IH]; cbn [Contains In].
  - split; [discriminate | contradiction].
  - destruct (String.eqb v s) eqn:Heq.
    + apply String.eqb_eq in Heq. subst s. split; auto.
    + apply String.eqb_neq in Heq. rewrite IH. split; [auto|].
      intros [H | H]; [congruence | exact H].
Qed.

(** X1: Contains answers membership: it is true exactly when the string is
    an element of the slice, and so false on the empty slice. *)
Theorem Contains_iff_In (elems : list string) (v : string) :
  (Contains elems v = true <-> In v elems)
  /\ (Contains elems v = false <-> ~ In v elems).
Proof.
  split; [apply Contains_true_In|].
  rewrite <- Contains_true_In. destruct (Contains elems v); split;
    congruence.
Qed.

Lemma collect_goods (goods : list ContractDeliverGood.t) :
  forall priorities,
  NoDup priorities ->
  let priorities' :=
    fold_left
      (fun priorities good =>
         if negb (Contains priorities (ContractDeliverGood.TradeSymbol good))
         then priorities ++ [ContractDeliverGood.TradeSymbol good]
         else priorities)
      goods priorities in
  NoDup priorities'
  /\ forall s, In s priorities'
               <-> In s priorities
                   \/ exists good, In good goods
                                   /\ ContractDeliverGood.TradeSymbol good = s.
Proof.
  induction goods as [|good rest IH]; intros priorities Hnodup; cbn [fold_left].
  - split; [exact Hnodup|]. intros s. split; [auto|].
    intros [H | (good & [] & _)]. exact H.
  - set (next := if negb _ then _ else _).
    assert (Hnext : NoDup next
                    /\ forall s, In s next
                                 <-> In s priorities
                                     \/ ContractDeliverGood.TradeSymbol good = s).
    { subst next.
      destruct (Contains priorities (ContractDeliverGood.TradeSymbol good)) eqn:Hc;
        cbn [negb].
      - apply Contains_true_In in Hc. split; [exact Hnodup|].
        intros s. split; [auto|]. intros [H | <-]; assumption.
      - assert (Hnot : ~ In (ContractDeliverGood.TradeSymbol good) priorities).
        { rewrite <- Contains_true_In. congruence. }
        split.
        + apply NoDup_app; [exact Hnodup | repeat constructor; intros [] |].
          intros x Hx [<- | []]. contradiction.
        + intros s. rewrite in_app_iff. cbn [In]. tauto. }
    destruct Hnext as [Hnd Hin].
    destruct (IH next Hnd) as [Hnd' Hin']. split; [exact Hnd'|].
    intros s. rewrite Hin', Hin. cbn [In]. split.
    + intros [[H | H] | (g & Hg & Hs)]; eauto.
    + intros [H | (g & [<- | Hg] & Hs)]; eauto.
Qed.

Lemma collect_contracts (contracts : list Contract.t) :
  forall priorities,
  NoDup priorities ->
  let priorities' :=
    fold_left
      (fun priorities contract =>
         fold_left
           (fun priorities good =>
              if negb (Contains priorities (ContractDeliverGood.TradeSymbol good))
              then priorities ++ [ContractDeliverGood.TradeSymbol good]
              else priorities)
           (Contract.Deliver contract) priorities)
      contracts priorities in
  NoDup priorities'
  /\ forall s, In s priorities'
               <-> In s priorities
                   \/ exists contract good,
                        In contract contracts
                        /\ In good (Contract.Deliver contract)
                        /\ ContractDeliverGood.TradeSymbol good = s.
Proof.
  induction contracts as [|contract rest IH]; intros priorities Hnodup;
    cbn [fold_left].
  - split; [exact Hnodup|]. intros s. split; [auto|].
    intros [H | (contract & good & [] & _)]. exact H.
  - destruct (collect_goods (Contract.Deliver contract) priorities Hnodup)
      as [Hnd Hin].
    destruct (IH _ Hnd) as [Hnd' Hin']. split; [exact Hnd'|].
    intros s. rewrite Hin', Hin. cbn [In]. split.
    + intros [[H | (g & Hg & Hs)] | (c & g & Hc & Hg & Hs)]; eauto 8.
    + intros [H | (c & g & [<- | Hc] & Hg & Hs)]; eauto 8.
Qed.

(** X2: DeterminePriorities lists every trade symbol that some contract
    asks to deliver, each once, and nothing else. *)
Theorem DeterminePriorities_collects (contracts : list Contract.t) :
  NoDup (DeterminePriorities contracts)
  /\ forall s, In s (DeterminePriorities contracts)
               <-> exists contract good,
                     In contract contracts
                     /\ In good (Contract.Deliver contract)
                     /\ ContractDeliverGood.TradeSymbol good = s.
Proof.
  destruct (collect_contracts contracts [] (NoDup_nil _)) as [Hnd Hin].
  split; [exact Hnd|]. intros s. unfold DeterminePriorities.
  rewrite Hin. cbn [In]. tauto.
Qed.

(** ** [lib.Distance] and [lib.NearestWaypoint] *)

Lemma mul_opp_opp (a : float) : (- a * - a)%float = (a * a)%float.
Proof.
  apply Prim2SF_inj. rewrite !mul_spec, !opp_spec.
  destruct (Prim2SF a) as [s|s| |s m e]; try destruct s; reflexivity.
Qed.

Lemma wrap64_opp (a : Z) :
  (wrap64 (- a) = wrap64 a /\ wrap64 a = - 2 ^ 63)
  \/ (wrap64 (- a) = - wrap64 a /\ - 2 ^ 63 < wrap64 a < 2 ^ 63).
Proof.
  unfold wrap64.
  change (2 ^ 63) with 9223372036854775808.
  change (2 ^ 64) with 18446744073709551616.
  Z.div_mod_to_equations. lia.
Qed.

Lemma square_of_opposite (w : Z) :
  - 2 ^ 63 < w < 2 ^ 63 ->
  (float64_of_int (- w) * float64_of_int (- w))%float
  = (float64_of_int w * float64_of_int w)%float.
Proof.
  change (2 ^ 63) with 9223372036854775808. intros Hw.
  unfold float64_of_int. change (2 ^ 63) with 9223372036854775808.
  destruct (Z.lt_trichotomy w 0) as [Hneg | [-> | Hpos]].
  - rewrite !(proj2 (Z.eqb_neq _ _)) by lia.
    replace (- w <? 0) with false by (symmetry; apply Z.ltb_ge; lia).
    replace (w <? 0) with true by (symmetry; apply Z.ltb_lt; lia).
    cbv iota. rewrite mul_opp_opp. reflexivity.
  - reflexivity.
  - rewrite !(proj2 (Z.eqb_neq _ _)) by lia.
    replace (- w <? 0) with true by (symmetry; apply Z.ltb_lt; lia).
    replace (w <? 0) with false by (symmetry; apply Z.ltb_ge; lia).
    cbv iota. rewrite Z.opp_involutive, mul_opp_opp. reflexivity.
Qed.

Lemma square_of_difference (a b : Z) :
  (float64_of_int (wrap64 (b - a)) * float64_of_int (wrap64 (b - a)))%float
  = (float64_of_int (wrap64 (a - b)) * float64_of_int (wrap64 (a - b)))%float.
Proof.
  replace (b - a) with (- (a - b)) by lia.
  destruct (wrap64_opp (a - b)) as [[-> _] | [-> Hw]]; [reflexivity|].
  apply square_of_opposite. exact Hw.
Qed.

(** X3: Distance is symmetric, for all coordinates (wrapped differences
    included), and the distance of a point to itself is zero. *)
Theorem Distance_symmetric (c1 c2 : Coordinate.t) :
  Distance c1 c2 = Distance c2 c1 /\ Distance c1 c1 = 0%float.
Proof.
  unfold Distance. split.
  - cbv zeta. rewrite (square_of_difference (Coordinate.x c1) (Coordinate.x c2)).
    rewrite (square_of_difference (Coordinate.y c1) (Coordinate.y c2)).
    reflexivity.
  - rewrite !Z.sub_diag. reflexivity.
Qed.

Lemma last_In {A} (l : list A) (d : A) : l <> [] -> In (last l d) l.
Proof.
  induction l as [|a rest IH]; intros Hne; [congruence|].
  destruct rest as [|b rest']; [left; reflexivity|].
  right. apply IH. discriminate.
Qed.

Lemma NearestWaypoint_of_candidates (sem : LoopVar)
    (currentWaypoint : Waypoint.t) (waypoints : list Waypoint.t) :
  waypoints <> [] ->
  exists nearest,
    NearestWaypoint sem currentWaypoint waypoints = (Some nearest, None)
    /\ In nearest waypoints.
Proof.
  intros Hne. destruct sem.
  - exists (last waypoints currentWaypoint). split.
    + apply NearestWaypoint_PerLoop. exact Hne.
    + apply last_In. exact Hne.
  - destruct (NearestWaypoint_PerIteration currentWaypoint waypoints Hne)
      as (k & r & Hrun & Hk & _).
    exists r. split; [exact Hrun|]. eapply nth_error_In. exact Hk.
Qed.

(** X4: NearestWaypoint fails exactly on the empty candidate list; on any
    other list it returns no error and one of the candidates, with either
    meaning of the range variable. *)
Theorem NearestWaypoint_gives_candidate (sem : LoopVar)
    (currentWaypoint : Waypoint.t) (waypoints : list Waypoint.t) :
  match waypoints with
  | [] => NearestWaypoint sem currentWaypoint waypoints
          = (None, Some "no nearest waypoint found")
  | _ :: _ => exists nearest,
                NearestWaypoint sem currentWaypoint waypoints = (Some nearest, None)
                /\ In nearest waypoints
  end.
Proof.
  destruct waypoints as [|v rest] eqn:Hws; [reflexivity|].
  apply NearestWaypoint_of_candidates. discriminate.
Qed.

(** ** The throttle and the client *)

(** X5: when nothing delays the caller, Wait returns at the later of the
    clock at entry and the last stamp plus [timeToWait]: it sleeps the
    remainder of the interval and no longer, stamps that instant, and leaves
    everything else as it was. *)
Theorem Wait_sleeps_the_remainder (w : World.t) :
  World.lag w = [] ->
  exists w',
    Wait w = Returned tt w'
    /\ World.now w'
       = Z.max (World.now w)
               (Throttle.LastRequestTime (World.throttle w)
                + timeToWait (Throttle.MaxRequestsPerSecond (World.throttle w)))
    /\ World.throttle w'
       = Throttle.mk (Throttle.MaxRequestsPerSecond (World.throttle w)) (World.now w')
    /\ World.lag w' = []
    /\ World.replies w' = World.replies w
    /\ World.requests w' = World.requests w
    /\ World.journal w' = World.journal w
    /\ World.sbCh w' = World.sbCh w.
Proof.
  destruct w as [now_ lag_ [R last_] replies_ requests_ journal_ sbCh_].
  cbn [World.lag]. intros ->.
  unfold Wait, bind, tick, getThrottle, time_Now, bind, tick, when. cbn.
  destruct (now_ - last_ <? timeToWait R) eqn:Hlt.
  - apply Z.ltb_lt in Hlt. cbn. eexists. split; [reflexivity|]. cbn.
    repeat split. lia.
  - apply Z.ltb_ge in Hlt. cbn. eexists. split; [reflexivity|]. cbn.
    repeat split. lia.
Qed.

(** Two requests per second, last request at clock 100, called at 300. *)
Lemma Wait_sleeps_the_remainder_witness :
  exists w',
    Wait (World.mk 300 [] (Throttle.mk 2 100) [] [] [] []) = Returned tt w'
    /\ World.now w'
       = Z.max (World.now (World.mk 300 [] (Throttle.mk 2 100) [] [] [] []))
               (Throttle.LastRequestTime
                  (World.throttle (World.mk 300 [] (Throttle.mk 2 100) [] [] [] []))
                + timeToWait
                    (Throttle.MaxRequestsPerSecond
                       (World.throttle (World.mk 300 [] (Throttle.mk 2 100) [] [] [] []))))
    /\ World.throttle w'
       = Throttle.mk
           (Throttle.MaxRequestsPerSecond
              (World.throttle (World.mk 300 [] (Throttle.mk 2 100) [] [] [] [])))
           (World.now w')
    /\ World.lag w' = []
    /\ World.replies w' = World.replies (World.mk 300 [] (Throttle.mk 2 100) [] [] [] [])
    /\ World.requests w' = World.requests (World.mk 300 [] (Throttle.mk 2 100) [] [] [] [])
    /\ World.journal w' = World.journal (World.mk 300 [] (Throttle.mk 2 100) [] [] [] [])
    /\ World.sbCh w' = World.sbCh (World.mk 300 [] (Throttle.mk 2 100) [] [] [] []).
Proof.
  apply (Wait_sleeps_the_remainder (World.mk 300 [] (Throttle.mk 2 100) [] [] [] [])).
  reflexivity.
Defined.

Lemma decode_shape {T} (pick : Reply -> option T) (r : option Reply) :
  exists value err,
    decode pick r = (value, err)
    /\ (value = None <-> err <> None)
    /\ (r = None -> value = None).
Proof.
  destruct r as [[]|]; cbn [decode];
    try match goal with |- context [pick ?r] => destruct (pick r) end;
    eexists _, _; (split; [reflexivity|]); (split; [split|]); congruence.
Qed.

(** X6: a client method lets the throttle admit it, at least [timeToWait]
    after the previous stamp, then issues exactly one request, no earlier
    than its stamp, and takes the next reply, if there is one; it neither
    logs nor sends on the channel.  On a rejection a method that registered
    an error object and asserts a pointer to it returns no value and the
    remote message, and every other method panics in its type assertion; on
    any other outcome every method returns either a value and no error or no
    value and an error. *)
Theorem client_call_contract {T} (c : Call) (registered : ErrorObject)
    (asserted : Asserted) (pick : Reply -> option T) (w : World.t) :
  exists w',
    World.replies w' = tl (World.replies w)
    /\ (exists t, World.requests w' = World.requests w ++ [(t, c)]
                  /\ Throttle.LastRequestTime (World.throttle w') <= t <= World.now w')
    /\ Throttle.LastRequestTime (World.throttle w)
       + timeToWait (Throttle.MaxRequestsPerSecond (World.throttle w))
       <= Throttle.LastRequestTime (World.throttle w')
    /\ World.journal w' = World.journal w
    /\ World.sbCh w' = World.sbCh w
    /\ match hd_error (World.replies w), registered, asserted with
       | Some (RError message), ErrorResponsePointer, AsPointer =>
           call c registered asserted pick w = Returned (None, Some message) w'
       | Some (RError _), NoErrorObject, AsPointer =>
           call c registered asserted pick w
           = Panicked "interface conversion: interface {} is nil, not *api.ErrorResponse" w'
       | Some (RError _), ErrorResponsePointer, AsValue =>
           call c registered asserted pick w
           = Panicked
               "interface conversion: interface {} is *api.ErrorResponse, not api.ErrorResponse"
               w'
       | Some (RError _), NoErrorObject, AsValue =>
           call c registered asserted pick w
           = Panicked "interface conversion: interface {} is nil, not api.ErrorResponse" w'
       | answered, _, _ =>
           exists value err,
             call c registered asserted pick w = Returned (value, err) w'
             /\ (value = None <-> err <> None)
             /\ (answered = None -> value = None)
       end.
Proof.
  destruct (call_roundtrip c registered asserted pick w)
    as (w' & Hrun & Hr & (t & Hq & Ht & Hstamp) & _ & Hgap & Hj & Hs).
  exists w'. split; [exact Hr|].
  split; [exists t; split; [exact Hq|]; lia|].
  split; [exact Hgap|]. split; [exact Hj|]. split; [exact Hs|].
  rewrite Hrun.
  destruct (hd_error (World.replies w)) as [r|] eqn:Hhd; [destruct r|];
    try (destruct registered, asserted; reflexivity);
    rewrite answer_not_rejected by (intros message' Hrejected; discriminate);
    match goal with
    | |- context [decode pick ?r] =>
        destruct (decode_shape pick r) as (value & err & -> & Hshape & Hnone)
    end;
    exists value, err; (split; [reflexivity|]); split; assumption.
Qed.

(** ** Every request goes through the throttle *)

Lemma paced_requests_quiet (w w' : World.t) :
  World.throttle w' = World.throttle w ->
  World.requests w' = World.requests w ->
  paced_requests w w'.
Proof.
  intros Ht Hq. unfold paced_requests. rewrite Ht. split; [reflexivity|].
  exists []. rewrite app_nil_r. split; [exact Hq|]. split.
  - intros [|k] t c H; discriminate H.
  - cbn [length]. lia.
Qed.

Lemma paced_requests_trans (w1 w2 w3 : World.t) :
  paced_requests w1 w2 -> paced_requests w2 w3 -> paced_requests w1 w3.
Proof.
  unfold paced_requests.
  intros (HR1 & added1 & Hq1 & Hk1 & Hs1) (HR2 & added2 & Hq2 & Hk2 & Hs2).
  rewrite HR1 in *. split; [exact HR2|].
  exists (added1 ++ added2). split; [rewrite Hq2, Hq1, app_assoc; reflexivity|].
  split.
  - intros k t c Hnth.
    destruct (Nat.lt_ge_cases k (length added1)) as [Hlt|Hge].
    + rewrite nth_error_app1 in Hnth by exact Hlt. eapply Hk1. exact Hnth.
    + rewrite nth_error_app2 in Hnth by exact Hge.
      specialize (Hk2 _ _ _ Hnth).
      replace (Z.of_nat (S k))
        with (Z.of_nat (length added1) + Z.of_nat (S (k - length added1)))
        by lia.
      lia.
  - rewrite length_app, Nat2Z.inj_add. lia.
Qed.

Lemma throttled_ret {A} (a : A) : throttled (ret a).
Proof. intros w. apply paced_requests_quiet; reflexivity. Qed.

Lemma throttled_panic {A} (msg : string) : throttled (@panic A msg).
Proof. intros w. apply paced_requests_quiet; reflexivity. Qed.

Lemma throttled_bind {A B} (m : M A) (k : A -> M B) :
  throttled m -> (forall a, throttled (k a)) -> throttled (bind m k).
Proof.
  intros Hm Hk w. specialize (Hm w). unfold bind.
  destruct (m w) as [a w'|msg w'|]; [|exact Hm|exact I].
  specialize (Hk a w'). cbn in Hm.
  destruct (k a w') as [b w''|msg w''|]; cbn in *;
    [| |exact I]; eapply paced_requests_trans; eassumption.
Qed.

(** A step that returns and leaves the throttle and the request log alone. *)
Lemma throttled_quiet {A} (m : M A) :
  (forall w, exists a w', m w = Returned a w'
                          /\ World.throttle w' = World.throttle w
                          /\ World.requests w' = World.requests w) ->
  throttled m.
Proof.
  intros H w. destruct (H w) as (a & w' & -> & Ht & Hq).
  apply paced_requests_quiet; assumption.
Qed.

Lemma throttled_tick : throttled tick.
Proof.
  apply throttled_quiet. intros w. unfold tick.
  destruct (World.lag w); eexists _, _; repeat split; reflexivity.
Qed.

Lemma throttled_logf (l : Level) (msg : string) : throttled (logf l msg).
Proof. apply throttled_quiet. intros w. eexists _, _; repeat split; reflexivity. Qed.

Lemma throttled_send (sb : ShipBot.t) : throttled (send sb).
Proof. apply throttled_quiet. intros w. eexists _, _; repeat split; reflexivity. Qed.

Lemma throttled_now : throttled time_Now.
Proof.
  unfold time_Now. apply throttled_bind; [apply throttled_tick|]. intros _.
  apply throttled_quiet. intros w. eexists _, _; repeat split; reflexivity.
Qed.

Lemma throttled_Sleep (d : Z) : throttled (time_Sleep d).
Proof.
  apply throttled_quiet. intros w. unfold time_Sleep, tick. cbn.
  destruct (World.lag w); eexists _, _; repeat split; reflexivity.
Qed.

Lemma throttled_deref {A} (p : option A) : throttled (deref p).
Proof. destruct p; [apply throttled_ret | apply throttled_panic]. Qed.

Lemma throttled_index0 {A} (l : list A) : throttled (index0 l).
Proof. destruct l; [apply throttled_panic | apply throttled_ret]. Qed.

Lemma throttled_when_log (b : bool) (l : Level) (msg : string) :
  throttled (when b (logf l msg)).
Proof. destruct b; [apply throttled_logf | apply throttled_ret]. Qed.

(** The one request of a client method follows its admission. *)
Lemma throttled_call {T} (c : Call) (registered : ErrorObject)
    (asserted : Asserted) (pick : Reply -> option T) :
  throttled (call c registered asserted pick).
Proof.
  intros w.
  destruct (call_roundtrip c registered asserted pick w)
    as (w' & -> & _ & (t & Hq & _ & Hstamp) & HR & Hgap & _ & _).
  assert (Hpaced : paced_requests w w').
  { unfold paced_requests. split; [exact HR|].
    exists [(t, c)]. split; [exact Hq|]. split.
    - intros [|[|k]] t' c' Hnth; try discriminate Hnth.
      injection Hnth as <- <-. lia.
    - cbn [length]. lia. }
  unfold answer.
  destruct (hd_error (World.replies w)) as [[]|]; try exact Hpaced.
  unfold assert_ErrorResponse, bind.
  destruct registered, asserted; exact Hpaced.
Qed.

Create HintDb throttled.
#[local] Hint Resolve throttled_ret throttled_panic throttled_tick throttled_logf
  throttled_send throttled_now throttled_Sleep throttled_deref throttled_index0
  throttled_when_log throttled_call : throttled.

(** Takes a run apart, step by step. *)
Ltac throttled_steps :=
  repeat first
    [ solve [unfold Info, Error, client_SellCargo, client_DockShip,
             client_ExtractResources, client_NavigateShip,
             client_ListWaypoints, client_GetShipCooldown, client_GetWaypoint;
             auto with throttled]
    | apply throttled_bind; [ | intros ? ]
    | match goal with
      | |- throttled (match ?x with (_, _) => _ end) => destruct x
      | |- throttled (if ?b then _ else _) => destruct b
      | |- throttled (when ?b _) => destruct b; cbn [when]
      end ].

Lemma throttled_WaitUntilArrival (sb : ShipBot.t) : throttled (WaitUntilArrival sb).
Proof. unfold WaitUntilArrival. throttled_steps. Qed.

Lemma throttled_WaitUntilCooldown (sb : ShipBot.t) : throttled (WaitUntilCooldown sb).
Proof. unfold WaitUntilCooldown. throttled_steps. Qed.

#[local] Hint Resolve throttled_WaitUntilArrival throttled_WaitUntilCooldown : throttled.

Lemma throttled_sell_inventory (inventory : list ShipCargoItem.t) :
  forall sb, throttled (sell_inventory sb inventory).
Proof.
  induction inventory as [|good rest IH]; intros sb; cbn [sell_inventory];
    throttled_steps.
Qed.

Lemma throttled_sell_loop (fuel : nat) : forall sb, throttled (sell_loop fuel sb).
Proof.
  induction fuel as [|fuel IH]; intros sb; cbn [sell_loop].
  - intros w. exact I.
  - destruct (_ >? 0).
    + apply throttled_bind; [apply throttled_sell_inventory | exact IH].
    + throttled_steps.
Qed.

Lemma throttled_extract_loop (fuel : nat) : forall sb, throttled (extract_loop fuel sb).
Proof.
  induction fuel as [|fuel IH]; intros sb; cbn [extract_loop].
  - intros w. exact I.
  - throttled_steps.
Qed.

Lemma throttled_run (sem : LoopVar) (fuel : nat) (m : Mission) (sb : ShipBot.t) :
  throttled (run sem fuel m sb).
Proof.
  destruct m; cbn [run].
  - unfold SellCargo. apply throttled_bind; [apply throttled_sell_loop|].
    intros sb'. apply throttled_send.
  - unfold DockShip. throttled_steps.
  - unfold NavigateToNearestWaypointWithTrait. throttled_steps.
  - unfold ExtractResources. apply throttled_bind; [apply throttled_extract_loop|].
    intros sb'. apply throttled_send.
  - unfold NavigateToNearestWaypointOfType. throttled_steps.
Qed.

Lemma throttled_IsAtWaypointWithTrait (sb : ShipBot.t) (trait : string) :
  throttled (IsAtWaypointWithTrait sb trait).
Proof. unfold IsAtWaypointWithTrait. throttled_steps. Qed.

Lemma throttled_IsAtWaypointOfType (sb : ShipBot.t) (waypointType : string) :
  throttled (IsAtWaypointOfType sb waypointType).
Proof. unfold IsAtWaypointOfType. throttled_steps. Qed.

Lemma throttled_goroutines (sem : LoopVar) (fuel : nat) (pending : list Mission) :
  forall sb, throttled (goroutines sem fuel pending sb).
Proof.
  induction pending as [|m rest IH]; intros sb; cbn [goroutines].
  - apply throttled_ret.
  - apply throttled_bind; [|exact IH].
    unfold goroutine. apply throttled_bind; [apply throttled_run|]. intros _.
    apply throttled_quiet. intros w. eexists _, _; repeat split; reflexivity.
Qed.

Lemma throttled_catch_up (sem : LoopVar) (fuel : nat) (turn : bool)
    (pending : list Mission) (sb : ShipBot.t) :
  throttled (catch_up sem fuel turn pending sb).
Proof.
  unfold catch_up. destruct turn; [|apply throttled_ret].
  apply throttled_bind; [apply throttled_goroutines|]. intros sb'.
  apply throttled_ret.
Qed.

#[local] Hint Resolve throttled_IsAtWaypointWithTrait throttled_IsAtWaypointOfType
  throttled_catch_up : throttled.

Lemma throttled_command (sem : LoopVar) (fuel : nat) (schedule : Schedule)
    (sb : ShipBot.t) :
  throttled (command sem fuel schedule sb).
Proof. unfold command, andM. throttled_steps. Qed.

Lemma throttled_forM_ {A} (l : list A) (body : A -> M unit) :
  (forall a, throttled (body a)) -> throttled (forM_ l body).
Proof.
  intros H. induction l as [|a rest IH]; cbn [forM_].
  - apply throttled_ret.
  - apply throttled_bind; [apply H | intros _; exact IH].
Qed.

Lemma throttled_NavigateShip (sb : ShipBot.t) (waypointSymbol : string) :
  throttled (NavigateShip sb waypointSymbol).
Proof. unfold NavigateShip, andM. throttled_steps. Qed.

Lemma throttled_InitiateRequisitionProtocol (sb : ShipBot.t) :
  throttled (InitiateRequisitionProtocol sb).
Proof.
  unfold InitiateRequisitionProtocol, FindWaypointsByTrait. throttled_steps.
  apply throttled_forM_. intros waypoint.
  apply throttled_bind; [apply throttled_logf|]. intros _.
  apply throttled_NavigateShip.
Qed.

Lemma throttled_launch (contracts : list Contract.t) (agent : Agent.t)
    (ships turns : list Ship.t) :
  throttled (launch contracts agent ships turns).
Proof.
  unfold launch, wg_Wait.
  do 3 (apply throttled_bind; [apply throttled_logf|]; intros _).
  apply throttled_bind.
  - destruct ships as [|ship rest]; [apply throttled_ret|].
    apply throttled_bind; [apply throttled_logf|]. intros _.
    apply throttled_InitiateRequisitionProtocol.
  - intros _. apply throttled_bind; [|intros _; apply throttled_ret].
    apply throttled_forM_. intros ship.
    unfold wake, GetShipCooldown. throttled_steps.
Qed.

(** X7: every request of every mission, of the command loop and of the
    start of the fleet follows an admission of its own by the throttle,
    however the run ends: counted from the throttle's stamp at the start of
    the run, the k-th request of the run (from 0) is issued no earlier than
    k + 1 intervals later, and n requests move the stamp on by at least n
    intervals; for a rate of R >= 1 requests per second the interval is
    10^9 / R whole nanoseconds. *)
Theorem every_request_is_throttled :
  (forall sem fuel m sb w, ends_throttled w (run sem fuel m sb w))
  /\ (forall sem fuel schedule sb w,
        ends_throttled w (command sem fuel schedule sb w))
  /\ (forall contracts agent ships turns w,
        ends_throttled w (launch contracts agent ships turns w))
  /\ (forall R, 0 < R -> timeToWait R = 1000000000 / R).
Proof.
  split; [|split; [|split]].
  - intros sem fuel m sb. apply throttled_run.
  - intros sem fuel schedule sb. apply throttled_command.
  - intros contracts agent ships turns. apply throttled_launch.
  - intros R HR. apply timeToWait_floor. exact HR.
Qed.

(** ** Waiting for arrival and for the cooldown *)

Lemma lag_nonneg (lag : list N) :
  0 <= fold_right (fun d total => Z.of_N d + total) 0 lag.
Proof. induction lag as [|d rest IH]; cbn [fold_right]; lia. Qed.

(** X8: WaitUntilArrival always returns, at or after the arrival time of
    the ship's route and no later than the later of the clock at entry and
    that arrival time, plus the delays on the way: it does not wait when the
    arrival has passed and sleeps up to it otherwise.  It issues no request
    and sends nothing. *)
Theorem WaitUntilArrival_awaits (sb : ShipBot.t) (w : World.t) :
  exists w',
    WaitUntilArrival sb w = Returned tt w'
    /\ arrival sb <= World.now w' <= Z.max (World.now w) (arrival sb) + delay w
    /\ World.now w <= World.now w'
    /\ World.throttle w' = World.throttle w
    /\ World.replies w' = World.replies w
    /\ World.requests w' = World.requests w
    /\ World.sbCh w' = World.sbCh w.
Proof.
  destruct w as [now_ lag_ throttle_ replies_ requests_ journal_ sbCh_].
  unfold WaitUntilArrival, delay. generalize (arrival sb). intros eta.
  destruct lag_ as [|d1 [|d2 [|d3 rest]]];
    try pose proof (lag_nonneg rest) as Hrest;
    unfold bind, time_Now, bind, tick, Info, logf, time_Sleep, tick;
    cbn;
    match goal with
    | |- context [eta <? ?n] => destruct (Z.ltb_spec eta n)
    end;
    cbn;
    (eexists; split; [reflexivity|]);
    cbn; repeat split; lia.
Qed.

(** X9: WaitUntilCooldown of a ShipBot whose cooldown is known always
    returns, at or after the expiration and no later than the later of the
    clock at entry and the expiration, plus the delays on the way; it issues
    no request and sends nothing. *)
Theorem WaitUntilCooldown_awaits (sb : ShipBot.t) (c : Cooldown.t) (w : World.t) :
  ShipBot.cooldown sb = Some c ->
  exists w',
    WaitUntilCooldown sb w = Returned tt w'
    /\ Cooldown.Expiration c <= World.now w'
       <= Z.max (World.now w) (Cooldown.Expiration c) + delay w
    /\ World.now w <= World.now w'
    /\ World.throttle w' = World.throttle w
    /\ World.replies w' = World.replies w
    /\ World.requests w' = World.requests w
    /\ World.sbCh w' = World.sbCh w.
Proof.
  intros Hc.
  destruct w as [now_ lag_ throttle_ replies_ requests_ journal_ sbCh_].
  unfold WaitUntilCooldown, delay. rewrite Hc.
  destruct lag_ as [|d1 [|d2 [|d3 rest]]];
    try pose proof (lag_nonneg rest) as Hrest;
    unfold deref, ret, bind, time_Now, bind, tick, Info, logf, time_Sleep, tick;
    cbn;
    match goal with
    | |- context [Cooldown.Expiration c <? ?n] =>
        destruct (Z.ltb_spec (Cooldown.Expiration c) n)
    end;
    cbn;
    (eexists; split; [reflexivity|]);
    cbn; repeat split; lia.
Qed.

(** The drone, its cooldown run out at clock 0, called at clock 0. *)
Lemma WaitUntilCooldown_awaits_witness :
  exists w',
    WaitUntilCooldown drone (world_with []) = Returned tt w'
    /\ Cooldown.Expiration (Cooldown.mk 0) <= World.now w'
       <= Z.max (World.now (world_with [])) (Cooldown.Expiration (Cooldown.mk 0))
          + delay (world_with [])
    /\ World.now (world_with []) <= World.now w'
    /\ World.throttle w' = World.throttle (world_with [])
    /\ World.replies w' = World.replies (world_with [])
    /\ World.requests w' = World.requests (world_with [])
    /\ World.sbCh w' = World.sbCh (world_with []).
Proof.
  apply (WaitUntilCooldown_awaits drone (Cooldown.mk 0) (world_with [])).
  reflexivity.
Defined.

(** X10: a ShipBot whose cooldown is nil, as [main] leaves it when the
    cooldown lookup failed, makes WaitUntilCooldown panic on the nil
    pointer; ExtractResources then panics before any request and without
    reporting when the hold is not full, and reports at once, without a
    request, when it is full. *)
Theorem nil_cooldown_ends_extraction (fuel : nat) (sb : ShipBot.t) (w : World.t) :
  ShipBot.cooldown sb = None ->
  WaitUntilCooldown sb w = Panicked nil_dereference w
  /\ (IsFullOfCargo sb = false ->
      ExtractResources (S fuel) sb w = Panicked nil_dereference w)
  /\ (IsFullOfCargo sb = true ->
      exists w',
        ExtractResources (S fuel) sb w = Returned tt w'
        /\ World.sbCh w' = World.sbCh w ++ [sb]
        /\ World.requests w' = World.requests w).
Proof.
  intros Hc.
  assert (Hwait : WaitUntilCooldown sb w = Panicked nil_dereference w).
  { unfold WaitUntilCooldown. rewrite Hc. reflexivity. }
  split; [exact Hwait|]. split; intros Hfull.
  - unfold ExtractResources. cbn [extract_loop]. rewrite Hfull. cbn [negb].
    unfold bind at 1 2. rewrite Hwait. reflexivity.
  - unfold ExtractResources. cbn [extract_loop]. rewrite Hfull. cbn [negb].
    eexists. split; [reflexivity|]. split; reflexivity.
Qed.

(** A ship with room in its hold and no cooldown record. *)
Lemma nil_cooldown_ends_extraction_witness :
  WaitUntilCooldown (excavator 0 40 "IN_ORBIT") (world_with [yield 20 40 70])
  = Panicked nil_dereference (world_with [yield 20 40 70])
  /\ (IsFullOfCargo (excavator 0 40 "IN_ORBIT") = false ->
      ExtractResources 3 (excavator 0 40 "IN_ORBIT") (world_with [yield 20 40 70])
      = Panicked nil_dereference (world_with [yield 20 40 70]))
  /\ (IsFullOfCargo (excavator 0 40 "IN_ORBIT") = true ->
      exists w',
        ExtractResources 3 (excavator 0 40 "IN_ORBIT") (world_with [yield 20 40 70])
        = Returned tt w'
        /\ World.sbCh w'
           = World.sbCh (world_with [yield 20 40 70]) ++ [excavator 0 40 "IN_ORBIT"]
        /\ World.requests w' = World.requests (world_with [yield 20 40 70])).
Proof.
  apply (nil_cooldown_ends_extraction 2 (excavator 0 40 "IN_ORBIT")
           (world_with [yield 20 40 70])).
  reflexivity.
Defined.

(** ** Waking the fleet *)

Lemma wake_returns (ship : Ship.t) (agent : Agent.t) (w : World.t) :
  (forall message, hd_error (World.replies w) <> Some (RError message)) ->
  returns (wake ship agent) w
    (fun _ w' =>
       issued w' = issued w ++ [CGetShipCooldown (Ship.Symbol ship)]
       /\ World.replies w' = tl (World.replies w)
       /\ World.sbCh w'
          = World.sbCh w
            ++ [ShipBot.setCooldown (NewShipBot ship agent)
                  match hd_error (World.replies w) with
                  | Some (RCooldown c) => Some c
                  | _ => None
                  end]).
Proof.
  intros Hanswer. unfold wake, GetShipCooldown, client_GetShipCooldown.
  apply returns_bind, logf_returns. intros w1 _ _ Hr1 Hq1 _ Hs1.
  apply returns_bind, returns_bind, call_answered;
    [intros message Hrejected; eapply Hanswer; rewrite <- Hr1; exact Hrejected|].
  intros w2 Hr2 (t & Hq2 & _) _ Hs2. rewrite Hr1 in *.
  set (found := match hd_error (World.replies w) with
                | Some (RCooldown c) => Some c
                | _ => None
                end).
  assert (Hdone : forall cooldown err w3,
             cooldown = found ->
             World.replies w3 = World.replies w2 ->
             World.requests w3 = World.requests w2 ->
             World.sbCh w3 = World.sbCh w2 ->
             returns (when (isErr err) (Error "⚛ Error getting ship cooldown.") ;;
                      send (ShipBot.setCooldown (NewShipBot ship agent) cooldown))
                     w3
                     (fun _ w' =>
                        issued w' = issued w ++ [CGetShipCooldown (Ship.Symbol ship)]
                        /\ World.replies w' = tl (World.replies w)
                        /\ World.sbCh w'
                           = World.sbCh w
                             ++ [ShipBot.setCooldown (NewShipBot ship agent) found])).
  { intros cooldown err w3 -> Hr3 Hq3 Hs3.
    apply returns_bind.
    assert (Hlog : returns (when (isErr err) (Error "⚛ Error getting ship cooldown.")) w3
                     (fun _ w4 => World.replies w4 = World.replies w3
                                  /\ World.requests w4 = World.requests w3
                                  /\ World.sbCh w4 = World.sbCh w3)).
    { destruct (isErr err); cbn [when].
      - apply logf_returns. intros w4 _ _ Hr4 Hq4 _ Hs4. auto.
      - apply returns_ret. auto. }
    eapply returns_weaken; [exact Hlog|]. cbv beta.
    intros _ w4 (Hr4 & Hq4 & Hs4).
    apply send_returns. intros w5 _ _ Hr5 Hq5 _ Hs5.
    unfold issued. rewrite Hq5, Hq4, Hq3, Hq2, Hq1, map_app.
    repeat split; congruence. }
  subst found.
  destruct (hd_error (World.replies w)) as [[]|];
    cbn [decode isErr]; apply returns_ret; apply Hdone; reflexivity.
Qed.

(** The cooldown request registers no error object: on a rejection the
    client panics and the goroutine sends nothing. *)
Lemma wake_rejected (ship : Ship.t) (agent : Agent.t) (message : string)
    (w : World.t) :
  hd_error (World.replies w) = Some (RError message) ->
  panics (wake ship agent) w
    (fun msg w' =>
       msg = "interface conversion: interface {} is nil, not *api.ErrorResponse"
       /\ issued w' = issued w ++ [CGetShipCooldown (Ship.Symbol ship)]
       /\ World.replies w' = tl (World.replies w)
       /\ World.sbCh w' = World.sbCh w).
Proof.
  intros Hhd. unfold wake, GetShipCooldown, client_GetShipCooldown.
  apply panics_bind, logf_returns. intros w1 _ _ Hr1 Hq1 _ Hs1.
  apply panics_bind_left, panics_bind_left.
  apply (call_rejected _ _ _ _ message); [left; reflexivity | congruence|].
  intros msg w2 Hmsg Hr2 (t & Hq2 & _) _ Hs2.
  unfold assert_ErrorResponse, panic in Hmsg. injection Hmsg as <-.
  split; [reflexivity|]. split; [|split; congruence].
  unfold issued. rewrite Hq2, Hq1, map_app. reflexivity.
Qed.

(** X11: the goroutine that wakes a ship issues one cooldown request.  When
    the request is rejected, the client, which registered no error object,
    panics in its type assertion and nothing is sent.  On any other outcome
    the goroutine sends one ShipBot, a new one for the ship and the agent
    that carries the cooldown of the answer, and a nil cooldown (after the
    error line) when there was none. *)
Theorem wake_sends_one_ShipBot (ship : Ship.t) (agent : Agent.t) (w : World.t) :
  exists w',
    issued w' = issued w ++ [CGetShipCooldown (Ship.Symbol ship)]
    /\ World.replies w' = tl (World.replies w)
    /\ match hd_error (World.replies w) with
       | Some (RError _) =>
           wake ship agent w
           = Panicked "interface conversion: interface {} is nil, not *api.ErrorResponse" w'
           /\ World.sbCh w' = World.sbCh w
       | answered =>
           wake ship agent w = Returned tt w'
           /\ World.sbCh w'
              = World.sbCh w
                ++ [ShipBot.setCooldown (NewShipBot ship agent)
                      match answered with
                      | Some (RCooldown c) => Some c
                      | _ => None
                      end]
       end.
Proof.
  destruct (hd_error (World.replies w)) as [r|] eqn:Hhd;
    [destruct r as [message| | | | | | |]|];
    try (destruct (wake_returns ship agent w) as ([] & w' & Hrun & Hq & Hr & Hs);
         [intros message' Hrejected; congruence|];
         rewrite Hhd in Hs; exists w'; auto).
  destruct (wake_rejected ship agent message w Hhd)
    as (msg & w' & Hrun & -> & Hq & Hr & Hs).
  exists w'. auto.
Qed.

(** ** The command loop on other roles and on a failed lookup *)

(** X12: for a ship of any role but EXCAVATOR the command loop starts no
    mission and issues no request; it only logs the report. *)
Theorem command_other_roles (sem : LoopVar) (fuel : nat) (schedule : Schedule)
    (sb : ShipBot.t) (w : World.t) :
  Ship.Role (ShipBot.ship sb) <> "EXCAVATOR" ->
  exists w',
    command sem fuel schedule sb w = Returned [] w'
    /\ World.now w' = World.now w
    /\ World.replies w' = World.replies w
    /\ World.requests w' = World.requests w
    /\ World.sbCh w' = World.sbCh w.
Proof.
  intros Hrole. unfold command, bind, Info, logf.
  destruct (String.eqb (Ship.Role (ShipBot.ship sb)) "COMMAND").
  - eexists. split; [reflexivity|]. repeat split.
  - destruct (String.eqb_spec (Ship.Role (ShipBot.ship sb)) "EXCAVATOR");
      [contradiction|].
    eexists. split; [reflexivity|]. repeat split.
Qed.

(** The command ship reporting in. *)
Lemma command_other_roles_witness :
  exists w',
    command PerLoop 3 (fun _ => true)
            (scout "X1-DF55-20250Z" "X1-DF55-20250Z" 0)
            (world_with [RWaypoint origin]) = Returned [] w'
    /\ World.now w' = World.now (world_with [RWaypoint origin])
    /\ World.replies w' = World.replies (world_with [RWaypoint origin])
    /\ World.requests w' = World.requests (world_with [RWaypoint origin])
    /\ World.sbCh w' = World.sbCh (world_with [RWaypoint origin]).
Proof.
  apply (command_other_roles PerLoop 3 (fun _ => true)
           (scout "X1-DF55-20250Z" "X1-DF55-20250Z" 0)
           (world_with [RWaypoint origin])).
  discriminate.
Defined.

Lemma GetWaypoint_failed (sb : ShipBot.t) (w : World.t) :
  (forall waypoint, hd_error (World.replies w) <> Some (RWaypoint waypoint)) ->
  exists message,
    decode (fun r => match r with RWaypoint v => Some v | _ => None end)
           (hd_error (World.replies w)) = (None, Some message).
Proof.
  intros Hfail.
  destruct (hd_error (World.replies w)) as [[]|] eqn:Hhd; cbn [decode]; eauto.
  exfalso. eapply Hfail. reflexivity.
Qed.

Lemma IsAtWaypointWithTrait_failed (sb : ShipBot.t) (trait : string) (w : World.t) :
  (forall waypoint, hd_error (World.replies w) <> Some (RWaypoint waypoint)) ->
  panics (IsAtWaypointWithTrait sb trait) w
    (fun msg w' =>
       msg = nil_dereference
       /\ issued w'
          = issued w ++ [CGetWaypoint (ShipNav.SystemSymbol (shipNav sb))
                                      (ShipNav.WaypointSymbol (shipNav sb))]
       /\ World.sbCh w' = World.sbCh w).
Proof.
  intros Hfail. unfold IsAtWaypointWithTrait, client_GetWaypoint.
  apply panics_bind, call_returns. intros w1 Hr1 (t & Hq1 & _) _ Hs1.
  destruct (GetWaypoint_failed sb w Hfail) as [message ->]. cbn [isErr when].
  apply panics_bind, logf_returns. intros w2 _ _ Hr2 Hq2 _ Hs2.
  apply panics_bind_left, panics_panic. split; [reflexivity|].
  split; [|congruence]. unfold issued. rewrite Hq2, Hq1, map_app. reflexivity.
Qed.

Lemma IsAtWaypointOfType_failed (sb : ShipBot.t) (waypointType : string)
    (w : World.t) :
  (forall waypoint, hd_error (World.replies w) <> Some (RWaypoint waypoint)) ->
  panics (IsAtWaypointOfType sb waypointType) w
    (fun msg w' =>
       msg = nil_dereference
       /\ issued w'
          = issued w ++ [CGetWaypoint (ShipNav.SystemSymbol (shipNav sb))
                                      (ShipNav.WaypointSymbol (shipNav sb))]
       /\ World.sbCh w' = World.sbCh w).
Proof.
  intros Hfail. unfold IsAtWaypointOfType, client_GetWaypoint.
  apply panics_bind, call_returns. intros w1 Hr1 (t & Hq1 & _) _ Hs1.
  destruct (GetWaypoint_failed sb w Hfail) as [message ->]. cbn [isErr when].
  apply panics_bind, logf_returns. intros w2 _ _ Hr2 Hq2 _ Hs2.
  apply panics_bind_left, panics_panic. split; [reflexivity|].
  split; [|congruence]. unfold issued. rewrite Hq2, Hq1, map_app. reflexivity.
Qed.

(** X13: when the waypoint lookup of an EXCAVATOR's cycle fails, the command
    loop logs the error and then dereferences the nil waypoint: it panics
    after that one request, with no mission started. *)
Theorem command_failed_lookup (sem : LoopVar) (fuel : nat) (schedule : Schedule)
    (sb : ShipBot.t) (w : World.t) :
  Ship.Role (ShipBot.ship sb) = "EXCAVATOR" ->
  (forall waypoint, hd_error (World.replies w) <> Some (RWaypoint waypoint)) ->
  exists w',
    command sem fuel schedule sb w = Panicked nil_dereference w'
    /\ issued w'
       = issued w ++ [CGetWaypoint (ShipNav.SystemSymbol (shipNav sb))
                                   (ShipNav.WaypointSymbol (shipNav sb))]
    /\ World.sbCh w' = World.sbCh w.
Proof.
  intros Hrole Hfail.
  assert (H : panics (command sem fuel schedule sb) w
                (fun msg w' =>
                   msg = nil_dereference
                   /\ issued w'
                      = issued w ++ [CGetWaypoint (ShipNav.SystemSymbol (shipNav sb))
                                                  (ShipNav.WaypointSymbol (shipNav sb))]
                   /\ World.sbCh w' = World.sbCh w)).
  { unfold command. rewrite Hrole.
    change (String.eqb "EXCAVATOR" "COMMAND") with false.
    change (String.eqb "EXCAVATOR" "EXCAVATOR") with true. cbv iota.
    apply panics_bind, logf_returns. intros w1 _ _ Hr1 Hq1 _ Hs1.
    assert (Hfail1 : forall waypoint,
               hd_error (World.replies w1) <> Some (RWaypoint waypoint))
      by (rewrite Hr1; exact Hfail).
    assert (Hsame : issued w1 = issued w) by (unfold issued; congruence).
    destruct (IsFullOfCargo sb) eqn:Hfull; cbn [negb].
    - apply panics_bind_left. unfold andM at 1. apply panics_bind_left.
      unfold andM. apply panics_bind, returns_ret. cbv iota.
      destruct (IsAtWaypointWithTrait_failed sb "MARKETPLACE" w1 Hfail1)
        as (msg & w' & Hrun & -> & Hq & Hs).
      exists nil_dereference, w'. split; [exact Hrun|].
      split; [reflexivity|]. split; congruence.
    - unfold andM.
      apply panics_bind. eexists false, w1. split; [reflexivity|].
      cbn [when spawn app]. apply panics_bind, returns_ret.
      rewrite catch_up_nil. apply panics_bind, returns_ret.
      rewrite Hfull.
      apply panics_bind. eexists false, w1. split; [reflexivity|].
      cbn [when spawn app]. apply panics_bind, returns_ret.
      rewrite catch_up_nil. apply panics_bind, returns_ret.
      rewrite Hfull.
      apply panics_bind. eexists false, w1. split; [reflexivity|].
      cbn [when spawn app]. apply panics_bind, returns_ret.
      rewrite catch_up_nil. apply panics_bind, returns_ret.
      rewrite Hfull. cbn [negb].
      apply panics_bind_left, panics_bind, returns_ret. cbv iota.
      destruct (IsAtWaypointOfType_failed sb "ASTEROID_FIELD" w1 Hfail1)
        as (msg & w' & Hrun & -> & Hq & Hs).
      exists nil_dereference, w'. split; [exact Hrun|].
      split; [reflexivity|]. split; congruence. }
  destruct H as (msg & w' & Hrun & -> & H). exists w'. auto.
Qed.

(** A full excavator whose waypoint lookup is rejected. *)
Lemma command_failed_lookup_witness :
  exists w',
    command PerLoop 3 (fun _ => true) (excavator 40 40 "DOCKED")
            (world_with [RError "waypoint not found"])
    = Panicked nil_dereference w'
    /\ issued w'
       = issued (world_with [RError "waypoint not found"])
         ++ [CGetWaypoint (ShipNav.SystemSymbol (shipNav (excavator 40 40 "DOCKED")))
                          (ShipNav.WaypointSymbol (shipNav (excavator 40 40 "DOCKED")))]
    /\ World.sbCh w' = World.sbCh (world_with [RError "waypoint not found"]).
Proof.
  apply (command_failed_lookup PerLoop 3 (fun _ => true) (excavator 40 40 "DOCKED")
           (world_with [RError "waypoint not found"])).
  - reflexivity.
  - intros waypoint. discriminate.
Defined.

(** ** Selling the whole hold *)

Lemma sold_sold (sb : ShipBot.t) (r1 r2 : SellCargoResponse.t) :
  sold (sold sb r1) r2 = sold sb r2.
Proof. reflexivity. Qed.

Lemma sold_last (responses : list SellCargoResponse.t) (last : SellCargoResponse.t)
    (sb : ShipBot.t) :
  fold_left sold (responses ++ [last]) sb = sold sb last.
Proof.
  rewrite fold_left_app. cbn [fold_left]. revert sb.
  induction responses as [|r responses IH]; intros sb; [reflexivity|].
  cbn [fold_left]. rewrite IH. apply sold_sold.
Qed.

(** The inner loop over an inventory whose sell calls all succeed. *)
Lemma sell_inventory_answered (inventory : list ShipCargoItem.t) :
  forall (responses : list SellCargoResponse.t) (sb : ShipBot.t) (w : World.t)
         (rest : list Reply),
    length inventory = length responses ->
    World.replies w = map RSell responses ++ rest ->
    returns (sell_inventory sb inventory) w
      (fun sb' w' =>
         sb' = fold_left sold responses sb
         /\ issued w'
            = issued w
              ++ map (fun good => CSellCargo (shipSymbol sb)
                                             (ShipCargoItem.Symbol good)
                                             (ShipCargoItem.Units good)) inventory
         /\ World.replies w' = rest
         /\ World.sbCh w' = World.sbCh w).
Proof.
  induction inventory as [|good inventory IH];
    intros [|res responses] sb w rest Hlen Hrep; try discriminate Hlen.
  - cbn [sell_inventory]. apply returns_ret. cbn [map fold_left].
    rewrite app_nil_r. auto.
  - cbn [sell_inventory map fold_left].
    assert (Hstep :
      forall line failure,
        returns
          (Info line ;;
           '(res, err) <- client_SellCargo (shipSymbol sb) (ShipCargoItem.Symbol good)
                                           (ShipCargoItem.Units good) ;;
           if isErr err then Error failure ;; ret sb
           else
             res <- deref res ;;
             Info "💲 Cargo sold." ;;
             Info "📦 Cargo status updated." ;;
             Info "💰 Agent credits updated." ;;
             sell_inventory (sold sb res) inventory) w
          (fun sb' w' =>
             sb' = fold_left sold responses (sold sb res)
             /\ issued w'
                = issued w
                  ++ CSellCargo (shipSymbol sb) (ShipCargoItem.Symbol good)
                                (ShipCargoItem.Units good)
                     :: map (fun good => CSellCargo (shipSymbol sb)
                                                    (ShipCargoItem.Symbol good)
                                                    (ShipCargoItem.Units good))
                            inventory
             /\ World.replies w' = rest
             /\ World.sbCh w' = World.sbCh w)).
    { intros line failure.
      apply returns_bind, logf_returns. intros w1 _ _ Hr1 Hq1 _ Hs1.
      unfold client_SellCargo.
      apply returns_bind, call_returns. intros w2 Hr2 (t & Hq2 & _) _ Hs2.
      rewrite Hr1, Hrep in *. cbn [map app hd_error tl decode isErr] in *.
      apply returns_bind, returns_ret.
      apply returns_bind, logf_returns. intros w3 _ _ Hr3 Hq3 _ Hs3.
      apply returns_bind, logf_returns. intros w4 _ _ Hr4 Hq4 _ Hs4.
      apply returns_bind, logf_returns. intros w5 _ _ Hr5 Hq5 _ Hs5.
      eapply returns_weaken;
        [apply (IH responses (sold sb res) w5 rest);
         [cbn [length] in Hlen; lia | congruence]|].
      intros sb' w' (-> & Hq & Hr & Hs). split; [reflexivity|].
      split; [|split; congruence].
      rewrite Hq. unfold issued. rewrite Hq5, Hq4, Hq3, Hq2, Hq1, map_app.
      cbn [map snd]. rewrite <- app_assoc. reflexivity. }
    destruct (Contains (ShipBot.priorities sb) (ShipCargoItem.Symbol good));
      apply Hstep.
Qed.

(** X14: when every sell call succeeds and the last response reports an
    empty hold, SellCargo issues one sell request per inventory line, in the
    order of the inventory it read at entry and with each line's symbol and
    units, and reports the ShipBot once, with the cargo and the credits of the
    last response. *)
Theorem SellCargo_sells_each_line (fuel : nat) (sb : ShipBot.t)
    (responses : list SellCargoResponse.t) (last : SellCargoResponse.t)
    (rest : list Reply) (w : World.t) :
  ShipCargo.Units (shipCargo sb) > 0 ->
  length (ShipCargo.Inventory (shipCargo sb)) = length (responses ++ [last]) ->
  World.replies w = map RSell (responses ++ [last]) ++ rest ->
  ShipCargo.Units (SellCargoResponse.Cargo last) <= 0 ->
  exists w',
    SellCargo (S (S fuel)) sb w = Returned tt w'
    /\ issued w'
       = issued w
         ++ map (fun good => CSellCargo (shipSymbol sb)
                                        (ShipCargoItem.Symbol good)
                                        (ShipCargoItem.Units good))
                (ShipCargo.Inventory (shipCargo sb))
    /\ World.replies w' = rest
    /\ World.sbCh w' = World.sbCh w ++ [sold sb last]
    /\ shipCargo (sold sb last) = SellCargoResponse.Cargo last
    /\ Agent.Credits (ShipBot.agent (sold sb last))
       = Agent.Credits (SellCargoResponse.Agent last).
Proof.
  intros Hunits Hlen Hrep Hempty.
  assert (H : returns (SellCargo (S (S fuel)) sb) w
                (fun _ w' =>
                   issued w'
                   = issued w
                     ++ map (fun good => CSellCargo (shipSymbol sb)
                                                    (ShipCargoItem.Symbol good)
                                                    (ShipCargoItem.Units good))
                            (ShipCargo.Inventory (shipCargo sb))
                   /\ World.replies w' = rest
                   /\ World.sbCh w' = World.sbCh w ++ [sold sb last])).
  { unfold SellCargo. apply returns_bind. cbn [sell_loop].
    replace (ShipCargo.Units (shipCargo sb) >? 0) with true
      by (symmetry; apply Z.gtb_lt; lia).
    apply returns_bind.
    eapply returns_weaken;
      [apply (sell_inventory_answered _ _ sb w rest Hlen Hrep)|].
    intros sb' w1 (-> & Hq1 & Hr1 & Hs1). rewrite sold_last.
    replace (ShipCargo.Units (shipCargo (sold sb last)) >? 0) with false
      by (symmetry; rewrite Z.gtb_ltb; apply Z.ltb_ge; exact Hempty).
    apply returns_bind, logf_returns. intros w2 _ _ Hr2 Hq2 _ Hs2.
    apply returns_ret, send_returns. intros w3 _ _ Hr3 Hq3 _ Hs3.
    unfold issued in *. repeat split; congruence. }
  destruct H as ([] & w' & Hrun & Hq & Hr & Hs).
  exists w'. repeat split; assumption.
Qed.

(** A hold of two lines, sold by two calls. *)
Lemma SellCargo_sells_each_line_witness :
  exists w',
    SellCargo 2
      (ShipBot.setShip seller
         (Ship.setCargo (ShipBot.ship seller)
            (ShipCargo.mk 40 15 [ShipCargoItem.mk "IRON_ORE" 10;
                                 ShipCargoItem.mk "COPPER_ORE" 5])))
      (world_with [RSell (SellCargoResponse.mk (Agent.mk "GOGARIN" 900)
                            (ShipCargo.mk 40 5 [ShipCargoItem.mk "COPPER_ORE" 5]));
                   sale 1500])
    = Returned tt w'
    /\ issued w' = [CSellCargo "GOGARIN-2" "IRON_ORE" 10;
                    CSellCargo "GOGARIN-2" "COPPER_ORE" 5]
    /\ World.replies w' = []
    /\ World.sbCh w'
       = [sold seller (SellCargoResponse.mk (Agent.mk "GOGARIN" 1500)
                         (ShipCargo.mk 40 0 []))]
    /\ shipCargo (sold seller (SellCargoResponse.mk (Agent.mk "GOGARIN" 1500)
                                  (ShipCargo.mk 40 0 [])))
       = ShipCargo.mk 40 0 []
    /\ Agent.Credits
         (ShipBot.agent (sold seller (SellCargoResponse.mk (Agent.mk "GOGARIN" 1500)
                                        (ShipCargo.mk 40 0 []))))
       = 1500.
Proof.
  apply (SellCargo_sells_each_line 0
           (ShipBot.setShip seller
              (Ship.setCargo (ShipBot.ship seller)
                 (ShipCargo.mk 40 15 [ShipCargoItem.mk "IRON_ORE" 10;
                                      ShipCargoItem.mk "COPPER_ORE" 5])))
           [SellCargoResponse.mk (Agent.mk "GOGARIN" 900)
              (ShipCargo.mk 40 5 [ShipCargoItem.mk "COPPER_ORE" 5])]
           (SellCargoResponse.mk (Agent.mk "GOGARIN" 1500) (ShipCargo.mk 40 0 []))
           []
           (world_with [RSell (SellCargoResponse.mk (Agent.mk "GOGARIN" 900)
                                 (ShipCargo.mk 40 5 [ShipCargoItem.mk "COPPER_ORE" 5]));
                        sale 1500])).
  - reflexivity.
  - reflexivity.
  - reflexivity.
  - cbn. lia.
Defined.

Lemma decode_cases {T} (pick : Reply -> option T) (r : option Reply) :
  (exists v, decode pick r = (Some v, None))
  \/ (exists message, decode pick r = (None, Some message)).
Proof.
  destruct r as [[]|]; cbn [decode]; eauto;
    match goal with |- context [pick ?r] => destruct (pick r) end; eauto.
Qed.

(** Whatever the answers, the inner loop ends, with requests for sales of
    this ship only and nothing sent on the channel. *)
Lemma sell_inventory_ends (inventory : list ShipCargoItem.t) :
  forall (sb : ShipBot.t) (w : World.t),
    returns (sell_inventory sb inventory) w
      (fun sb' w' =>
         shipSymbol sb' = shipSymbol sb
         /\ World.sbCh w' = World.sbCh w
         /\ exists calls,
              issued w' = issued w ++ calls
              /\ Forall (fun c => exists symbol units,
                             c = CSellCargo (shipSymbol sb) symbol units) calls).
Proof.
  induction inventory as [|good inventory IH]; intros sb w; cbn [sell_inventory].
  - apply returns_ret. split; [reflexivity|]. split; [reflexivity|].
    exists []. rewrite app_nil_r. auto.
  - assert (Hstep :
      forall line failure,
        returns
          (Info line ;;
           '(res, err) <- client_SellCargo (shipSymbol sb) (ShipCargoItem.Symbol good)
                                           (ShipCargoItem.Units good) ;;
           if isErr err then Error failure ;; ret sb
           else
             res <- deref res ;;
             Info "💲 Cargo sold." ;;
             Info "📦 Cargo status updated." ;;
             Info "💰 Agent credits updated." ;;
             sell_inventory (sold sb res) inventory) w
          (fun sb' w' =>
             shipSymbol sb' = shipSymbol sb
             /\ World.sbCh w' = World.sbCh w
             /\ exists calls,
                  issued w' = issued w ++ calls
                  /\ Forall (fun c => exists symbol units,
                                 c = CSellCargo (shipSymbol sb) symbol units) calls)).
    { intros line failure.
      apply returns_bind, logf_returns. intros w1 _ _ Hr1 Hq1 _ Hs1.
      unfold client_SellCargo.
      apply returns_bind, call_returns. intros w2 Hr2 (t & Hq2 & _) _ Hs2.
      assert (Hq : issued w2
                   = issued w ++ [CSellCargo (shipSymbol sb) (ShipCargoItem.Symbol good)
                                             (ShipCargoItem.Units good)])
        by (unfold issued; rewrite Hq2, Hq1, map_app; reflexivity).
      destruct (decode_cases
                  (fun r => match r with RSell v => Some v | _ => None end)
                  (hd_error (World.replies w1))) as [[res ->]|[message ->]];
        cbn [isErr].
      - apply returns_bind, returns_ret.
        apply returns_bind, logf_returns. intros w3 _ _ Hr3 Hq3 _ Hs3.
        apply returns_bind, logf_returns. intros w4 _ _ Hr4 Hq4 _ Hs4.
        apply returns_bind, logf_returns. intros w5 _ _ Hr5 Hq5 _ Hs5.
        eapply returns_weaken; [apply (IH (sold sb res) w5)|].
        intros sb' w' (Hsym & Hs & calls & Hcalls & Hall).
        split; [exact Hsym|]. split; [congruence|].
        exists (CSellCargo (shipSymbol sb) (ShipCargoItem.Symbol good)
                           (ShipCargoItem.Units good) :: calls).
        split.
        + rewrite Hcalls. unfold issued in *.
          rewrite Hq5, Hq4, Hq3, Hq, <- app_assoc. reflexivity.
        + constructor; [eauto | exact Hall].
      - apply returns_bind, logf_returns. intros w3 _ _ Hr3 Hq3 _ Hs3.
        apply returns_ret. split; [reflexivity|]. split; [congruence|].
        exists [CSellCargo (shipSymbol sb) (ShipCargoItem.Symbol good)
                           (ShipCargoItem.Units good)].
        split; [unfold issued in *; congruence|].
        constructor; [eauto | constructor]. }
    destruct (Contains (ShipBot.priorities sb) (ShipCargoItem.Symbol good));
      apply Hstep.
Qed.

Lemma sell_loop_ends_empty (fuel : nat) :
  forall (sb : ShipBot.t) (w : World.t),
    match sell_loop fuel sb w with
    | Returned sb' w' =>
        ShipCargo.Units (shipCargo sb') <= 0
        /\ World.sbCh w' = World.sbCh w
        /\ exists calls,
             issued w' = issued w ++ calls
             /\ Forall (fun c => exists symbol units,
                            c = CSellCargo (shipSymbol sb) symbol units) calls
    | Panicked _ _ => False
    | Unfinished => True
    end.
Proof.
  induction fuel as [|fuel IH]; intros sb w; cbn [sell_loop]; [exact I|].
  destruct (Z.gtb_spec (ShipCargo.Units (shipCargo sb)) 0) as [Hsome|Hnone].
  - destruct (sell_inventory_ends (ShipCargo.Inventory (shipCargo sb)) sb w)
      as (sb1 & w1 & Hrun & Hsym & Hs1 & calls1 & Hq1 & Hall1).
    unfold bind. rewrite Hrun. specialize (IH sb1 w1).
    destruct (sell_loop fuel sb1 w1) as [sb' w'| |]; [|exact IH|exact I].
    destruct IH as (Hempty & Hs & calls & Hq & Hall).
    split; [exact Hempty|]. split; [congruence|].
    exists (calls1 ++ calls). split.
    + rewrite Hq, Hq1, app_assoc. reflexivity.
    + apply Forall_app. split; [exact Hall1|]. rewrite <- Hsym. exact Hall.
  - unfold bind, Info, logf, ret. cbn.
    split; [lia|]. split; [reflexivity|].
    exists []. rewrite app_nil_r. auto.
Qed.

(** X15: whatever the market answers, SellCargo never panics, and when it
    ends it has sent one ShipBot, whose hold reads empty, after requests that
    are all sales of this ship: a ship with cargo left is never reported. *)
Theorem SellCargo_reports_only_an_empty_hold (fuel : nat) (sb : ShipBot.t)
    (w : World.t) :
  match SellCargo fuel sb w with
  | Returned _ w' =>
      exists sb' calls,
        World.sbCh w' = World.sbCh w ++ [sb']
        /\ ShipCargo.Units (shipCargo sb') <= 0
        /\ issued w' = issued w ++ calls
        /\ Forall (fun c => exists symbol units,
                       c = CSellCargo (shipSymbol sb) symbol units) calls
  | Panicked _ _ => False
  | Unfinished => True
  end.
Proof.
  unfold SellCargo, bind. pose proof (sell_loop_ends_empty fuel sb w) as H.
  destruct (sell_loop fuel sb w) as [sb' w'| |]; [|exact H|exact I].
  destruct H as (Hempty & Hs & calls & Hq & Hall).
  cbn. exists sb', calls. rewrite Hs. auto.
Qed.

(** X16: a ShipBot whose cargo units are not positive is reported as it is,
    without any request, whatever its inventory lists. *)
Theorem SellCargo_of_an_empty_hold (fuel : nat) (sb : ShipBot.t) (w : World.t) :
  ShipCargo.Units (shipCargo sb) <= 0 ->
  exists w',
    SellCargo (S fuel) sb w = Returned tt w'
    /\ World.requests w' = World.requests w
    /\ World.replies w' = World.replies w
    /\ World.now w' = World.now w
    /\ World.sbCh w' = World.sbCh w ++ [sb].
Proof.
  intros Hnone. unfold SellCargo. cbn [sell_loop].
  replace (ShipCargo.Units (shipCargo sb) >? 0) with false
    by (symmetry; rewrite Z.gtb_ltb; apply Z.ltb_ge; exact Hnone).
  eexists. split; [reflexivity|]. repeat split.
Qed.

(** A hold that reads empty although a line is still listed. *)
Lemma SellCargo_of_an_empty_hold_witness :
  exists w',
    SellCargo 1
      (ShipBot.setShip seller
         (Ship.setCargo (ShipBot.ship seller) (ShipCargo.mk 40 0 (ore 10))))
      (world_with [sale 1500])
    = Returned tt w'
    /\ World.requests w' = []
    /\ World.replies w' = [sale 1500]
    /\ World.now w' = 0
    /\ World.sbCh w'
       = [ShipBot.setShip seller
            (Ship.setCargo (ShipBot.ship seller) (ShipCargo.mk 40 0 (ore 10)))].
Proof.
  apply (SellCargo_of_an_empty_hold 0
           (ShipBot.setShip seller
              (Ship.setCargo (ShipBot.ship seller) (ShipCargo.mk 40 0 (ore 10))))
           (world_with [sale 1500])).
  cbn. lia.
Defined.

(** X17: a ShipBot whose cargo units are positive while its inventory is
    empty keeps SellCargo in its outer loop for ever: no bound on the rounds
    lets it end, so the ship never reports. *)
Theorem SellCargo_spins_on_an_empty_inventory (sb : ShipBot.t) (w : World.t) :
  ShipCargo.Units (shipCargo sb) > 0 ->
  ShipCargo.Inventory (shipCargo sb) = [] ->
  forall fuel, SellCargo fuel sb w = Unfinished.
Proof.
  intros Hunits Hinv fuel. unfold SellCargo, bind.
  replace (sell_loop fuel sb w) with (@Unfinished ShipBot.t); [reflexivity|].
  symmetry. induction fuel as [|fuel IH]; [reflexivity|].
  cbn [sell_loop].
  replace (ShipCargo.Units (shipCargo sb) >? 0) with true
    by (symmetry; apply Z.gtb_lt; lia).
  rewrite Hinv. cbn [sell_inventory]. unfold bind, ret. exact IH.
Qed.

(** Ten units on the books and no line to sell. *)
Lemma SellCargo_spins_on_an_empty_inventory_witness :
  SellCargo 100
    (ShipBot.setShip seller
       (Ship.setCargo (ShipBot.ship seller) (ShipCargo.mk 40 10 [])))
    (world_with [sale 1500])
  = Unfinished.
Proof.
  apply (SellCargo_spins_on_an_empty_inventory
           (ShipBot.setShip seller
              (Ship.setCargo (ShipBot.ship seller) (ShipCargo.mk 40 10 [])))
           (world_with [sale 1500])); reflexivity.
Defined.

(** ** Docking *)

Lemma DockShip_answered (sb : ShipBot.t) (nav : ShipNav.t) (w : World.t) :
  hd_error (World.replies w) = Some (RShipNav nav) ->
  returns (DockShip sb) w
    (fun _ w' =>
       issued w' = issued w ++ [CDockShip (shipSymbol sb)]
       /\ World.replies w' = tl (World.replies w)
       /\ World.sbCh w'
          = World.sbCh w ++ [ShipBot.setShip sb (Ship.setNav (ShipBot.ship sb) nav)]).
Proof.
  intros Hhd. unfold DockShip, client_DockShip.
  apply returns_bind, logf_returns. intros w1 _ _ Hr1 Hq1 _ Hs1.
  apply returns_bind, call_answered; [intros message Hrejected; congruence|].
  intros w2 Hr2 (t & Hq2 & _) _ Hs2.
  rewrite Hr1, Hhd. cbn [decode isErr when].
  apply returns_bind, returns_ret, returns_bind, returns_ret.
  apply send_returns. intros w3 _ _ Hr3 Hq3 _ Hs3.
  split; [|split; congruence].
  unfold issued. rewrite Hq3, Hq2, Hq1, map_app. reflexivity.
Qed.

Lemma DockShip_unanswered (sb : ShipBot.t) (w : World.t) :
  (forall nav, hd_error (World.replies w) <> Some (RShipNav nav)) ->
  panics (DockShip sb) w
    (fun msg w' =>
       issued w' = issued w ++ [CDockShip (shipSymbol sb)]
       /\ World.replies w' = tl (World.replies w)
       /\ World.sbCh w' = World.sbCh w
       /\ match hd_error (World.replies w) with
          | Some (RError _) =>
              msg = "interface conversion: interface {} is nil, not *api.ErrorResponse"
              /\ World.journal w' = World.journal w ++ [(INFO, "Docking ship...")]
          | _ =>
              msg = nil_dereference
              /\ World.journal w'
                 = World.journal w
                   ++ [(INFO, "Docking ship..."); (ERROR, "🚀 Error docking ship.")]
          end).
Proof.
  intros Hfail. unfold DockShip, client_DockShip.
  apply panics_bind, logf_returns. intros w1 _ _ Hr1 Hq1 Hj1 Hs1.
  destruct (hd_error (World.replies w)) as [r|] eqn:Hhd;
    [destruct r as [message| | | | | | |]|];
    try (apply panics_bind, call_answered;
         [intros message' Hrejected; congruence|];
         intros w2 Hr2 (t & Hq2 & _) Hj2 Hs2; rewrite Hr1, Hhd;
         cbn [decode isErr when];
         apply panics_bind, logf_returns; intros w3 _ _ Hr3 Hq3 Hj3 Hs3;
         apply panics_bind_left, panics_panic;
         split; [unfold issued; rewrite Hq3, Hq2, Hq1, map_app; reflexivity|];
         split; [congruence|]; split; [congruence|];
         split; [reflexivity|];
         rewrite Hj3, Hj2, Hj1, <- app_assoc; reflexivity).
  - apply panics_bind_left.
    apply (call_rejected _ _ _ _ message); [left; reflexivity | congruence|].
    intros msg w2 Hmsg Hr2 (t & Hq2 & _) Hj2 Hs2.
    unfold assert_ErrorResponse, panic in Hmsg. injection Hmsg as <-.
    split; [unfold issued; rewrite Hq2, Hq1, map_app; reflexivity|].
    split; [congruence|]. split; [congruence|].
    split; [reflexivity | congruence].
  - exfalso. eapply Hfail. reflexivity.
Qed.

(** X18: DockShip issues exactly one dock request.  When it is answered with
    the new navigation state, the ShipBot is reported once with that state.
    When it is rejected, the client, which registered no error object,
    panics in its type assertion, before any error line.  On any other
    outcome of the call the error is logged, the nil result is dereferenced
    and the run panics.  Nothing is reported in either case of a panic. *)
Theorem DockShip_outcome (sb : ShipBot.t) (w : World.t) :
  exists w',
    issued w' = issued w ++ [CDockShip (shipSymbol sb)]
    /\ World.replies w' = tl (World.replies w)
    /\ match hd_error (World.replies w) with
       | Some (RShipNav nav) =>
           DockShip sb w = Returned tt w'
           /\ World.sbCh w'
              = World.sbCh w ++ [ShipBot.setShip sb (Ship.setNav (ShipBot.ship sb) nav)]
       | Some (RError _) =>
           DockShip sb w
           = Panicked "interface conversion: interface {} is nil, not *api.ErrorResponse" w'
           /\ World.journal w' = World.journal w ++ [(INFO, "Docking ship...")]
           /\ World.sbCh w' = World.sbCh w
       | _ =>
           DockShip sb w = Panicked nil_dereference w'
           /\ World.journal w'
              = World.journal w
                ++ [(INFO, "Docking ship..."); (ERROR, "🚀 Error docking ship.")]
           /\ World.sbCh w' = World.sbCh w
       end.
Proof.
  destruct (hd_error (World.replies w)) as [r|] eqn:Hhd.
  - destruct r;
      try (assert (Hfail : forall nav, hd_error (World.replies w) <> Some (RShipNav nav))
             by (intros nav'; rewrite Hhd; discriminate);
           destruct (DockShip_unanswered sb w Hfail)
             as (msg & w' & Hrun & Hq & Hr & Hs & Hend);
           rewrite Hhd in Hend; destruct Hend as [-> Hj];
           exists w'; auto).
    match type of Hhd with
    | _ = Some (RShipNav ?nav) =>
        destruct (DockShip_answered sb nav w Hhd) as ([] & w' & Hrun & Hq & Hr & Hs)
    end.
    exists w'. auto.
  - assert (Hfail : forall nav, hd_error (World.replies w) <> Some (RShipNav nav))
      by (intros nav'; rewrite Hhd; discriminate).
    destruct (DockShip_unanswered sb w Hfail)
      as (msg & w' & Hrun & Hq & Hr & Hs & Hend).
    rewrite Hhd in Hend. destruct Hend as [-> Hj].
    exists w'. auto.
Qed.

(** ** Navigating to the nearest waypoint *)

Lemma WaitUntilArrival_returns (sb : ShipBot.t) (w : World.t)
    (Q : unit -> World.t -> Prop) :
  (forall w', arrival sb <= World.now w' ->
              World.now w <= World.now w' ->
              World.replies w' = World.replies w ->
              World.requests w' = World.requests w ->
              World.sbCh w' = World.sbCh w -> Q tt w') ->
  returns (WaitUntilArrival sb) w Q.
Proof.
  intros H. unfold WaitUntilArrival.
  apply returns_bind, time_Now_returns. intros w1 E1.
  destruct (Z.ltb_spec (arrival sb) (World.now w1)) as [Hpast|Hcoming].
  - apply logf_returns. intros w2 Hn2 _ Hr2 Hq2 _ Hs2.
    apply H; destruct E1 as (? & ? & ? & ? & ? & ?); try congruence; lia.
  - apply returns_bind, logf_returns. intros w2 Hn2 _ Hr2 Hq2 _ Hs2.
    apply returns_bind, time_Now_returns. intros w3 E3.
    apply time_Sleep_returns. intros w4 E4 Hslept.
    apply H; destruct E1 as (? & ? & ? & ? & ? & ?);
      destruct E3 as (? & ? & ? & ? & ? & ?);
      destruct E4 as (? & ? & ? & ? & ? & ?); try congruence; lia.
Qed.

(** X19: when the listing of the system holds the ship's waypoint and at
    least one waypoint of the wanted type, and the navigate call succeeds,
    NavigateToNearestWaypointOfType issues the listing request and then one
    navigate request, to the waypoint NearestWaypoint returns among those of
    that type; it takes fuel and navigation state from the response, returns
    no earlier than the arrival time of the new route, and reports the
    ShipBot once. *)
Theorem NavigateToNearestWaypointOfType_arrives (sem : LoopVar) (sb : ShipBot.t)
    (waypointType : string) (waypoints : list Waypoint.t)
    (currentWaypoint : Waypoint.t) (others : list Waypoint.t)
    (res : NavigateShipResponse.t) (rest : list Reply) (w : World.t) :
  World.replies w = RWaypoints waypoints :: RNavigate res :: rest ->
  Filter waypoints
    (fun waypoint => String.eqb (Waypoint.Symbol waypoint)
                                (ShipNav.WaypointSymbol (shipNav sb)))
  = currentWaypoint :: others ->
  Filter waypoints (fun waypoint => String.eqb (Waypoint.Type_ waypoint) waypointType)
  <> [] ->
  exists nearest w',
    NearestWaypoint sem currentWaypoint
      (Filter waypoints
         (fun waypoint => String.eqb (Waypoint.Type_ waypoint) waypointType))
    = (Some nearest, None)
    /\ In nearest waypoints
    /\ Waypoint.Type_ nearest = waypointType
    /\ NavigateToNearestWaypointOfType sem sb waypointType w = Returned tt w'
    /\ issued w'
       = issued w ++ [CListWaypoints (ShipNav.SystemSymbol (shipNav sb));
                      CNavigateShip (shipSymbol sb) (Waypoint.Symbol nearest)]
    /\ World.replies w' = rest
    /\ World.sbCh w'
       = World.sbCh w
         ++ [ShipBot.setShip sb
               (Ship.setNav (Ship.setFuel (ShipBot.ship sb)
                                          (NavigateShipResponse.Fuel res))
                            (NavigateShipResponse.Nav res))]
    /\ ShipNavRoute.Arrival (ShipNav.Route (NavigateShipResponse.Nav res))
       <= World.now w'.
Proof.
  intros Hrep Hcur Hsome.
  destruct (NearestWaypoint_of_candidates sem currentWaypoint _ Hsome)
    as (nearest & Hnear & Hin).
  exists nearest.
  assert (H : returns (NavigateToNearestWaypointOfType sem sb waypointType) w
                (fun _ w' =>
                   issued w'
                   = issued w ++ [CListWaypoints (ShipNav.SystemSymbol (shipNav sb));
                                  CNavigateShip (shipSymbol sb) (Waypoint.Symbol nearest)]
                   /\ World.replies w' = rest
                   /\ World.sbCh w'
                      = World.sbCh w
                        ++ [ShipBot.setShip sb
                              (Ship.setNav (Ship.setFuel (ShipBot.ship sb)
                                                         (NavigateShipResponse.Fuel res))
                                           (NavigateShipResponse.Nav res))]
                   /\ ShipNavRoute.Arrival (ShipNav.Route (NavigateShipResponse.Nav res))
                      <= World.now w')).
  { unfold NavigateToNearestWaypointOfType, client_ListWaypoints, client_NavigateShip.
    apply returns_bind, logf_returns. intros w1 _ _ Hr1 Hq1 _ Hs1.
    apply returns_bind, call_answered;
      [intros message Hrejected; rewrite Hr1, Hrep in Hrejected; discriminate|].
    intros w2 Hr2 (t2 & Hq2 & _) _ Hs2.
    rewrite Hr1, Hrep in *. cbn [hd_error tl decode isErr] in *.
    apply returns_bind, returns_ret. rewrite Hcur. cbn [index0].
    apply returns_bind, returns_ret. rewrite Hnear. cbn [isErr].
    apply returns_bind, logf_returns. intros w3 _ _ Hr3 Hq3 _ Hs3.
    apply returns_bind, returns_ret.
    apply returns_bind, call_returns. intros w4 Hr4 (t4 & Hq4 & _) _ Hs4.
    rewrite Hr3, Hr2 in *. cbn [hd_error tl decode isErr] in *.
    apply returns_bind, returns_ret.
    apply returns_bind, logf_returns. intros w5 _ _ Hr5 Hq5 _ Hs5.
    apply returns_bind, WaitUntilArrival_returns. intros w6 Heta _ Hr6 Hq6 Hs6.
    apply send_returns. intros w7 Hn7 _ Hr7 Hq7 _ Hs7.
    split; [|split; [congruence|split; [congruence|]]].
    - unfold issued. rewrite Hq7, Hq6, Hq5, Hq4, Hq3, Hq2, Hq1, !map_app, <- app_assoc.
      reflexivity.
    - rewrite Hn7. exact Heta. }
  destruct H as ([] & w' & Hrun & Hq & Hr & Hs & Heta).
  exists w'. apply filter_In in Hin. destruct Hin as [Hin Htype].
  apply String.eqb_eq in Htype. auto 10.
Qed.

(** A drone on the asteroid field sent to the moon of its system. *)
Lemma NavigateToNearestWaypointOfType_arrives_witness :
  exists nearest w',
    NearestWaypoint PerLoop far
      (Filter [origin; near; far]
         (fun waypoint => String.eqb (Waypoint.Type_ waypoint) "MOON"))
    = (Some nearest, None)
    /\ In nearest [origin; near; far]
    /\ Waypoint.Type_ nearest = "MOON"
    /\ NavigateToNearestWaypointOfType PerLoop (excavator 0 40 "IN_ORBIT") "MOON"
         (world_with [RWaypoints [origin; near; far];
                      under_way "X1-DF55-69207D" 5000000000])
       = Returned tt w'
    /\ issued w'
       = issued (world_with [RWaypoints [origin; near; far];
                             under_way "X1-DF55-69207D" 5000000000])
         ++ [CListWaypoints (ShipNav.SystemSymbol (shipNav (excavator 0 40 "IN_ORBIT")));
             CNavigateShip (shipSymbol (excavator 0 40 "IN_ORBIT"))
                           (Waypoint.Symbol nearest)]
    /\ World.replies w' = []
    /\ World.sbCh w'
       = World.sbCh (world_with [RWaypoints [origin; near; far];
                                 under_way "X1-DF55-69207D" 5000000000])
         ++ [ShipBot.setShip (excavator 0 40 "IN_ORBIT")
               (Ship.setNav
                  (Ship.setFuel (ShipBot.ship (excavator 0 40 "IN_ORBIT"))
                                (ShipFuel.mk 1100 1200))
                  (ShipNav.mk "X1-DF55" "X1-DF55-69207D"
                     (ShipNavRoute.mk "X1-DF55-69207D" 5000000000) "IN_TRANSIT"))]
    /\ 5000000000 <= World.now w'.
Proof.
  apply (NavigateToNearestWaypointOfType_arrives PerLoop (excavator 0 40 "IN_ORBIT")
           "MOON" [origin; near; far] far []
           (NavigateShipResponse.mk (ShipFuel.mk 1100 1200)
              (ShipNav.mk "X1-DF55" "X1-DF55-69207D"
                 (ShipNavRoute.mk "X1-DF55-69207D" 5000000000) "IN_TRANSIT"))
           []
           (world_with [RWaypoints [origin; near; far];
                        under_way "X1-DF55-69207D" 5000000000])).
  - reflexivity.
  - reflexivity.
  - cbn. discriminate.
Defined.

(** X20: when the listing of the system holds the ship's waypoint and at
    least one waypoint with the wanted trait, and the navigate call succeeds,
    NavigateToNearestWaypointWithTrait issues the listing request and then
    one navigate request, to the waypoint NearestWaypoint returns among those
    with that trait; it takes fuel and navigation state from the response,
    returns no earlier than the arrival time of the new route, and reports
    the ShipBot once. *)
Theorem NavigateToNearestWaypointWithTrait_arrives (sem : LoopVar) (sb : ShipBot.t)
    (trait : string) (waypoints : list Waypoint.t)
    (currentWaypoint : Waypoint.t) (others : list Waypoint.t)
    (res : NavigateShipResponse.t) (rest : list Reply) (w : World.t) :
  World.replies w = RWaypoints waypoints :: RNavigate res :: rest ->
  Filter waypoints
    (fun waypoint => String.eqb (Waypoint.Symbol waypoint)
                                (ShipNav.WaypointSymbol (shipNav sb)))
  = currentWaypoint :: others ->
  Filter waypoints (hasTrait trait) <> [] ->
  exists nearest w',
    NearestWaypoint sem currentWaypoint (Filter waypoints (hasTrait trait))
    = (Some nearest, None)
    /\ In nearest waypoints
    /\ hasTrait trait nearest = true
    /\ NavigateToNearestWaypointWithTrait sem sb trait w = Returned tt w'
    /\ issued w'
       = issued w ++ [CListWaypoints (ShipNav.SystemSymbol (shipNav sb));
                      CNavigateShip (shipSymbol sb) (Waypoint.Symbol nearest)]
    /\ World.replies w' = rest
    /\ World.sbCh w'
       = World.sbCh w
         ++ [ShipBot.setShip sb
               (Ship.setNav (Ship.setFuel (ShipBot.ship sb)
                                          (NavigateShipResponse.Fuel res))
                            (NavigateShipResponse.Nav res))]
    /\ ShipNavRoute.Arrival (ShipNav.Route (NavigateShipResponse.Nav res))
       <= World.now w'.
Proof.
  intros Hrep Hcur Hsome.
  destruct (NearestWaypoint_of_candidates sem currentWaypoint _ Hsome)
    as (nearest & Hnear & Hin).
  exists nearest.
  assert (H : returns (NavigateToNearestWaypointWithTrait sem sb trait) w
                (fun _ w' =>
                   issued w'
                   = issued w ++ [CListWaypoints (ShipNav.SystemSymbol (shipNav sb));
                                  CNavigateShip (shipSymbol sb) (Waypoint.Symbol nearest)]
                   /\ World.replies w' = rest
                   /\ World.sbCh w'
                      = World.sbCh w
                        ++ [ShipBot.setShip sb
                              (Ship.setNav (Ship.setFuel (ShipBot.ship sb)
                                                         (NavigateShipResponse.Fuel res))
                                           (NavigateShipResponse.Nav res))]
                   /\ ShipNavRoute.Arrival (ShipNav.Route (NavigateShipResponse.Nav res))
                      <= World.now w')).
  { unfold NavigateToNearestWaypointWithTrait, client_ListWaypoints,
      client_NavigateShip.
    apply returns_bind, logf_returns. intros w1 _ _ Hr1 Hq1 _ Hs1.
    apply returns_bind, call_answered;
      [intros message Hrejected; rewrite Hr1, Hrep in Hrejected; discriminate|].
    intros w2 Hr2 (t2 & Hq2 & _) _ Hs2.
    rewrite Hr1, Hrep in *. cbn [hd_error tl decode isErr when] in *.
    apply returns_bind, returns_ret.
    apply returns_bind, returns_ret. rewrite Hcur. cbn [index0].
    apply returns_bind, returns_ret. rewrite Hnear. cbn [isErr].
    apply returns_bind, logf_returns. intros w3 _ _ Hr3 Hq3 _ Hs3.
    apply returns_bind, returns_ret.
    apply returns_bind, call_returns. intros w4 Hr4 (t4 & Hq4 & _) _ Hs4.
    rewrite Hr3, Hr2 in *. cbn [hd_error tl decode isErr] in *.
    apply returns_bind, returns_ret.
    apply returns_bind, logf_returns. intros w5 _ _ Hr5 Hq5 _ Hs5.
    apply returns_bind, WaitUntilArrival_returns. intros w6 Heta _ Hr6 Hq6 Hs6.
    apply send_returns. intros w7 Hn7 _ Hr7 Hq7 _ Hs7.
    split; [|split; [congruence|split; [congruence|]]].
    - unfold issued. rewrite Hq7, Hq6, Hq5, Hq4, Hq3, Hq2, Hq1, !map_app, <- app_assoc.
      reflexivity.
    - rewrite Hn7. exact Heta. }
  destruct H as ([] & w' & Hrun & Hq & Hr & Hs & Heta).
  exists w'. apply filter_In in Hin. destruct Hin as [Hin Htrait]. auto 10.
Qed.

(** A drone on the asteroid field sent to the shipyard of its system. *)
Lemma NavigateToNearestWaypointWithTrait_arrives_witness :
  exists nearest w',
    NearestWaypoint PerLoop far
      (Filter [origin; shipyard "X1-DF55-69207D" 3 4; far]
              (hasTrait "SHIPYARD"))
    = (Some nearest, None)
    /\ In nearest [origin; shipyard "X1-DF55-69207D" 3 4; far]
    /\ hasTrait "SHIPYARD" nearest = true
    /\ NavigateToNearestWaypointWithTrait PerLoop (excavator 40 40 "IN_ORBIT")
         "SHIPYARD"
         (world_with [RWaypoints [origin; shipyard "X1-DF55-69207D" 3 4; far];
                      under_way "X1-DF55-69207D" 5000000000])
       = Returned tt w'
    /\ issued w'
       = issued (world_with
                   [RWaypoints [origin; shipyard "X1-DF55-69207D" 3 4; far];
                    under_way "X1-DF55-69207D" 5000000000])
         ++ [CListWaypoints (ShipNav.SystemSymbol (shipNav (excavator 40 40 "IN_ORBIT")));
             CNavigateShip (shipSymbol (excavator 40 40 "IN_ORBIT"))
                           (Waypoint.Symbol nearest)]
    /\ World.replies w' = []
    /\ World.sbCh w'
       = World.sbCh (world_with
                       [RWaypoints [origin; shipyard "X1-DF55-69207D" 3 4; far];
                        under_way "X1-DF55-69207D" 5000000000])
         ++ [ShipBot.setShip (excavator 40 40 "IN_ORBIT")
               (Ship.setNav
                  (Ship.setFuel (ShipBot.ship (excavator 40 40 "IN_ORBIT"))
                                (ShipFuel.mk 1100 1200))
                  (ShipNav.mk "X1-DF55" "X1-DF55-69207D"
                     (ShipNavRoute.mk "X1-DF55-69207D" 5000000000) "IN_TRANSIT"))]
    /\ 5000000000 <= World.now w'.
Proof.
  apply (NavigateToNearestWaypointWithTrait_arrives PerLoop (excavator 40 40 "IN_ORBIT")
           "SHIPYARD" [origin; shipyard "X1-DF55-69207D" 3 4; far]
           far []
           (NavigateShipResponse.mk (ShipFuel.mk 1100 1200)
              (ShipNav.mk "X1-DF55" "X1-DF55-69207D"
                 (ShipNavRoute.mk "X1-DF55-69207D" 5000000000) "IN_TRANSIT"))
           []
           (world_with [RWaypoints [origin; shipyard "X1-DF55-69207D" 3 4; far];
                        under_way "X1-DF55-69207D" 5000000000])).
  - reflexivity.
  - reflexivity.
  - cbn. discriminate.
Defined.

Lemma ends_bind {A B} (m : M A) (k : A -> M B) (w : World.t)
    (Q : B -> World.t -> Prop) (P : string -> World.t -> Prop) :
  returns m w (fun a w' => returns (k a) w' Q \/ panics (k a) w' P) ->
  returns (bind m k) w Q \/ panics (bind m k) w P.
Proof.
  intros (a & w' & Hrun & [H|H]).
  - left. apply returns_bind. exists a, w'. auto.
  - right. apply panics_bind. exists a, w'. auto.
Qed.

(** The common end of the two navigation actions: from the choice of the
    nearest candidate on. *)
Ltac navigate_or_give_up sem sb w Hs1 Hs2 :=
  let Hcand := fresh "Hcand" in
  let nearest := fresh "nearest" in
  let candidate := fresh "candidate" in
  let candidates' := fresh "candidates" in
  let res := fresh "res" in
  let message := fresh "message" in
  let Heta := fresh "Heta" in
  let Hnow := fresh "Hnow" in
  lazymatch goal with
  | |- context [NearestWaypoint sem ?cur ?candidates] =>
      destruct candidates as [|candidate candidates'] eqn:Hcand;
      [ rewrite NearestWaypoint_empty; cbn [isErr]; left;
        apply returns_bind, logf_returns; intros ? _ _ ? ? _ ?;
        apply send_returns; intros ? _ _ ? ? _ ?;
        exists sb; split; [congruence | left; reflexivity]
      | destruct (NearestWaypoint_of_candidates sem cur (candidate :: candidates'))
          as (nearest & -> & _); [discriminate|];
        cbn [isErr];
        apply ends_bind, logf_returns; intros ? _ _ ? ? _ ?;
        apply ends_bind, returns_ret;
        apply ends_bind, call_returns; intros ? ? _ _ ?;
        match goal with
        | |- context [decode ?pick ?r] =>
            destruct (decode_cases pick r) as [[res ->]|[message ->]]
        end;
        cbn [isErr]; left;
        [ apply returns_bind, returns_ret;
          apply returns_bind, logf_returns; intros ? _ _ ? ? _ ?;
          apply returns_bind, WaitUntilArrival_returns; intros ? Heta _ ? ? ?;
          apply send_returns; intros ? Hnow _ ? ? _ ?;
          exists (ShipBot.setShip sb
                    (Ship.setNav (Ship.setFuel (ShipBot.ship sb)
                                               (NavigateShipResponse.Fuel res))
                                 (NavigateShipResponse.Nav res)));
          split; [congruence|];
          right; exists res; split; [reflexivity | rewrite Hnow; exact Heta]
        | apply returns_bind, logf_returns; intros ? _ _ ? ? _ ?;
          apply send_returns; intros ? _ _ ? ? _ ?;
          exists sb; split; [congruence | left; reflexivity] ] ]
  end.

Lemma NavigateToNearestWaypointOfType_rejected (sem : LoopVar) (sb : ShipBot.t)
    (waypointType : string) (message : string) (w : World.t) :
  hd_error (World.replies w) = Some (RError message) ->
  panics (NavigateToNearestWaypointOfType sem sb waypointType) w
    (fun msg w' =>
       msg = "interface conversion: interface {} is *api.ErrorResponse, not api.ErrorResponse"
       /\ issued w'
          = issued w ++ [CListWaypoints (ShipNav.SystemSymbol (shipNav sb))]
       /\ World.journal w' = World.journal w ++ [(INFO, "Navigating to nearest waypoint of type...")]
       /\ World.sbCh w' = World.sbCh w).
Proof.
  intros Hhd. unfold NavigateToNearestWaypointOfType, client_ListWaypoints.
  apply panics_bind, logf_returns. intros w1 _ _ Hr1 Hq1 Hj1 Hs1.
  apply panics_bind_left.
  apply (call_rejected _ _ _ _ message); [right; reflexivity | congruence|].
  intros msg w2 Hmsg _ (t & Hq2 & _) Hj2 Hs2.
  unfold assert_ErrorResponse, panic in Hmsg. injection Hmsg as <-.
  split; [reflexivity|]. split; [|split; congruence].
  unfold issued. rewrite Hq2, Hq1, map_app. reflexivity.
Qed.

(** X21: whatever the answers, NavigateToNearestWaypointOfType ends.  It
    panics, with nothing reported, when the listing is rejected (the client
    asserts the value type on its error object) and when the listing it
    obtained lacks the ship's own waypoint (index 0 of an empty slice).
    Otherwise it reports exactly one ShipBot: the one it was given, or the
    one with fuel and navigation state of a navigate response, no earlier
    than the arrival time of that response. *)
Theorem NavigateToNearestWaypointOfType_ends (sem : LoopVar) (sb : ShipBot.t)
    (waypointType : string) (w : World.t) :
  (match NavigateToNearestWaypointOfType sem sb waypointType w with
    | Returned _ w' =>
        exists sb',
          World.sbCh w' = World.sbCh w ++ [sb']
          /\ (sb' = sb
              \/ exists res,
                   sb' = ShipBot.setShip sb
                           (Ship.setNav (Ship.setFuel (ShipBot.ship sb)
                                                      (NavigateShipResponse.Fuel res))
                                        (NavigateShipResponse.Nav res))
                   /\ ShipNavRoute.Arrival (ShipNav.Route (NavigateShipResponse.Nav res))
                      <= World.now w')
    | Panicked msg w' =>
        World.sbCh w' = World.sbCh w
        /\ ((msg = "interface conversion: interface {} is *api.ErrorResponse, not api.ErrorResponse"
             /\ exists message, hd_error (World.replies w) = Some (RError message))
            \/ (msg = "runtime error: index out of range [0] with length 0"
                /\ exists waypoints,
                     hd_error (World.replies w) = Some (RWaypoints waypoints)
                     /\ Filter waypoints
                          (fun waypoint =>
                             String.eqb (Waypoint.Symbol waypoint)
                                        (ShipNav.WaypointSymbol (shipNav sb)))
                        = []))
    | Unfinished => False
    end)
  /\ (forall message,
        hd_error (World.replies w) = Some (RError message) ->
        exists w',
          NavigateToNearestWaypointOfType sem sb waypointType w
          = Panicked
              "interface conversion: interface {} is *api.ErrorResponse, not api.ErrorResponse"
              w'
          /\ issued w'
             = issued w ++ [CListWaypoints (ShipNav.SystemSymbol (shipNav sb))]
          /\ World.journal w' = World.journal w ++ [(INFO, "Navigating to nearest waypoint of type...")]
          /\ World.sbCh w' = World.sbCh w).
Proof.
  split.
  2: { intros message Hhd.
       destruct (NavigateToNearestWaypointOfType_rejected sem sb waypointType message w Hhd)
         as (msg & w' & Hrun & -> & H).
       exists w'. auto. }
  assert (H :
    returns (NavigateToNearestWaypointOfType sem sb waypointType) w
      (fun _ w' =>
        exists sb',
          World.sbCh w' = World.sbCh w ++ [sb']
          /\ (sb' = sb
              \/ exists res,
                   sb' = ShipBot.setShip sb
                           (Ship.setNav (Ship.setFuel (ShipBot.ship sb)
                                                      (NavigateShipResponse.Fuel res))
                                        (NavigateShipResponse.Nav res))
                   /\ ShipNavRoute.Arrival (ShipNav.Route (NavigateShipResponse.Nav res))
                      <= World.now w'))
    \/ panics (NavigateToNearestWaypointOfType sem sb waypointType) w
         (fun msg w' =>
           World.sbCh w' = World.sbCh w
           /\ ((msg = "interface conversion: interface {} is *api.ErrorResponse, not api.ErrorResponse"
                /\ exists message, hd_error (World.replies w) = Some (RError message))
               \/ (msg = "runtime error: index out of range [0] with length 0"
                   /\ exists waypoints,
                        hd_error (World.replies w) = Some (RWaypoints waypoints)
                        /\ Filter waypoints
                             (fun waypoint =>
                                String.eqb (Waypoint.Symbol waypoint)
                                           (ShipNav.WaypointSymbol (shipNav sb)))
                           = [])))).
  { unfold NavigateToNearestWaypointOfType, client_ListWaypoints, client_NavigateShip.
    apply ends_bind, logf_returns. intros w1 _ _ Hr1 _ _ Hs1.
    destruct (hd_error (World.replies w)) as [r|] eqn:Hhd;
      [destruct r as [message| | | | | | waypoints|]|];
      try (apply ends_bind, call_answered;
           [intros message' Hrejected; congruence|];
           intros w2 Hr2 _ _ Hs2; rewrite Hr1, Hhd; cbn [decode isErr];
           try (left; apply returns_bind, logf_returns; intros w3 _ _ Hr3 _ _ Hs3;
                apply send_returns; intros w4 _ _ Hr4 _ _ Hs4;
                exists sb; split; [congruence | left; reflexivity])).
    - right. apply panics_bind_left.
      apply (call_rejected _ _ _ _ message); [right; reflexivity | congruence|].
      intros msg w2 Hmsg _ _ _ Hs2.
      unfold assert_ErrorResponse, panic in Hmsg. injection Hmsg as <-.
      split; [congruence|]. left. split; [reflexivity|]. eauto.
    - apply ends_bind, returns_ret.
      match goal with
      | |- context [index0 ?l] => destruct l as [|currentWaypoint others] eqn:Hcur
      end; cbn [index0].
      + right. apply panics_bind_left, panics_panic.
        split; [congruence|]. right. split; [reflexivity|]. eauto.
      + apply ends_bind, returns_ret. navigate_or_give_up sem sb w Hs1 Hs2. }
  destruct H as [([] & w' & -> & H)|(msg & w' & -> & H)]; exact H.
Qed.



(** ** Sending the command ship to the shipyards *)

Lemma time_Now_within (w : World.t) (Q : Z -> World.t -> Prop) :
  (forall w', elapsed w w' ->
              World.now w' + delay w' = World.now w + delay w ->
              Q (World.now w') w') ->
  returns time_Now w Q.
Proof.
  intros H. unfold returns, time_Now, bind, tick.
  destruct (World.lag w) as [|d rest] eqn:Hlag.
  - exists (World.now w), w. split; [reflexivity|].
    apply H; [apply elapsed_refl | reflexivity].
  - eexists _, _. split; [reflexivity|].
    set (w1 := World.mk _ _ _ _ _ _ _).
    change (World.now w + Z.of_N d) with (World.now w1).
    apply H; [unfold elapsed; cbn; repeat split; lia|].
    unfold delay. rewrite Hlag. cbn. lia.
Qed.

(** The three ways of NavigateShip, with what was read of the clock on the
    way to each. *)
Lemma NavigateShip_cases (sb : ShipBot.t) (waypointSymbol : string) (w : World.t) :
  returns (NavigateShip sb waypointSymbol) w
    (fun _ w' =>
       World.sbCh w' = World.sbCh w
       /\ ((World.requests w' = World.requests w
            /\ World.replies w' = World.replies w
            /\ ShipNav.WaypointSymbol (shipNav sb) = waypointSymbol
            /\ arrival sb < World.now w'
            /\ exists n, n <= World.now w + delay w /\ arrival sb < n)
           \/ (World.requests w' = World.requests w
               /\ World.replies w' = World.replies w
               /\ ShipNavRoute.Destination (ShipNav.Route (shipNav sb))
                  = waypointSymbol
               /\ arrival sb <= World.now w'
               /\ exists n, World.now w <= n /\ n < arrival sb)
           \/ (exists t,
                 World.requests w'
                 = World.requests w ++ [(t, CNavigateShip (shipSymbol sb) waypointSymbol)]
                 /\ arrival sb <= t
                 /\ World.replies w' = tl (World.replies w)
                 /\ (ShipNav.WaypointSymbol (shipNav sb) <> waypointSymbol
                     \/ exists n, World.now w <= n /\ n <= arrival sb)
                 /\ (ShipNavRoute.Destination (ShipNav.Route (shipNav sb))
                     <> waypointSymbol
                     \/ exists n, n <= World.now w + delay w /\ arrival sb <= n)))).
Proof.
  assert (Hgo :
    forall w0,
      elapsed w w0 ->
      World.now w0 + delay w0 = World.now w + delay w ->
      (ShipNav.WaypointSymbol (shipNav sb) <> waypointSymbol
       \/ exists n, World.now w <= n /\ n <= arrival sb) ->
      returns
        (n <- time_Now ;;
         if (n <? arrival sb)
            && String.eqb (ShipNavRoute.Destination (ShipNav.Route (shipNav sb)))
                          waypointSymbol
         then
           Info "🚀 Already traveling to waypoint. Navigation skipped." ;;
           WaitUntilArrival sb
         else
           when (n <? arrival sb) (WaitUntilArrival sb) ;;
           '(_, err) <- client_NavigateShip (shipSymbol sb) waypointSymbol ;;
           when (isErr err) (Error "🚀 Error traveling to shipyard.")) w0
        (fun _ w' =>
           World.sbCh w' = World.sbCh w
           /\ ((World.requests w' = World.requests w
                /\ World.replies w' = World.replies w
                /\ ShipNav.WaypointSymbol (shipNav sb) = waypointSymbol
                /\ arrival sb < World.now w'
                /\ exists n, n <= World.now w + delay w /\ arrival sb < n)
               \/ (World.requests w' = World.requests w
                   /\ World.replies w' = World.replies w
                   /\ ShipNavRoute.Destination (ShipNav.Route (shipNav sb))
                      = waypointSymbol
                   /\ arrival sb <= World.now w'
                   /\ exists n, World.now w <= n /\ n < arrival sb)
               \/ (exists t,
                     World.requests w'
                     = World.requests w ++ [(t, CNavigateShip (shipSymbol sb) waypointSymbol)]
                     /\ arrival sb <= t
                     /\ World.replies w' = tl (World.replies w)
                     /\ (ShipNav.WaypointSymbol (shipNav sb) <> waypointSymbol
                         \/ exists n, World.now w <= n /\ n <= arrival sb)
                     /\ (ShipNavRoute.Destination (ShipNav.Route (shipNav sb))
                         <> waypointSymbol
                         \/ exists n, n <= World.now w + delay w /\ arrival sb <= n))))).
  { intros w0 (Hn0 & _ & Hr0 & Hq0 & _ & Hs0) Hd0 Hfirst.
    assert (Hcall :
      forall w1,
        arrival sb <= World.now w1 ->
        World.replies w1 = World.replies w ->
        World.requests w1 = World.requests w ->
        World.sbCh w1 = World.sbCh w ->
        (ShipNavRoute.Destination (ShipNav.Route (shipNav sb)) <> waypointSymbol
         \/ exists n, n <= World.now w + delay w /\ arrival sb <= n) ->
        returns
          ('(_, err) <- client_NavigateShip (shipSymbol sb) waypointSymbol ;;
           when (isErr err) (Error "🚀 Error traveling to shipyard.")) w1
          (fun _ w' =>
             World.sbCh w' = World.sbCh w
             /\ ((World.requests w' = World.requests w
                  /\ World.replies w' = World.replies w
                  /\ ShipNav.WaypointSymbol (shipNav sb) = waypointSymbol
                  /\ arrival sb < World.now w'
                  /\ exists n, n <= World.now w + delay w /\ arrival sb < n)
                 \/ (World.requests w' = World.requests w
                     /\ World.replies w' = World.replies w
                     /\ ShipNavRoute.Destination (ShipNav.Route (shipNav sb))
                        = waypointSymbol
                     /\ arrival sb <= World.now w'
                     /\ exists n, World.now w <= n /\ n < arrival sb)
                 \/ (exists t,
                       World.requests w'
                       = World.requests w ++ [(t, CNavigateShip (shipSymbol sb) waypointSymbol)]
                       /\ arrival sb <= t
                       /\ World.replies w' = tl (World.replies w)
                       /\ (ShipNav.WaypointSymbol (shipNav sb) <> waypointSymbol
                           \/ exists n, World.now w <= n /\ n <= arrival sb)
                       /\ (ShipNavRoute.Destination (ShipNav.Route (shipNav sb))
                           <> waypointSymbol
                           \/ exists n, n <= World.now w + delay w /\ arrival sb <= n))))).
    { intros w1 Heta Hr1 Hq1 Hs1 Hsecond. unfold client_NavigateShip.
      apply returns_bind, call_returns. intros w2 Hr2 (t & Hq2 & Ht & _) _ Hs2.
      destruct (decode _ _) as [value err].
      destruct (isErr err); cbn [when].
      - apply logf_returns. intros w3 _ _ Hr3 Hq3 _ Hs3.
        split; [congruence|]. right. right. exists t.
        split; [congruence|]. split; [lia|]. split; [congruence|]. auto.
      - apply returns_ret.
        split; [congruence|]. right. right. exists t.
        split; [congruence|]. split; [lia|]. split; [congruence|]. auto. }
    apply returns_bind, time_Now_within.
    intros w1 (Hn1 & _ & Hr1 & Hq1 & _ & Hs1) Hd1.
    pose proof (lag_nonneg (World.lag w1)) as Hlag1. fold (delay w1) in Hlag1.
    destruct (Z.ltb_spec (World.now w1) (arrival sb)) as [Hcoming|Hpast];
      cbn [andb].
    - destruct (String.eqb_spec
                  (ShipNavRoute.Destination (ShipNav.Route (shipNav sb)))
                  waypointSymbol) as [Hdest|Hother].
      + apply returns_bind, logf_returns. intros w2 _ _ Hr2 Hq2 _ Hs2.
        apply WaitUntilArrival_returns. intros w3 Heta _ Hr3 Hq3 Hs3.
        split; [congruence|]. right. left.
        split; [congruence|]. split; [congruence|].
        split; [exact Hdest|]. split; [exact Heta|].
        exists (World.now w1). split; lia.
      + cbn [when].
        apply returns_bind, WaitUntilArrival_returns. intros w2 Heta _ Hr2 Hq2 Hs2.
        apply Hcall; try congruence. left. exact Hother.
    - cbn [when]. apply returns_bind, returns_ret.
      apply Hcall; try congruence. right.
      exists (World.now w1). split; lia. }
  unfold NavigateShip, andM.
  apply returns_bind.
  destruct (String.eqb_spec (ShipNav.WaypointSymbol (shipNav sb)) waypointSymbol)
    as [Hat|Haway].
  - apply returns_bind, returns_ret. cbv iota.
    apply returns_bind, time_Now_within. intros w1 E1 Hd1. apply returns_ret.
    pose proof (lag_nonneg (World.lag w1)) as Hlag1. fold (delay w1) in Hlag1.
    destruct (Z.ltb_spec (arrival sb) (World.now w1)) as [Hpast|Hcoming].
    + destruct E1 as (Hn1 & _ & Hr1 & Hq1 & _ & Hs1).
      apply logf_returns. intros w2 Hn2 _ Hr2 Hq2 _ Hs2.
      split; [congruence|]. left.
      split; [congruence|]. split; [congruence|].
      split; [exact Hat|]. split; [lia|].
      exists (World.now w1). split; lia.
    + apply Hgo; [exact E1 | exact Hd1 |]. right.
      exists (World.now w1). destruct E1 as (Hn1 & _). split; lia.
  - apply returns_bind, returns_ret. cbv iota. apply returns_ret.
    apply Hgo; [apply elapsed_refl | reflexivity | left; exact Haway].
Qed.

Lemma NavigateShip_returns (sb : ShipBot.t) (waypointSymbol : string) (w : World.t) :
  returns (NavigateShip sb waypointSymbol) w
    (fun _ w' =>
       World.sbCh w' = World.sbCh w
       /\ ((World.requests w' = World.requests w
            /\ World.replies w' = World.replies w)
           \/ (exists t,
                 World.requests w'
                 = World.requests w ++ [(t, CNavigateShip (shipSymbol sb) waypointSymbol)]
                 /\ arrival sb <= t
                 /\ World.replies w' = tl (World.replies w)))).
Proof.
  eapply returns_weaken; [apply NavigateShip_cases|].
  intros [] w' (Hs & [H|[H|H]]); (split; [exact Hs|]).
  - left. destruct H as (Hq & Hr & _). auto.
  - left. destruct H as (Hq & Hr & _). auto.
  - right. destruct H as (t & Hq & Heta & Hr & _). eauto.
Qed.

(** X23: NavigateShip always returns and sends nothing, and issues at most
    one request, a navigate request for this ship and that waypoint, no
    earlier than the arrival time of the ship's current route.  It issues
    none when the ship is at the waypoint with its arrival passed, and none
    when the ship is under way to the waypoint, its arrival later than the
    clock can read on the way: then it returns at or after the arrival.  It
    issues one when the ship is at another waypoint and either heads for
    another one or has arrived. *)
Theorem NavigateShip_navigates_once_arrived (sb : ShipBot.t)
    (waypointSymbol : string) (w : World.t) :
  exists w',
    NavigateShip sb waypointSymbol w = Returned tt w'
    /\ World.sbCh w' = World.sbCh w
    /\ ((World.requests w' = World.requests w
         /\ World.replies w' = World.replies w)
        \/ (exists t,
              World.requests w'
              = World.requests w ++ [(t, CNavigateShip (shipSymbol sb) waypointSymbol)]
              /\ arrival sb <= t
              /\ World.replies w' = tl (World.replies w)))
    /\ (ShipNav.WaypointSymbol (shipNav sb) = waypointSymbol ->
        arrival sb < World.now w ->
        World.requests w' = World.requests w
        /\ World.replies w' = World.replies w)
    /\ (ShipNavRoute.Destination (ShipNav.Route (shipNav sb)) = waypointSymbol ->
        World.now w + delay w < arrival sb ->
        World.requests w' = World.requests w
        /\ World.replies w' = World.replies w
        /\ arrival sb <= World.now w')
    /\ (ShipNav.WaypointSymbol (shipNav sb) <> waypointSymbol ->
        ShipNavRoute.Destination (ShipNav.Route (shipNav sb)) <> waypointSymbol
        \/ arrival sb <= World.now w ->
        exists t,
          World.requests w'
          = World.requests w ++ [(t, CNavigateShip (shipSymbol sb) waypointSymbol)]
          /\ arrival sb <= t
          /\ World.replies w' = tl (World.replies w)).
Proof.
  destruct (NavigateShip_cases sb waypointSymbol w) as ([] & w' & Hrun & Hs & H).
  exists w'. split; [exact Hrun|]. split; [exact Hs|].
  destruct H as [(Hq & Hr & Hat & Hpast & n & Hn & Hlate)
                |[(Hq & Hr & Hdest & Heta & n & Hn & Hearly)
                 |(t & Hq & Heta & Hr & Hfirst & Hsecond)]].
  - split; [left; auto|]. split; [auto|]. split.
    + intros _ Hfar. lia.
    + intros Haway _. contradiction.
  - split; [left; auto|]. split; [|split].
    + intros _ Hpast. lia.
    + auto.
    + intros _ [Hother|Harrived]; [contradiction | lia].
  - split; [right; eauto|]. split; [|split].
    + intros Hat Hpast. destruct Hfirst as [Haway|(n & Hn & Hle)];
        [contradiction | lia].
    + intros Hdest Hfar. destruct Hsecond as [Hother|(n & Hn & Hle)];
        [contradiction | lia].
    + intros _ _. eauto.
Qed.

(** The tour of the shipyards: at most one navigate request for each, in
    turn, none before the arrival time of the route the ShipBot had at the
    start, which no step of the tour updates. *)
Lemma tour_returns (sb : ShipBot.t) (shipyards : list Waypoint.t) :
  forall w,
    returns
      (forM_ shipyards
         (fun waypoint =>
            Info "🚀 Traveling to shipyard..." ;;
            NavigateShip sb (Waypoint.Symbol waypoint))) w
      (fun _ w' =>
         World.sbCh w' = World.sbCh w
         /\ exists navs,
              World.requests w' = World.requests w ++ navs
              /\ (length navs <= length shipyards)%nat
              /\ Forall (fun request =>
                           arrival sb <= fst request
                           /\ exists waypoint,
                                In waypoint shipyards
                                /\ snd request
                                   = CNavigateShip (shipSymbol sb)
                                                   (Waypoint.Symbol waypoint))
                        navs).
Proof.
  induction shipyards as [|waypoint shipyards IH]; intros w; cbn [forM_].
  - apply returns_ret. split; [reflexivity|]. exists [].
    rewrite app_nil_r. cbn. auto.
  - apply returns_bind, returns_bind, logf_returns. intros w1 _ _ Hr1 Hq1 _ Hs1.
    eapply returns_weaken; [apply NavigateShip_returns|].
    intros [] w2 (Hs2 & Hreq).
    eapply returns_weaken; [apply IH|].
    intros [] w3 (Hs3 & navs & Hq3 & Hlen & Hall).
    split; [congruence|].
    assert (Hall' :
      Forall (fun request =>
                arrival sb <= fst request
                /\ exists waypoint0,
                     In waypoint0 (waypoint :: shipyards)
                     /\ snd request
                        = CNavigateShip (shipSymbol sb) (Waypoint.Symbol waypoint0))
             navs).
    { eapply Forall_impl; [|exact Hall].
      intros request (Heta & waypoint0 & Hin & Hcall).
      split; [exact Heta|]. exists waypoint0. split; [right; exact Hin | exact Hcall]. }
    destruct Hreq as [(Hq2 & _)|(t & Hq2 & Heta & _)].
    + exists navs. split; [congruence|]. split; [cbn [length]; lia | exact Hall'].
    + exists ((t, CNavigateShip (shipSymbol sb) (Waypoint.Symbol waypoint)) :: navs).
      split; [rewrite Hq3, Hq2, Hq1, <- app_assoc; reflexivity|].
      split; [cbn [length]; lia|].
      constructor; [|exact Hall'].
      split; [exact Heta|]. exists waypoint. split; [left; reflexivity | reflexivity].
Qed.

Lemma InitiateRequisitionProtocol_rejected (sb : ShipBot.t) (message : string)
    (w : World.t) :
  hd_error (World.replies w) = Some (RError message) ->
  panics (InitiateRequisitionProtocol sb) w
    (fun msg w' =>
       msg = "interface conversion: interface {} is *api.ErrorResponse, not api.ErrorResponse"
       /\ issued w'
          = issued w ++ [CListWaypoints (ShipNav.SystemSymbol (shipNav sb))]
       /\ World.journal w'
          = World.journal w
            ++ [(INFO, "Initiating requisition protocol...");
                (INFO, "🔎 Finding shipyards in current system...")]
       /\ World.sbCh w' = World.sbCh w).
Proof.
  intros Hhd.
  unfold InitiateRequisitionProtocol, FindWaypointsByTrait, client_ListWaypoints.
  apply panics_bind, logf_returns. intros w1 _ _ Hr1 Hq1 Hj1 Hs1.
  apply panics_bind, logf_returns. intros w2 _ _ Hr2 Hq2 Hj2 Hs2.
  apply panics_bind_left, panics_bind_left.
  apply (call_rejected _ _ _ _ message); [right; reflexivity | congruence|].
  intros msg w3 Hmsg Hr3 (t & Hq3 & _) Hj3 Hs3.
  unfold assert_ErrorResponse, panic in Hmsg. injection Hmsg as <-.
  split; [reflexivity|]. split; [|split; [|congruence]].
  - unfold issued. rewrite Hq3, Hq2, Hq1, map_app. reflexivity.
  - rewrite Hj3, Hj2, Hj1, <- app_assoc. reflexivity.
Qed.

Lemma InitiateRequisitionProtocol_unanswered (sb : ShipBot.t) (w : World.t) :
  (forall waypoints, hd_error (World.replies w) <> Some (RWaypoints waypoints)) ->
  (forall message, hd_error (World.replies w) <> Some (RError message)) ->
  panics (InitiateRequisitionProtocol sb) w
    (fun msg w' =>
       msg = nil_dereference
       /\ issued w'
          = issued w ++ [CListWaypoints (ShipNav.SystemSymbol (shipNav sb))]
       /\ World.journal w'
          = World.journal w
            ++ [(INFO, "Initiating requisition protocol...");
                (INFO, "🔎 Finding shipyards in current system...");
                (ERROR, "🔎 Error finding shipyards in current system.")]
       /\ World.sbCh w' = World.sbCh w).
Proof.
  intros Hfail Hanswer.
  unfold InitiateRequisitionProtocol, FindWaypointsByTrait, client_ListWaypoints.
  apply panics_bind, logf_returns. intros w1 _ _ Hr1 Hq1 Hj1 Hs1.
  apply panics_bind, logf_returns. intros w2 _ _ Hr2 Hq2 Hj2 Hs2.
  apply panics_bind, returns_bind, call_answered;
    [intros message Hrejected; eapply Hanswer; rewrite <- Hr1, <- Hr2;
     exact Hrejected|].
  intros w3 Hr3 (t & Hq3 & _) Hj3 Hs3. rewrite Hr2, Hr1.
  assert (Hdec :
    exists message,
      decode (fun r => match r with RWaypoints v => Some v | _ => None end)
             (hd_error (World.replies w)) = (None, Some message)).
  { destruct (hd_error (World.replies w)) as [[]|]; cbn [decode]; eauto.
    exfalso. eapply Hfail. reflexivity. }
  destruct Hdec as [message ->]. cbn [isErr].
  apply returns_ret. cbn [isErr when].
  apply panics_bind, logf_returns. intros w4 _ _ Hr4 Hq4 Hj4 Hs4.
  apply panics_bind_left, panics_panic.
  split; [reflexivity|]. split; [|split; [|congruence]].
  - unfold issued. rewrite Hq4, Hq3, Hq2, Hq1, map_app. reflexivity.
  - rewrite Hj4, Hj3, Hj2, Hj1, <- !app_assoc. reflexivity.
Qed.

Lemma InitiateRequisitionProtocol_shipyards (sb : ShipBot.t)
    (waypoints : list Waypoint.t) (w : World.t) :
  hd_error (World.replies w) = Some (RWaypoints waypoints) ->
  Filter waypoints (hasTrait "SHIPYARD") <> [] ->
  returns (InitiateRequisitionProtocol sb) w
    (fun _ w' =>
       exists t navs,
         World.requests w'
         = World.requests w
           ++ (t, CListWaypoints (ShipNav.SystemSymbol (shipNav sb))) :: navs
         /\ (length navs <= length (Filter waypoints (hasTrait "SHIPYARD")))%nat
         /\ Forall (fun request =>
                      arrival sb <= fst request
                      /\ exists waypoint,
                           In waypoint (Filter waypoints (hasTrait "SHIPYARD"))
                           /\ snd request
                              = CNavigateShip (shipSymbol sb)
                                              (Waypoint.Symbol waypoint))
                   navs
         /\ World.sbCh w' = World.sbCh w).
Proof.
  intros Hhd Hyards.
  unfold InitiateRequisitionProtocol, FindWaypointsByTrait, client_ListWaypoints.
  apply returns_bind, logf_returns. intros w1 _ _ Hr1 Hq1 _ Hs1.
  apply returns_bind, logf_returns. intros w2 _ _ Hr2 Hq2 _ Hs2.
  apply returns_bind, returns_bind, call_answered;
    [intros message Hrejected; congruence|].
  intros w3 Hr3 (t & Hq3 & _) _ Hs3. rewrite Hr2, Hr1, Hhd.
  cbn [decode isErr]. apply returns_bind, returns_ret, returns_ret.
  cbn [isErr when]. apply returns_bind, returns_ret, returns_bind, returns_ret.
  replace (Z.of_nat (length (Filter waypoints (hasTrait "SHIPYARD"))) =? 0)
    with false
    by (symmetry; apply Z.eqb_neq;
        destruct (Filter waypoints (hasTrait "SHIPYARD"));
        [contradiction | cbn [length]; lia]).
  apply returns_bind, logf_returns. intros w4 _ _ Hr4 Hq4 _ Hs4.
  eapply returns_weaken; [apply tour_returns|].
  intros [] w5 (Hs5 & navs & Hq5 & Hlen & Hall).
  exists t, navs. split; [|split; [exact Hlen|split; [exact Hall|congruence]]].
  rewrite Hq5, Hq4, Hq3, Hq2, Hq1, <- app_assoc. reflexivity.
Qed.

(** X24: InitiateRequisitionProtocol sends nothing on the channel and ends in
    one of four ways, decided by the answer to its listing request.  When
    the listing is rejected, the client panics in its type assertion, which
    asserts the value type where the pointer type was registered: no error
    line is logged.  On any other failure of the listing the protocol logs
    the error and panics on the nil listing.  When the listing holds no
    shipyard it panics with its own message.  Otherwise it returns after the
    listing request and at most one navigate request for each shipyard, each
    for this ship and a shipyard of the listing, and none before the arrival
    time of the ShipBot's route at the start. *)
Theorem InitiateRequisitionProtocol_outcome (sb : ShipBot.t) (w : World.t) :
  match hd_error (World.replies w) with
  | Some (RWaypoints waypoints) =>
      match Filter waypoints (hasTrait "SHIPYARD") with
      | [] =>
          exists w',
            InitiateRequisitionProtocol sb w
            = Panicked "no shipyards found. Not yet handled." w'
            /\ issued w'
               = issued w ++ [CListWaypoints (ShipNav.SystemSymbol (shipNav sb))]
            /\ World.sbCh w' = World.sbCh w
      | _ :: _ =>
          exists w' t navs,
            InitiateRequisitionProtocol sb w = Returned tt w'
            /\ World.requests w'
               = World.requests w
                 ++ (t, CListWaypoints (ShipNav.SystemSymbol (shipNav sb))) :: navs
            /\ (length navs
                <= length (Filter waypoints (hasTrait "SHIPYARD")))%nat
            /\ Forall (fun request =>
                         arrival sb <= fst request
                         /\ exists waypoint,
                              In waypoint (Filter waypoints (hasTrait "SHIPYARD"))
                              /\ snd request
                                 = CNavigateShip (shipSymbol sb)
                                                 (Waypoint.Symbol waypoint))
                      navs
            /\ World.sbCh w' = World.sbCh w
      end
  | Some (RError _) =>
      exists w',
        InitiateRequisitionProtocol sb w
        = Panicked
            "interface conversion: interface {} is *api.ErrorResponse, not api.ErrorResponse"
            w'
        /\ issued w'
           = issued w ++ [CListWaypoints (ShipNav.SystemSymbol (shipNav sb))]
        /\ World.journal w'
           = World.journal w
             ++ [(INFO, "Initiating requisition protocol...");
                 (INFO, "🔎 Finding shipyards in current system...")]
        /\ World.sbCh w' = World.sbCh w
  | _ =>
      exists w',
        InitiateRequisitionProtocol sb w = Panicked nil_dereference w'
        /\ issued w'
           = issued w ++ [CListWaypoints (ShipNav.SystemSymbol (shipNav sb))]
        /\ World.journal w'
           = World.journal w
             ++ [(INFO, "Initiating requisition protocol...");
                 (INFO, "🔎 Finding shipyards in current system...");
                 (ERROR, "🔎 Error finding shipyards in current system.")]
        /\ World.sbCh w' = World.sbCh w
  end.
Proof.
  assert (Hunanswered :
    (forall waypoints, hd_error (World.replies w) <> Some (RWaypoints waypoints)) ->
    (forall message, hd_error (World.replies w) <> Some (RError message)) ->
    exists w',
      InitiateRequisitionProtocol sb w = Panicked nil_dereference w'
      /\ issued w'
         = issued w ++ [CListWaypoints (ShipNav.SystemSymbol (shipNav sb))]
      /\ World.journal w'
         = World.journal w
           ++ [(INFO, "Initiating requisition protocol...");
               (INFO, "🔎 Finding shipyards in current system...");
               (ERROR, "🔎 Error finding shipyards in current system.")]
      /\ World.sbCh w' = World.sbCh w).
  { intros Hfail Hanswer.
    destruct (InitiateRequisitionProtocol_unanswered sb w Hfail Hanswer)
      as (msg & w' & Hrun & -> & H).
    exists w'. auto. }
  destruct (hd_error (World.replies w)) as [r|] eqn:Hhd;
    [destruct r|];
    try (apply Hunanswered; intros ?; discriminate).
  - match type of Hhd with
    | _ = Some (RError ?message) =>
        destruct (InitiateRequisitionProtocol_rejected sb message w Hhd)
          as (msg & w' & Hrun & -> & H)
    end.
    exists w'. auto.
  - match goal with
    | |- context [Filter ?ws (hasTrait "SHIPYARD")] =>
        destruct (Filter ws (hasTrait "SHIPYARD")) as [|shipyard0 shipyards]
          eqn:Hyards
    end.
    + match type of Hhd with
      | _ = Some (RWaypoints ?ws) =>
          destruct (InitiateRequisitionProtocol_no_shipyard sb ws w Hhd Hyards)
            as (msg & w' & Hrun & -> & H)
      end.
      exists w'. auto.
    + match type of Hhd with
      | _ = Some (RWaypoints ?ws) =>
          destruct (InitiateRequisitionProtocol_shipyards sb ws w Hhd)
            as ([] & w' & Hrun & t & navs & H);
            [rewrite Hyards; discriminate|]
      end.
      rewrite Hyards in H. exists w', t, navs. auto.
Qed.

(** ** The start of the fleet *)





(** ** The nearest-waypoint search under either meaning of the range variable *)

(** X26: with the per-loop range variable (Go before 1.22), NearestWaypoint
    returns the last candidate of every non-empty list, whatever the
    distances: the pointer it keeps is to the loop variable. *)
Theorem NearestWaypoint_per_loop_gives_the_last (currentWaypoint : Waypoint.t)
    (candidates : list Waypoint.t) (final : Waypoint.t) :
  NearestWaypoint PerLoop currentWaypoint (candidates ++ [final])
  = (Some final, None).
Proof.
  rewrite NearestWaypoint_PerLoop by (destruct candidates; discriminate).
  rewrite last_last. reflexivity.
Qed.

(** X27: with a range variable per iteration (Go 1.22 on), NearestWaypoint
    returns, of every non-empty list, the earliest candidate at the least
    distance: no candidate is strictly nearer than the one returned, and
    every candidate before it is strictly farther. *)
Theorem NearestWaypoint_per_iteration_gives_the_nearest
    (currentWaypoint : Waypoint.t) (candidates : list Waypoint.t) :
  candidates <> [] ->
  exists k nearest,
    NearestWaypoint PerIteration currentWaypoint candidates = (Some nearest, None)
    /\ nth_error candidates k = Some nearest
    /\ (forall e, In e candidates ->
                  (distanceFrom currentWaypoint e
                   <? distanceFrom currentWaypoint nearest)%float = false)
    /\ (forall j e, (j < k)%nat -> nth_error candidates j = Some e ->
                    (distanceFrom currentWaypoint e
                     <=? distanceFrom currentWaypoint nearest)%float = false).
Proof. apply NearestWaypoint_PerIteration. Qed.

(** The far candidate listed before the near one. *)
Lemma NearestWaypoint_per_iteration_gives_the_nearest_witness :
  exists k nearest,
    NearestWaypoint PerIteration origin [far; near] = (Some nearest, None)
    /\ nth_error [far; near] k = Some nearest
    /\ (forall e, In e [far; near] ->
                  (distanceFrom origin e <? distanceFrom origin nearest)%float = false)
    /\ (forall j e, (j < k)%nat -> nth_error [far; near] j = Some e ->
                    (distanceFrom origin e <=? distanceFrom origin nearest)%float = false).
Proof.
  apply (NearestWaypoint_per_iteration_gives_the_nearest origin [far; near]).
  discriminate.
Defined.

(** ** Where the ship is *)

(** X28: when the waypoint lookup is answered with the ship's waypoint,
    IsAtWaypointOfType tells whether the type of that waypoint is the wanted
    one, and IsAtWaypointWithTrait whether one of its traits has the wanted
    symbol; each issues exactly one lookup request, for the system and the
    waypoint of the ship's navigation state, and sends nothing. *)
Theorem IsAtWaypoint_answers (sb : ShipBot.t) (wanted : string)
    (waypoint : Waypoint.t) (w : World.t) :
  hd_error (World.replies w) = Some (RWaypoint waypoint) ->
  (exists w',
      IsAtWaypointOfType sb wanted w
      = Returned (String.eqb (Waypoint.Type_ waypoint) wanted) w'
      /\ issued w'
         = issued w ++ [CGetWaypoint (ShipNav.SystemSymbol (shipNav sb))
                                     (ShipNav.WaypointSymbol (shipNav sb))]
      /\ World.replies w' = tl (World.replies w)
      /\ World.sbCh w' = World.sbCh w)
  /\ (exists b w',
        IsAtWaypointWithTrait sb wanted w = Returned b w'
        /\ (b = true <-> exists trait, In trait (Waypoint.Traits waypoint)
                                       /\ WaypointTrait.Symbol trait = wanted)
        /\ issued w'
           = issued w ++ [CGetWaypoint (ShipNav.SystemSymbol (shipNav sb))
                                       (ShipNav.WaypointSymbol (shipNav sb))]
        /\ World.replies w' = tl (World.replies w)
        /\ World.sbCh w' = World.sbCh w).
Proof.
  intros Hhd. split.
  - assert (H : returns (IsAtWaypointOfType sb wanted) w
                  (fun b w' =>
                     b = String.eqb (Waypoint.Type_ waypoint) wanted
                     /\ issued w'
                        = issued w ++ [CGetWaypoint (ShipNav.SystemSymbol (shipNav sb))
                                                    (ShipNav.WaypointSymbol (shipNav sb))]
                     /\ World.replies w' = tl (World.replies w)
                     /\ World.sbCh w' = World.sbCh w)).
    { unfold IsAtWaypointOfType, client_GetWaypoint.
      apply returns_bind, call_returns. intros w1 Hr1 (t & Hq1 & _) _ Hs1.
      rewrite Hhd. cbn [decode isErr when].
      apply returns_bind, returns_ret, returns_bind, returns_ret, returns_ret.
      split; [reflexivity|]. split; [|split; assumption].
      unfold issued. rewrite Hq1, map_app. reflexivity. }
    destruct H as (b & w' & Hrun & -> & H). exists w'. auto.
  - assert (H : returns (IsAtWaypointWithTrait sb wanted) w
                  (fun b w' =>
                     b = hasTrait wanted waypoint
                     /\ issued w'
                        = issued w ++ [CGetWaypoint (ShipNav.SystemSymbol (shipNav sb))
                                                    (ShipNav.WaypointSymbol (shipNav sb))]
                     /\ World.replies w' = tl (World.replies w)
                     /\ World.sbCh w' = World.sbCh w)).
    { unfold IsAtWaypointWithTrait, client_GetWaypoint.
      apply returns_bind, call_returns. intros w1 Hr1 (t & Hq1 & _) _ Hs1.
      rewrite Hhd. cbn [decode isErr when].
      apply returns_bind, returns_ret, returns_bind, returns_ret, returns_ret.
      rewrite filter_nonempty_existsb.
      split; [reflexivity|]. split; [|split; assumption].
      unfold issued. rewrite Hq1, map_app. reflexivity. }
    destruct H as (b & w' & Hrun & -> & H). exists (hasTrait wanted waypoint), w'.
    split; [exact Hrun|]. split; [|exact H].
    unfold hasTrait. rewrite existsb_exists.
    split; intros (trait & Hin & Hsym); exists trait; (split; [exact Hin|]);
      apply String.eqb_eq; exact Hsym.
Qed.

(** A ship on an asteroid field that has a marketplace. *)
Lemma IsAtWaypoint_answers_witness :
  (exists w',
      IsAtWaypointOfType (excavator 0 40 "IN_ORBIT") "ASTEROID_FIELD"
        (world_at (waypoint_of "ASTEROID_FIELD" ["MARKETPLACE"]))
      = Returned
          (String.eqb
             (Waypoint.Type_ (waypoint_of "ASTEROID_FIELD" ["MARKETPLACE"]))
             "ASTEROID_FIELD") w'
      /\ issued w'
         = issued (world_at (waypoint_of "ASTEROID_FIELD" ["MARKETPLACE"]))
           ++ [CGetWaypoint
                 (ShipNav.SystemSymbol (shipNav (excavator 0 40 "IN_ORBIT")))
                 (ShipNav.WaypointSymbol (shipNav (excavator 0 40 "IN_ORBIT")))]
      /\ World.replies w'
         = tl (World.replies (world_at (waypoint_of "ASTEROID_FIELD" ["MARKETPLACE"])))
      /\ World.sbCh w'
         = World.sbCh (world_at (waypoint_of "ASTEROID_FIELD" ["MARKETPLACE"])))
  /\ (exists b w',
        IsAtWaypointWithTrait (excavator 0 40 "IN_ORBIT") "ASTEROID_FIELD"
          (world_at (waypoint_of "ASTEROID_FIELD" ["MARKETPLACE"]))
        = Returned b w'
        /\ (b = true <->
            exists trait,
              In trait (Waypoint.Traits (waypoint_of "ASTEROID_FIELD" ["MARKETPLACE"]))
              /\ WaypointTrait.Symbol trait = "ASTEROID_FIELD")
        /\ issued w'
           = issued (world_at (waypoint_of "ASTEROID_FIELD" ["MARKETPLACE"]))
             ++ [CGetWaypoint
                   (ShipNav.SystemSymbol (shipNav (excavator 0 40 "IN_ORBIT")))
                   (ShipNav.WaypointSymbol (shipNav (excavator 0 40 "IN_ORBIT")))]
        /\ World.replies w'
           = tl (World.replies (world_at (waypoint_of "ASTEROID_FIELD" ["MARKETPLACE"])))
        /\ World.sbCh w'
           = World.sbCh (world_at (waypoint_of "ASTEROID_FIELD" ["MARKETPLACE"]))).
Proof.
  apply (IsAtWaypoint_answers (excavator 0 40 "IN_ORBIT") "ASTEROID_FIELD"
           (waypoint_of "ASTEROID_FIELD" ["MARKETPLACE"])
           (world_at (waypoint_of "ASTEROID_FIELD" ["MARKETPLACE"]))).
  reflexivity.
Defined.
